(** * mtg-pdf: page layout and pagination of card sheets

    A shallow embedding of [src/mtg-pdf.py].  The script lays fixed-size
    cards (63 x 88 mm) out on a page, picks the page orientation, walks the
    image list page by page and draws cut-assist decoration through a
    reportlab canvas.

    Numbers.  The script computes lengths with Python floats; here a length
    is an exact rational ([Q]), so the statements below are about the
    arithmetic the script performs, without binary64 rounding.  The unit
    conversion of the paper parser is given a second time in binary64
    (primitive floats), for the statements that are about rounding.
    Row, column and slot counters are Python ints and are modelled by [Z];
    Python's [//] and [%] on ints with a positive divisor are [Z.div] and
    [Z.modulo].

    Strings are ASCII ([string]); the character classes of the patterns,
    of [str.strip], of [str.lower] and of [str.isdigit] are those of
    Python restricted to ASCII.  A statement that would fail on other
    characters carries the hypothesis that its texts are ASCII.

    Effects.  A run is the list of calls it makes on the canvas and on the
    console, in order, together with what it returns or raises.  The file
    system is not modelled: [os.listdir] is replaced by the listing that
    [list_images] is given, [main] is given the result of [list_images],
    and [c.drawImage] is an oracle that tells which images fail to
    load. *)

From Stdlib Require Import ZArith QArith Qround Qabs Lia Lqa.
From Stdlib Require Import List Bool Ascii String DecimalString.
From Stdlib Require Import PrimFloat Uint63.
From Stdlib Require Import Permutation Sorted.
Import ListNotations.

Local Open Scope Q_scope.

(** ** Units and constants *)

(** [reportlab.lib.units.mm]: points per millimetre,
    [inch = 72.0; cm = inch / 2.54; mm = cm * 0.1]. *)
Definition mm : Q := 360 # 127.

Definition CARD_W_MM : Q := 63.
Definition CARD_H_MM : Q := 88.

(** ** Errors

    The exceptions the script can raise on the paths modelled here. *)
Inductive error : Type :=
| ValueError (msg : string)
| ZeroDivisionError
| SystemExit (msg : string).

Inductive result (A : Type) : Type :=
| Ok (a : A)
| Raise (e : error).
Arguments Ok {A} a.
Arguments Raise {A} e.

Definition bind {A B : Type} (r : result A) (k : A -> result B) : result B :=
  match r with
  | Ok a => k a
  | Raise e => Raise e
  end.

Notation "x <- r ;; k" := (bind r (fun x => k))
  (at level 61, r at next level, right associativity).
Notation "' p <- r ;; k" := (bind r (fun p => k))
  (at level 61, p pattern, r at next level, right associativity).

(** ** Grid planner: [compute_grid] *)

(** Python's [int(a // b)] on floats: the floor of the quotient, and
    [ZeroDivisionError] when the divisor is zero.  The quotient here is
    that of the exact rationals; where it is an integer, or within
    rounding of one, the binary64 quotient of the script can fall on the
    other side of it and the script then counts one cell fewer or more. *)
Definition floordiv (a b : Q) : result Z :=
  if Qeq_bool b 0 then Raise ZeroDivisionError else Ok (Qfloor (a / b)).

(** The [orientation] argument: one of the strings ["auto"], ["portrait"]
    and ["landscape"] that [argparse] lets through. *)
Inductive orientation : Type := Auto | Portrait | Landscape.

(** The result of [attempt]: [(rows, cols, x0, y0)]. *)
Definition grid : Type := (Z * Z * Q * Q)%type.

(** The inner function [attempt(pw, ph)] of [compute_grid]; [margin_mm] and
    [gap_mm] are the variables it closes over. *)
Definition attempt (margin_mm gap_mm pw ph : Q) : result grid :=
  let usable_w := pw - 2 * margin_mm * mm in
  let usable_h := ph - 2 * margin_mm * mm in
  c <- floordiv (usable_w + gap_mm * mm) (CARD_W_MM * mm + gap_mm * mm) ;;
  let cols := Z.max 1 c in
  r <- floordiv (usable_h + gap_mm * mm) (CARD_H_MM * mm + gap_mm * mm) ;;
  let rows := Z.max 1 r in
  let x0 := (pw - (inject_Z cols * CARD_W_MM * mm
                   + (inject_Z cols - 1) * gap_mm * mm)) / 2 in
  let y0 := (ph - (inject_Z rows * CARD_H_MM * mm
                   + (inject_Z rows - 1) * gap_mm * mm)) / 2 in
  Ok (rows, cols, x0, y0).

(** [compute_grid(page_w, page_h, margin_mm, gap_mm, orientation)] returns
    [(rows, cols, x0, y0, rotated)]. *)
Definition compute_grid (page_w page_h margin_mm gap_mm : Q) (o : orientation)
  : result (grid * bool) :=
  match o with
  | Portrait =>
      g <- attempt margin_mm gap_mm page_w page_h ;;
      Ok (g, false)
  | Landscape =>
      g <- attempt margin_mm gap_mm page_h page_w ;;
      Ok (g, true)
  | Auto =>
      ' (r1, c1, x1, y1) <- attempt margin_mm gap_mm page_w page_h ;;
      ' (r2, c2, x2, y2) <- attempt margin_mm gap_mm page_h page_w ;;
      let n1 := (r1 * c1)%Z in
      let n2 := (r2 * c2)%Z in
      if (n2 >? n1)%Z
      then Ok ((r2, c2, x2, y2), true)
      else Ok ((r1, c1, x1, y1), false)
  end.

(** ** Paper resolver: [PAPERS] and [parse_custom_paper] *)

Local Open Scope char_scope.

(** [\d] on ASCII input. *)
Definition is_digit (c : ascii) : bool :=
  let n := nat_of_ascii c in (48 <=? n)%nat && (n <=? 57)%nat.

(** [\s], and the characters [str.strip()] removes, on ASCII input:
    tab, line feed, vertical tab, form feed, carriage return, the four
    separators 0x1c-0x1f and the space. *)
Definition is_space (c : ascii) : bool :=
  let n := nat_of_ascii c in
  ((9 <=? n)%nat && (n <=? 13)%nat) || ((28 <=? n)%nat && (n <=? 32)%nat).

(** [str.lower()] on one ASCII character. *)
Definition lower_char (c : ascii) : ascii :=
  let n := nat_of_ascii c in
  if (65 <=? n)%nat && (n <=? 90)%nat then ascii_of_nat (n + 32) else c.

Definition lower (s : list ascii) : list ascii := map lower_char s.

(** The longest prefix whose characters satisfy [p], and the rest: a greedy
    [p*]. *)
Fixpoint span (p : ascii -> bool) (s : list ascii) : list ascii * list ascii :=
  match s with
  | c :: r =>
      if p c then let (a, b) := span p r in (c :: a, b) else ([], s)
  | [] => ([], [])
  end.

Definition skip_spaces (s : list ascii) : list ascii := snd (span is_space s).

(** [str.strip()]. *)
Definition strip (s : list ascii) : list ascii :=
  rev (skip_spaces (rev (skip_spaces s))).

(** The group [(\d+(?:\.\d+)?)]: the digits before the point, the digits
    after it (empty when there is no fraction) and the unread rest. *)
Definition scan_number (s : list ascii)
  : option (list ascii * list ascii * list ascii) :=
  let (d, r) := span is_digit s in
  match d with
  | [] => None
  | _ :: _ =>
      match r with
      | c :: r' =>
          if Ascii.eqb c "." then
            let (f, r'') := span is_digit r' in
            match f with
            | [] => Some (d, [], r)
            | _ :: _ => Some (d, f, r'')
            end
          else Some (d, [], r)
      | [] => Some (d, [], r)
      end
  end.

(** Two characters that spell [mm], [cm] or [in] in any case. *)
Definition is_unit (a b : ascii) : bool :=
  let a := lower_char a in
  let b := lower_char b in
  (Ascii.eqb a "m" && Ascii.eqb b "m")
  || (Ascii.eqb a "c" && Ascii.eqb b "m")
  || (Ascii.eqb a "i" && Ascii.eqb b "n").

(** The group [(mm|cm|in)?] under [re.IGNORECASE]: the matched text, if
    any, and the unread rest. *)
Definition scan_unit (s : list ascii) : option (list ascii) * list ascii :=
  match s with
  | a :: b :: r => if is_unit a b then (Some [a; b], r) else (None, s)
  | _ => (None, s)
  end.

(** The text of a number group: the digits before the point and those
    after it. *)
Definition number_text : Type := (list ascii * list ascii)%type.

(** [re.match(r'^\s*(\d+(?:\.\d+)?)\s*x\s*(\d+(?:\.\d+)?)(mm|cm|in)?\s*$',
    spec, re.IGNORECASE)] followed by [m.groups()]: the two number texts
    and the unit text, if any.  Every quantifier of the pattern is
    followed by something its characters cannot start, so the greedy scan
    below finds the match whenever there is one. *)
Definition match_paper (spec : list ascii)
  : option (number_text * number_text * option (list ascii)) :=
  match scan_number (skip_spaces spec) with
  | None => None
  | Some (d1, f1, s1) =>
      match skip_spaces s1 with
      | c :: s2 =>
          if Ascii.eqb (lower_char c) "x" then
            match scan_number (skip_spaces s2) with
            | None => None
            | Some (d2, f2, s3) =>
                let (unit, s4) := scan_unit s3 in
                match skip_spaces s4 with
                | [] => Some ((d1, f1), (d2, f2), unit)
                | _ :: _ => None
                end
            end
          else None
      | [] => None
      end
  end.

Definition digit_val (c : ascii) : Z := Z.of_nat (nat_of_ascii c) - 48.

Definition digits_val (d : list ascii) : Z :=
  fold_left (fun acc c => (10 * acc + digit_val c)%Z) d 0%Z.

(** [float(text)] for the text of a number group: the number written. *)
Definition float_of (t : number_text) : Q :=
  let (d, f) := t in
  inject_Z (digits_val (d ++ f)) / inject_Z (10 ^ Z.of_nat (List.length f)).

Local Open Scope string_scope.

Definition text (s : list ascii) : string := string_of_list_ascii s.

(** Lines 42-50 of [parse_custom_paper]: the unit, lower-cased and [mm]
    when the group is absent, and the conversion to points. *)
Definition unit_to_points (w h : Q) (unit : option (list ascii))
  : result (Q * Q) :=
  let unit := text (lower (match unit with
                           | Some u => u
                           | None => list_ascii_of_string "mm"
                           end)) in
  if unit =? "mm" then Ok (w * mm, h * mm)
  else if unit =? "cm" then Ok (w * 10 * mm, h * 10 * mm)
  else if (unit =? "in") || (unit =? "inch") || (unit =? "inches")
  then Ok (w * 25.4 * mm, h * 25.4 * mm)
  else Raise (ValueError "Unknown units (allowed: mm, cm, in)").

Definition parse_custom_paper (spec : string) : result (Q * Q) :=
  match match_paper (list_ascii_of_string spec) with
  | None =>
      Raise (ValueError "Invalid paper format. Example: 210x297mm or 8.5x11in")
  | Some (w, h, unit) =>
      let w := float_of w in
      let h := float_of h in
      unit_to_points w h unit
  end.

(** *** The conversion in binary64

    The same conversion with the floats of the script, IEEE 754 binary64
    rounded to nearest, for statements that are about rounding. *)

(** [reportlab.lib.units]: [inch = 72.0], [cm = inch / 2.54],
    [mm = cm * 0.1]. *)
#[warnings="-inexact-float"]
Definition mm_b64 : float := (72 / 2.54 * 0.1)%float.

(** [float(text)]: the binary64 number nearest to the number written.  One
    division of two integers that binary64 holds exactly gives it; that
    covers the texts whose digits, read as one integer, stay below 2^53
    and that have at most 18 decimals.  Longer texts are left out
    ([None]). *)
Definition float_of_b64 (t : number_text) : option float :=
  let (d, f) := t in
  let n := digits_val (d ++ f) in
  let k := Z.of_nat (List.length f) in
  if ((n <? 2 ^ 53) && (k <=? 18))%Z
  then Some (of_uint63 (Uint63.of_Z n) / of_uint63 (Uint63.of_Z (10 ^ k)))%float
  else None.

#[warnings="-inexact-float"]
Definition unit_to_points_b64 (w h : float) (unit : option (list ascii))
  : result (float * float) :=
  let unit := text (lower (match unit with
                           | Some u => u
                           | None => list_ascii_of_string "mm"
                           end)) in
  if unit =? "mm" then Ok (w * mm_b64, h * mm_b64)%float
  else if unit =? "cm" then Ok (w * 10 * mm_b64, h * 10 * mm_b64)%float
  else if (unit =? "in") || (unit =? "inch") || (unit =? "inches")
  then Ok (w * 25.4 * mm_b64, h * 25.4 * mm_b64)%float
  else Raise (ValueError "Unknown units (allowed: mm, cm, in)").

Definition parse_custom_paper_b64 (spec : string)
  : option (result (float * float)) :=
  match match_paper (list_ascii_of_string spec) with
  | None =>
      Some (Raise (ValueError
                     "Invalid paper format. Example: 210x297mm or 8.5x11in"))
  | Some (w, h, unit) =>
      match float_of_b64 w, float_of_b64 h with
      | Some w, Some h => Some (unit_to_points_b64 w h unit)
      | _, _ => None
      end
  end.

(** Two binary64 results that are paper sizes and differ by at most [eps]
    points in each dimension. *)
Definition paper_close_b64 (eps : float)
    (a b : option (result (float * float))) : bool :=
  match a, b with
  | Some (Ok (w1, h1)), Some (Ok (w2, h2)) =>
      (PrimFloat.leb (PrimFloat.abs (w1 - w2)) eps
       && PrimFloat.leb (PrimFloat.abs (h1 - h2)) eps)%float
  | _, _ => false
  end.

(** [reportlab.lib.pagesizes]: [A4 = (210*mm, 297*mm)],
    [LETTER = (8.5*inch, 11*inch)] with [inch = 72.0], and
    [A3 = (297*mm, 420*mm)]. *)
Definition A4 : Q * Q := (210 * mm, 297 * mm).
Definition LETTER : Q * Q := (8.5 * 72, 11 * 72).
Definition A3 : Q * Q := (297 * mm, 420 * mm).

(** The dict [PAPERS], in the order it is written. *)
Definition PAPERS : list (string * (Q * Q)) :=
  [("a4", A4); ("letter", LETTER); ("a3", A3)].

Fixpoint dict_get {V : Type} (d : list (string * V)) (k : string) : option V :=
  match d with
  | [] => None
  | (k', v) :: d' => if k' =? k then Some v else dict_get d' k
  end.

(** The paper selection of [main]:
    [paper_key = args.paper.strip().lower()], then the dict or the parser
    (which receives the string as given). *)
Definition resolve_paper (paper : string) : result (Q * Q) :=
  let paper_key := text (lower (strip (list_ascii_of_string paper))) in
  match dict_get PAPERS paper_key with
  | Some paper_size => Ok paper_size
  | None => parse_custom_paper paper
  end.

(** ** The canvas

    The script drives a reportlab canvas and prints to the console.  A run
    is modelled by the sequence of calls it makes, in order. *)
Local Open Scope list_scope.

Inductive event : Type :=
| NewCanvas (out_path : string) (pagesize : Q * Q)
| Translate (dx dy : Q)
| Rotate (theta : Q)
| ShowPage
| SetFillColor (r g b : Q)
| Rect (x y width height : Q) (fill stroke : Z)
| SetLineWidth (width : Q)
| Line (x1 y1 x2 y2 : Q)
| DrawImage (img : string) (x y width height : Q)
| Print (msg : string)
| Save.

(** [range(n)]. *)
Definition range (n : Z) : list Z := map Z.of_nat (seq 0 (Z.to_nat n)).

(** [draw_crop_marks(c, x, y, w, h, mark_len, offset)]; the defaults of the
    last two are [5*mm] and [0.3*mm]. *)
Definition draw_crop_marks (x y w h mark_len offset : Q) : list event :=
  [ SetLineWidth 0.3;
    (* bottom left *)
    Line (x - offset - mark_len) (y - offset) (x - offset) (y - offset);
    Line (x - offset) (y - offset - mark_len) (x - offset) (y - offset);
    (* bottom right *)
    Line (x + w + offset) (y - offset) (x + w + offset + mark_len) (y - offset);
    Line (x + w + offset) (y - offset - mark_len) (x + w + offset) (y - offset);
    (* top left *)
    Line (x - offset - mark_len) (y + h + offset) (x - offset) (y + h + offset);
    Line (x - offset) (y + h + offset) (x - offset) (y + h + offset + mark_len);
    (* top right *)
    Line (x + w + offset) (y + h + offset) (x + w + offset + mark_len)
         (y + h + offset);
    Line (x + w + offset) (y + h + offset) (x + w + offset)
         (y + h + offset + mark_len) ].

(** [draw_black_borders(c, rows, cols, x0, y0, w, h, dx, dy, gap_mm)]. *)
Definition draw_black_borders (rows cols : Z) (x0 y0 w h dx dy gap_mm : Q)
  : list event :=
  let gap := gap_mm * mm in
  let total_width := inject_Z cols * dx - gap in
  let total_height := inject_Z rows * dy - gap in
  let border_extend := gap in
  [ SetFillColor 0 0 0;
    Rect (x0 - border_extend) (y0 + total_height)
         (total_width + 2 * border_extend) border_extend 1 0;
    Rect (x0 - border_extend) (y0 - border_extend)
         (total_width + 2 * border_extend) border_extend 1 0;
    Rect (x0 - border_extend) (y0 - border_extend)
         border_extend (total_height + 2 * border_extend) 1 0;
    Rect (x0 + total_width) (y0 - border_extend)
         border_extend (total_height + 2 * border_extend) 1 0 ]
  ++ map (fun row =>
            let y_gap := y0 + (inject_Z rows - 1 - inject_Z row) * dy - gap in
            Rect x0 y_gap total_width gap 1 0)
         (range (rows - 1))
  ++ map (fun col =>
            let x_gap := x0 + inject_Z col * dx + w in
            Rect x_gap y0 gap total_height 1 0)
         (range (cols - 1)).

(** ** Document assembler: [make_pdf] *)

Section Assembler.

(** The draw capability: [c.drawImage] either draws the image or raises an
    exception; [draw_error img] is the text of the exception, if any. *)
Variable draw_error : string -> option string.

Section Loop.

(** The locals of [make_pdf] that the loop reads. *)
Variables (rows cols : Z) (x0 y0 w h dx dy gap_mm ph : Q).
Variables (rotated cropmarks black_borders : bool).

(** The crop marks of one page (lines 176-180). *)
Definition page_crop_marks : list event :=
  flat_map (fun grid_row =>
    flat_map (fun grid_col =>
      let grid_x := x0 + inject_Z grid_col * dx in
      let grid_y := y0 + (inject_Z rows - 1 - inject_Z grid_row) * dy in
      draw_crop_marks grid_x grid_y w h (5 * mm) (0 * mm))
    (range cols))
  (range rows).

(** What the loop does when [i % per_page == 0] (lines 164-180). *)
Definition page_start (i : Z) : list event :=
  (if (i >? 0)%Z
   then ShowPage :: (if rotated then [Translate 0 ph; Rotate 90] else [])
   else [])
  ++ (if black_borders
      then draw_black_borders rows cols x0 y0 w h dx dy gap_mm
      else [])
  ++ (if cropmarks then page_crop_marks else []).

(** The [try: c.drawImage(...) except Exception as e: print(...)] of one
    image (lines 190-194). *)
Definition try_draw (img : string) (x y : Q) : event :=
  match draw_error img with
  | None => DrawImage img x y w h
  | Some e => Print ("[WARN] Cannot load image: "
                     ++ img ++ " (" ++ e ++ ")")%string
  end.

(** The loop [for idx, img in enumerate(images)] (lines 162-196), started
    with counter [i].  The grid of [compute_grid] has at least one row and
    one column, so [per_page] is at least 1 and neither [%] nor [//]
    divides by zero. *)
Fixpoint make_pdf_loop (images : list string) (i : Z) : list event :=
  match images with
  | [] => []
  | img :: images' =>
      let per_page := (rows * cols)%Z in
      (if (i mod per_page =? 0)%Z then page_start i else [])
      ++ (let slot := (i mod per_page)%Z in
          let row := (slot / cols)%Z in
          let col := (slot mod cols)%Z in
          let x := x0 + inject_Z col * dx in
          let y := y0 + (inject_Z rows - 1 - inject_Z row) * dy in
          [try_draw img x y])
      ++ make_pdf_loop images' (i + 1)
  end.

End Loop.

(** Lines 143-153 of [make_pdf]: the grid, the rotation of the first page
    and the swap of [pw] and [ph].  Returns the calls made on the canvas
    and [(rows, cols, x0, y0, rotated, ph)]. *)
Definition make_pdf_grid (paper_size : Q * Q) (margin_mm gap_mm : Q)
    (o : orientation) : list event * result (Z * Z * Q * Q * bool * Q) :=
  let (pw, ph) := paper_size in
  match compute_grid pw ph margin_mm gap_mm o with
  | Raise e => ([], Raise e)
  | Ok ((rows, cols, x0, y0), rotated) =>
      if rotated then
        let c := [Translate 0 ph; Rotate 90] in
        let (pw, ph) := (ph, pw) in
        match compute_grid pw ph margin_mm gap_mm Portrait with
        | Raise e => (c, Raise e)
        | Ok ((rows, cols, x0, y0), _) =>
            (c, Ok (rows, cols, x0, y0, rotated, ph))
        end
      else ([], Ok (rows, cols, x0, y0, rotated, ph))
  end.

(** [make_pdf(images, out_path, paper_size, margin_mm, gap_mm, cropmarks,
    orientation, black_borders)]: the calls made and the returned
    [(rows, cols, per_page)]. *)
Definition make_pdf (images : list string) (out_path : string)
    (paper_size : Q * Q) (margin_mm gap_mm : Q) (cropmarks : bool)
    (o : orientation) (black_borders : bool)
  : list event * result (Z * Z * Z) :=
  let c0 := [NewCanvas out_path paper_size] in
  let (c1, r) := make_pdf_grid paper_size margin_mm gap_mm o in
  match r with
  | Raise e => (c0 ++ c1, Raise e)
  | Ok (rows, cols, x0, y0, rotated, ph) =>
      let w := CARD_W_MM * mm in
      let h := CARD_H_MM * mm in
      let dx := w + gap_mm * mm in
      let dy := h + gap_mm * mm in
      let per_page := (rows * cols)%Z in
      (c0 ++ c1
       ++ make_pdf_loop rows cols x0 y0 w h dx dy gap_mm ph
            rotated cropmarks black_borders images 0
       ++ [Save],
       Ok (rows, cols, per_page))
  end.

(** ** [main] *)

(** The parsed command line. *)
Record args : Type := {
  input_folder : string;
  paper : string;
  out : string;
  arg_margin_mm : Q;
  arg_gap_mm : Q;
  arg_cropmarks : bool;
  arg_black_borders : bool;
  arg_orientation : orientation
}.

(** [str(n)] for an int. *)
Definition str (n : Z) : string := NilZero.string_of_int (Z.to_int n).

(** The line [main] prints at the end. *)
Definition report (total : Z) (out_path : string) (rows cols per_page pages : Z)
  : string :=
  ("Done: " ++ str total ++ " images → " ++ out_path ++ " | "
   ++ str rows ++ "*" ++ str cols ++ " per page ("
   ++ str per_page ++ "/page), " ++ str pages ++ " pages.")%string.

(** [math.ceil(total / per_page)]. *)
Definition page_count (total per_page : Z) : Z :=
  Qceiling (inject_Z total / inject_Z per_page).

(** [list_images(args.input_folder)] reads the file system; its result is
    the argument [imgs]. *)
Definition main (imgs : list string) (a : args) : list event * result unit :=
  match resolve_paper (paper a) with
  | Raise e => ([], Raise e)
  | Ok paper_size =>
      match imgs with
      | [] =>
          ([], Raise (SystemExit
                        "No images in the folder (supported: .png .jpg/.jpeg)."))
      | _ :: _ =>
          let (c, r) := make_pdf imgs (out a) paper_size (arg_margin_mm a)
                          (arg_gap_mm a) (arg_cropmarks a) (arg_orientation a)
                          (arg_black_borders a) in
          match r with
          | Raise e => (c, Raise e)
          | Ok (rows, cols, per_page) =>
              let total := Z.of_nat (List.length imgs) in
              let pages := page_count total per_page in
              (c ++ [Print (report total (out a) rows cols per_page pages)],
               Ok tt)
          end
      end
  end.

End Assembler.

(** ** Reading a run

    What the statements below observe in the sequence of calls. *)

(** A page is what is drawn between two [showPage] calls (or an end of the
    run).  These are the pages the run starts; which of them the canvas
    writes to the file when it is saved is not modelled. *)
Fixpoint pages (tr : list event) : list (list event) :=
  match tr with
  | [] => [[]]
  | ShowPage :: tr' => [] :: pages tr'
  | e :: tr' =>
      match pages tr' with
      | pg :: pgs => (e :: pg) :: pgs
      | [] => [[e]]
      end
  end.

(** The outcome of one iteration's [try]: the image drawn, or the warning
    printed in its place. *)
Definition is_image_event (e : event) : bool :=
  match e with
  | DrawImage _ _ _ _ _ | Print _ => true
  | _ => false
  end.

Definition is_show_page (e : event) : bool :=
  match e with
  | ShowPage => true
  | _ => false
  end.

Definition is_line (e : event) : bool :=
  match e with
  | Line _ _ _ _ => true
  | _ => false
  end.

(** The calls of [draw_crop_marks]: the line width and the segments. *)
Definition is_crop_call (e : event) : bool :=
  match e with
  | SetLineWidth _ | Line _ _ _ _ => true
  | _ => false
  end.

(** The number of [showPage] calls of a run. *)
Definition show_pages (tr : list event) : nat :=
  List.length (filter is_show_page tr).

(** The image outcomes of a run, each with the number of [showPage] calls
    made before it, counted from [page]. *)
Fixpoint placed (page : Z) (tr : list event) : list (Z * event) :=
  match tr with
  | [] => []
  | e :: tr' =>
      if is_show_page e then placed (page + 1) tr'
      else if is_image_event e then (page, e) :: placed page tr'
      else placed page tr'
  end.

(** [enumerate(l, start=i)]. *)
Fixpoint enumerate {A : Type} (i : Z) (l : list A) : list (Z * A) :=
  match l with
  | [] => []
  | a :: l' => (i, a) :: enumerate (i + 1) l'
  end.

(** The PageSlot of the i-th image as the specification derives it:
    [slot = i mod perPage], [pageIndex = i div perPage],
    [row = slot div cols], [col = slot mod cols]. *)
Record PageSlot : Type := {
  pageIndex : Z;
  row : Z;
  col : Z
}.

Definition page_slot (per_page cols i : Z) : PageSlot :=
  let slot := (i mod per_page)%Z in
  {| pageIndex := (i / per_page)%Z;
     row := (slot / cols)%Z;
     col := (slot mod cols)%Z |}.

(** The lower left corner of the cell [(row, col)] of a grid, rows counted
    from the top of the block. *)
Definition cell_x (x0 dx : Q) (col : Z) : Q := x0 + inject_Z col * dx.
Definition cell_y (rows : Z) (y0 dy : Q) (row : Z) : Q :=
  y0 + (inject_Z rows - 1 - inject_Z row) * dy.

(** A segment that stays out of the interior of the cell with lower left
    corner [(x, y)] and size [w] by [h]. *)
Definition outside_cell (x y w h : Q) (e : event) : Prop :=
  match e with
  | Line x1 y1 x2 y2 =>
      (x1 <= x /\ x2 <= x) \/ (x + w <= x1 /\ x + w <= x2)
      \/ (y1 <= y /\ y2 <= y) \/ (y + h <= y1 /\ y + h <= y2)
  | _ => True
  end.

(** A run in which every image loads. *)
Definition all_load : string -> option string := fun _ => None.

(** What becomes of a call of the all-loading run when the images that
    [draw_error] rejects fail: the draw is replaced by its warning. *)
Definition degrade (draw_error : string -> option string) (e : event) : event :=
  match e with
  | DrawImage img x y w h =>
      match draw_error img with
      | None => e
      | Some err =>
          Print ("[WARN] Cannot load image: "
                 ++ img ++ " (" ++ err ++ ")")%string
      end
  | _ => e
  end.

(** Two resolver results that are paper sizes and differ by at most [eps]
    points in each dimension. *)
Definition paper_close (eps : Q) (a b : result (Q * Q)) : Prop :=
  match a, b with
  | Ok (w1, h1), Ok (w2, h2) =>
      Qabs (w1 - w2) <= eps /\ Qabs (h1 - h2) <= eps
  | _, _ => False
  end.

(** The scenario of ten images on A4 with the default options. *)
Definition ten_images : list string :=
  ["01.png"; "02.png"; "03.png"; "04.png"; "05.png";
   "06.png"; "07.png"; "08.png"; "09.png"; "10.png"].

Definition default_args (paper_arg : string) : args :=
  {| input_folder := "cards";
     paper := paper_arg;
     out := "cards_print.pdf";
     arg_margin_mm := 5;
     arg_gap_mm := 3;
     arg_cropmarks := false;
     arg_black_borders := false;
     arg_orientation := Auto |}.

(** [n] image names, ["1.png"] to ["n.png"]. *)
Definition numbered_images (n : nat) : list string :=
  map (fun k => (str (Z.of_nat k) ++ ".png")%string) (seq 1 n).

Definition is_translate (e : event) : bool :=
  match e with
  | Translate _ _ => true
  | _ => false
  end.

(** A run in which the third of the ten images cannot be loaded. *)
Definition third_fails : string -> option string :=
  fun img =>
    if img =? "03.png" then Some "cannot identify image file" else None.

(** ** The paper pattern as a regular expression

    The pattern of [parse_custom_paper], written as a regular expression
    and matched by derivatives, independently of the scanner above. *)
Inductive re : Type :=
| Void
| Eps
| Chr (p : ascii -> bool)
| Cat (r1 r2 : re)
| Alt (r1 r2 : re)
| Star (r : re).

Definition Opt (r : re) : re := Alt r Eps.
Definition Plus (r : re) : re := Cat r (Star r).

Fixpoint nullable (r : re) : bool :=
  match r with
  | Void => false
  | Eps => true
  | Chr _ => false
  | Cat r1 r2 => nullable r1 && nullable r2
  | Alt r1 r2 => nullable r1 || nullable r2
  | Star _ => true
  end.

Fixpoint deriv (c : ascii) (r : re) : re :=
  match r with
  | Void => Void
  | Eps => Void
  | Chr p => if p c then Eps else Void
  | Cat r1 r2 =>
      if nullable r1
      then Alt (Cat (deriv c r1) r2) (deriv c r2)
      else Cat (deriv c r1) r2
  | Alt r1 r2 => Alt (deriv c r1) (deriv c r2)
  | Star r1 => Cat (deriv c r1) (Star r1)
  end.

(** Does the whole of [s] match [r]? *)
Fixpoint re_match (r : re) (s : list ascii) : bool :=
  match s with
  | [] => nullable r
  | c :: s' => re_match (deriv c r) s'
  end.

(** The language of a regular expression. *)
Inductive matches : re -> list ascii -> Prop :=
| MEps : matches Eps []
| MChr p c : p c = true -> matches (Chr p) [c]
| MCat r1 r2 s1 s2 :
    matches r1 s1 -> matches r2 s2 -> matches (Cat r1 r2) (s1 ++ s2)
| MAltL r1 r2 s : matches r1 s -> matches (Alt r1 r2) s
| MAltR r1 r2 s : matches r2 s -> matches (Alt r1 r2) s
| MStarNil r : matches (Star r) []
| MStarApp r s1 s2 :
    matches r s1 -> matches (Star r) s2 -> matches (Star r) (s1 ++ s2).

(** A literal character under [re.IGNORECASE]. *)
Definition ci (c : ascii) : re := Chr (fun a => Ascii.eqb (lower_char a) c).

Definition space_re : re := Chr is_space.
Definition digit_re : re := Chr is_digit.

(** [\d+(?:\.\d+)?] *)
Definition number_re : re :=
  Cat (Plus digit_re) (Opt (Cat (Chr (Ascii.eqb ".")) (Plus digit_re))).

(** [mm|cm|in] *)
Definition unit_re : re :=
  Alt (Cat (ci "m") (ci "m"))
      (Alt (Cat (ci "c") (ci "m")) (Cat (ci "i") (ci "n"))).

(** [^\s*(\d+(?:\.\d+)?)\s*x\s*(\d+(?:\.\d+)?)(mm|cm|in)?\s*$] *)
Definition paper_re : re :=
  Cat (Star space_re)
 (Cat number_re
 (Cat (Star space_re)
 (Cat (ci "x")
 (Cat (Star space_re)
 (Cat number_re
 (Cat (Opt unit_re)
      (Star space_re))))))).

(** Does the paper string match the pattern? *)
Definition matches_paper_pattern (spec : string) : bool :=
  re_match paper_re (list_ascii_of_string spec).

(** A scan stops in front of a character outside the class. *)
Definition stops (p : ascii -> bool) (s : list ascii) : Prop :=
  match s with
  | [] => True
  | c :: _ => p c = false
  end.

(** ** Listing the images: [natural_key] and [list_images] *)

(** One element of a natural key: a lower-cased text or a number. *)
Inductive key_part : Type :=
| KStr (s : list ascii)
| KInt (n : Z).

(** [re.split(r'(\d+)', s)]: the text before the first run of digits, then
    each run of digits with the text that follows it (texts may be
    empty). *)
Fixpoint split_digits (s : list ascii)
  : list ascii * list (list ascii * list ascii) :=
  match s with
  | [] => ([], [])
  | c :: s' =>
      let (t, runs) := split_digits s' in
      if is_digit c then
        match t, runs with
        | [], (d, t') :: runs' => ([], (c :: d, t') :: runs')
        | _, _ => ([], ([c], t) :: runs)
        end
      else (c :: t, runs)
  end.

(** [natural_key(s)]: [int(t)] for the runs of digits, [t.lower()] for the
    texts between them. *)
Definition natural_key (s : list ascii) : list key_part :=
  let (t, runs) := split_digits s in
  KStr (lower t)
  :: flat_map (fun '(d, t') => [KInt (digits_val d); KStr (lower t')]) runs.

(** [==] of two elements of a key; an int never equals a str. *)
Definition part_eqb (a b : key_part) : bool :=
  match a, b with
  | KStr s, KStr t => (text s =? text t)%string
  | KInt n, KInt m => (n =? m)%Z
  | _, _ => false
  end.

(** [s < t] on strs: by code points, a proper prefix first. *)
Fixpoint str_ltb (s t : list ascii) : bool :=
  match s, t with
  | _, [] => false
  | [], _ :: _ => true
  | a :: s', b :: t' =>
      if (nat_of_ascii a <? nat_of_ascii b)%nat then true
      else if (nat_of_ascii b <? nat_of_ascii a)%nat then false
      else str_ltb s' t'
  end.

(** [<] of two elements of a key; between an int and a str it raises
    [TypeError] ([None]). *)
Definition part_lt (a b : key_part) : option bool :=
  match a, b with
  | KStr s, KStr t => Some (str_ltb s t)
  | KInt n, KInt m => Some (n <? m)%Z
  | _, _ => None
  end.

(** [a < b] on lists: decided at the first position where the elements
    are not equal, by length when there is none. *)
Fixpoint key_lt (a b : list key_part) : option bool :=
  match a, b with
  | [], [] => Some false
  | [], _ :: _ => Some true
  | _ :: _, [] => Some false
  | x :: a', y :: b' => if part_eqb x y then key_lt a' b' else part_lt x y
  end.

(** [sorted(names, key=natural_key)].  Python's sort is stable, and a
    stable sort has one result whatever pairs it compares; the insertion
    below is that sort, and it raises when a comparison does. *)
Fixpoint insert_by_key (x : list ascii) (l : list (list ascii))
  : option (list (list ascii)) :=
  match l with
  | [] => Some [x]
  | y :: l' =>
      match key_lt (natural_key y) (natural_key x) with
      | None => None
      | Some true =>
          match insert_by_key x l' with
          | Some r => Some (y :: r)
          | None => None
          end
      | Some false => Some (x :: l)
      end
  end.

Fixpoint sorted_by_key (names : list (list ascii))
  : option (list (list ascii)) :=
  match names with
  | [] => Some []
  | x :: names' =>
      match sorted_by_key names' with
      | Some r => insert_by_key x r
      | None => None
      end
  end.

(** [os.path.splitext(p)[1]] of [posixpath]: the text from the last dot
    on, when that dot lies in the last component of the path and some
    character of the component before it is not a dot. *)
Definition splitext_ext (p : list ascii) : list ascii :=
  let (e, before) := span (fun c => negb (Ascii.eqb c ".")) (rev p) in
  match before with
  | [] => []
  | dot :: before' =>
      if existsb (Ascii.eqb "/") e then []
      else
        let stem := fst (span (fun c => negb (Ascii.eqb c "/")) before') in
        if existsb (fun c => negb (Ascii.eqb c ".")) stem
        then dot :: rev e
        else []
  end.

Definition starts_with_sep (p : list ascii) : bool :=
  match p with
  | c :: _ => Ascii.eqb c "/"
  | [] => false
  end.

(** [os.path.join(a, b)] of [posixpath]. *)
Definition path_join (a b : list ascii) : list ascii :=
  if starts_with_sep b then b
  else
    match a with
    | [] => b
    | _ :: _ => if starts_with_sep (rev a) then a ++ b else a ++ "/"%char :: b
    end.

Definition IMG_EXTS : list string := [".png"; ".jpg"; ".jpeg"; ".webp"].

(** [ext in IMG_EXTS] for [ext = os.path.splitext(name)[1].lower()]. *)
Definition has_image_ext (name : list ascii) : bool :=
  existsb (String.eqb (text (lower (splitext_ext name)))) IMG_EXTS.

(** [list_images(folder)], for the names [os.listdir(folder)] returns. *)
Definition list_images (folder : string) (listing : list string)
  : option (list string) :=
  match sorted_by_key (map list_ascii_of_string listing) with
  | None => None
  | Some names =>
      Some (map (fun name => text (path_join (list_ascii_of_string folder) name))
                (filter has_image_ext names))
  end.

(** The shape of a key: elements alternate between str and int;
    [want_str] tells which one comes first. *)
Fixpoint alternates (want_str : bool) (k : list key_part) : bool :=
  match k with
  | [] => true
  | KStr _ :: k' => want_str && alternates false k'
  | KInt _ :: k' => negb want_str && alternates true k'
  end.

(** [x] does not sort after [y]: [natural_key(y) < natural_key(x)] is
    false. *)
Definition key_le (x y : list ascii) : Prop :=
  key_lt (natural_key y) (natural_key x) = Some false.

(** Two drawn images that do not overlap: one lies wholly to a side of
    the other.  A warning printed for an image that failed paints
    nothing. *)
Definition apart (e1 e2 : event) : Prop :=
  match e1, e2 with
  | DrawImage _ x1 y1 w1 h1, DrawImage _ x2 y2 w2 h2 =>
      x1 + w1 <= x2 \/ x2 + w2 <= x1 \/ y1 + h1 <= y2 \/ y2 + h2 <= y1
  | _, _ => True
  end.



(** A filled rectangle that stays out of the interior of the cell with
    lower left corner [(x, y)] and size [w] by [h]. *)
Definition rect_clear_of (x y w h : Q) (e : event) : Prop :=
  match e with
  | Rect rx ry rw rh _ _ =>
      rx + rw <= x \/ x + w <= rx \/ ry + rh <= y \/ y + h <= ry
  | _ => True
  end.

(** The calls of [draw_black_borders] and [draw_crop_marks]. *)
Definition is_decoration (e : event) : bool :=
  match e with
  | SetFillColor _ _ _ | Rect _ _ _ _ _ _ | SetLineWidth _ | Line _ _ _ _ =>
      true
  | _ => false
  end.

(** What follows the first image outcome of a page. *)
Fixpoint after_first_image (pg : list event) : list event :=
  match pg with
  | [] => []
  | e :: pg' => if is_image_event e then pg' else after_first_image pg'
  end.

(** The text of a number of the pattern: digits, and a point with digits
    after it when there is a fraction. *)
Definition number_chars (d f : list ascii) : list ascii :=
  d ++ match f with
       | [] => []
       | _ :: _ => "."%char :: f
       end.

(** The text of the unit group. *)
Definition unit_chars (u : option (list ascii)) : list ascii :=
  match u with
  | Some u => u
  | None => []
  end.

(** A unit group of the pattern: absent, or two letters that spell a
    unit. *)
Definition unit_group (u : option (list ascii)) : Prop :=
  match u with
  | None => True
  | Some [a; b] => is_unit a b = true
  | Some _ => False
  end.

(** The characters that ASCII has. *)
Definition is_ascii (c : ascii) : bool := (nat_of_ascii c <? 128)%nat.

(** ** The download script: [slug] and [build_query]

    [mtg-scryfall-scrape.py] names the files that the folder of images
    holds.  Its two pure functions are modelled here, on ASCII text as
    above. *)

(** The characters of the class in the first [re.sub] of [slug]: the
    backslash, the slash, the colon, the star, the question mark, the
    double quote, the angle brackets and the bar. *)
Definition is_reserved (c : ascii) : bool :=
  existsb (Nat.eqb (nat_of_ascii c))
          [92; 47; 58; 42; 63; 34; 60; 62; 124]%nat.

(** [re.sub(class, "_", s)]. *)
Definition replace_reserved (s : list ascii) : list ascii :=
  map (fun c => if is_reserved c then "_"%char else c) s.

(** [re.sub(r"\s+", " ", s)]: every maximal run of white space becomes one
    space (written when the last character of the run is read). *)
Fixpoint collapse_spaces (s : list ascii) : list ascii :=
  match s with
  | [] => []
  | c :: r =>
      if is_space c then
        match r with
        | d :: _ =>
            if is_space d then collapse_spaces r
            else " "%char :: collapse_spaces r
        | [] => [" "%char]
        end
      else c :: collapse_spaces r
  end.

(** [slug(s)]. *)
Definition slug (s : string) : string :=
  text (strip (collapse_spaces (replace_reserved (list_ascii_of_string s)))).

(** [build_query(sets, include_tokens)]: [parts] and [" OR ".join(parts)]. *)
Definition query_parts (sets : list string) (include_tokens : bool)
  : list string :=
  flat_map (fun sc =>
              let sc := text (lower (list_ascii_of_string sc)) in
              ("e:" ++ sc)%string
              :: (if include_tokens then [("e:t" ++ sc)%string] else []))
           sets.

Definition build_query (sets : list string) (include_tokens : bool)
  : string :=
  String.concat " OR " (query_parts sets include_tokens).

(** A text in which white space is single spaces between other
    characters: every white space character is a space and is followed by
    a character that is not white space. *)
Fixpoint single_spaced (s : list ascii) : bool :=
  match s with
  | [] => true
  | c :: r =>
      (if is_space c
       then Ascii.eqb c " "
            && match r with
               | [] => false
               | d :: _ => negb (is_space d)
               end
       else true)
      && single_spaced r
  end.

(** A text that [slug] has nothing to do on: no reserved character, no
    white space at either end, and single spaces inside. *)
Definition tidy (s : list ascii) : bool :=
  forallb (fun c => negb (is_reserved c)) s
  && match s with
     | [] => true
     | c :: _ => negb (is_space c)
     end
  && single_spaced s.

(** Single spaces inside, with white space allowed at the end. *)
Fixpoint spaced (s : list ascii) : bool :=
  match s with
  | [] => true
  | c :: r =>
      (if is_space c
       then Ascii.eqb c " "
            && match r with
               | [] => true
               | d :: _ => negb (is_space d)
               end
       else true)
      && spaced r
  end.

(** ** The download script: [pick_image]

    A card is a value that [json.loads] returned.  A dict is the list of
    its items in insertion order, the keys distinct. *)
#[warnings="-register-all"]
Inductive json : Type :=
| JNull
| JBool (b : bool)
| JInt (n : Z)
| JFloat (x : float)
| JStr (s : string)
| JList (l : list json)
| JDict (items : list (string * json)).

(** The exceptions that [pick_image] can meet. *)
Inductive py_error : Type :=
| AttributeError
| TypeError.

Inductive outcome (A : Type) : Type :=
| Returns (a : A)
| Raises (e : py_error).

Arguments Returns {A} a.
Arguments Raises {A} e.

(** The truth value of a Python object. *)
Definition truthy (v : json) : bool :=
  match v with
  | JNull => false
  | JBool b => b
  | JInt n => negb (n =? 0)%Z
  | JFloat x => negb (PrimFloat.eqb x 0)
  | JStr s => negb (s =? "")%string
  | JList l => match l with [] => false | _ :: _ => true end
  | JDict d => match d with [] => false | _ :: _ => true end
  end.

(** [v.get(k)]: a dict gives the value or [None]; nothing else that
    [json.loads] returns has a [get]. *)
Definition py_get (v : json) (k : string) : outcome json :=
  match v with
  | JDict d =>
      Returns (match dict_get d k with
               | Some x => x
               | None => JNull
               end)
  | _ => Raises AttributeError
  end.

(** [a or b], with [b] evaluated on demand. *)
Definition py_or (a : json) (b : outcome json) : outcome json :=
  if truthy a then Returns a else b.

(** [v or {}]. *)
Definition py_default (v : json) : json :=
  if truthy v then v else JDict [].

(** [u.get(version) or u.get("png") or u.get("large") or u.get("normal")]
    (lines 58-59 and 65-66). *)
Definition pick_uri (u : json) (version : string) : outcome json :=
  match u with
  | JDict d =>
      let get k := match dict_get d k with
                   | Some x => x
                   | None => JNull
                   end in
      py_or (get version)
        (py_or (get "png"%string)
           (py_or (get "large"%string) (Returns (get "normal"%string))))
  | _ => Raises AttributeError
  end.

(** What a [for] loop draws from a truthy object: the elements of a list,
    the keys of a dict, the characters of a string; a number or [True] is
    not iterable. *)
Definition py_iter (v : json) : outcome (list json) :=
  match v with
  | JList l => Returns l
  | JDict d => Returns (map (fun kv => JStr (fst kv)) d)
  | JStr s =>
      Returns (map (fun c => JStr (String c EmptyString))
                   (list_ascii_of_string s))
  | _ => Raises TypeError
  end.

(** [m[k] = v] on a dict in insertion order. *)
Definition py_set (m : list (string * json)) (k : string) (v : json)
  : list (string * json) :=
  if existsb (fun kv => (fst kv =? k)%string) m
  then map (fun kv => if (fst kv =? k)%string then (k, v) else kv) m
  else m ++ [(k, v)].

(** Lines 64-66: the address that a face offers. *)
Definition face_url (version : string) (face : json) : outcome json :=
  match py_get (py_default face) "image_uris" with
  | Raises e => Raises e
  | Returns g => pick_uri (py_default g) version
  end.

(** The loop of lines 63-68, from the face numbered [i] on. *)
Fixpoint faces_loop (version : string) (faces : list json) (i : Z)
    (m : list (string * json)) : outcome (list (string * json)) :=
  match faces with
  | [] => Returns m
  | face :: rest =>
      match face_url version face with
      | Raises e => Raises e
      | Returns url =>
          faces_loop version rest (i + 1)
            (if truthy url
             then py_set m (if (i =? 1)%Z then "front" else "back")%string url
             else m)
      end
  end.

(** [urllib.parse.quote(s)] on a string: the letters, the digits and
    [_ . - ~ /] stay, every other byte of the UTF-8 encoding becomes a
    percent sign and two upper-case hexadecimal digits.  A character
    from 128 to 255 has two bytes. *)
Definition is_unreserved (c : ascii) : bool :=
  let n := nat_of_ascii c in
  ((48 <=? n) && (n <=? 57) || (65 <=? n) && (n <=? 90)
   || (97 <=? n) && (n <=? 122)
   || existsb (Nat.eqb n) [95; 46; 45; 126; 47])%nat.

Definition hex_digit (n : nat) : ascii :=
  nth n (list_ascii_of_string "0123456789ABCDEF") "0"%char.

Definition percent (b : nat) : list ascii :=
  ["%"%char; hex_digit (b / 16); hex_digit (b mod 16)].

Definition utf8 (c : ascii) : list nat :=
  let n := nat_of_ascii c in
  if (n <? 128)%nat then [n] else [192 + n / 64; 128 + n mod 64]%nat.

Definition quote (s : string) : string :=
  text (flat_map (fun c => if is_unreserved c then [c]
                           else flat_map percent (utf8 c))
                 (list_ascii_of_string s)).

(** [pick_image(card, version)]; [None] is [JNull]. *)
Definition pick_image (card : json) (version : string) : outcome json :=
  match py_get card "image_uris" with
  | Raises e => Raises e
  | Returns u =>
      if truthy u then pick_uri u version
      else
        match py_get card "card_faces" with
        | Raises e => Raises e
        | Returns fs =>
            if truthy fs then
              match py_iter fs with
              | Raises e => Raises e
              | Returns faces =>
                  match faces_loop version faces 1 [] with
                  | Raises e => Raises e
                  | Returns m =>
                      Returns (match m with
                               | [] => JNull
                               | _ :: _ => JDict m
                               end)
                  end
              end
            else
              match py_get card "id" with
              | Raises e => Raises e
              | Returns cid =>
                  if truthy cid then
                    match cid with
                    | JStr s =>
                        Returns
                          (JStr ("https://api.scryfall.com/cards/"
                                 ++ quote s ++ "?format=image&version="
                                 ++ version)%string)
                    | _ => Raises TypeError
                    end
                  else Returns JNull
              end
        end
  end.

(** The last truthy value of a list, if any. *)
Definition last_truthy (urls : list json) : option json :=
  fold_left (fun acc u => if truthy u then Some u else acc) urls None.

(** The dict that the loop over the faces leaves for a first address and
    the addresses of the later faces. *)
Definition front_and_back (url1 : json) (urls : list json)
  : list (string * json) :=
  (if truthy url1 then [("front"%string, url1)] else [])
  ++ match last_truthy urls with
     | Some b => [("back"%string, b)]
     | None => []
     end.

(** ** Crop marks, as the specification words them *)

(** Two segments with the same end points, in either order. *)
Definition same_segment (e1 e2 : event) : Prop :=
  match e1, e2 with
  | Line a1 b1 c1 d1, Line a2 b2 c2 d2 =>
      (a1 == a2 /\ b1 == b2 /\ c1 == c2 /\ d1 == d2)
      \/ (a1 == c2 /\ b1 == d2 /\ c1 == a2 /\ d1 == b2)
  | _, _ => False
  end.

(** The marks of the cell with lower left corner [(x, y)]: at each of its
    four corners (bottom left, bottom right, top left, top right) a
    horizontal and a vertical segment of length [len] that start at the
    corner and point away from the cell. *)
Definition corner_marks (x y w h len : Q) : list event :=
  flat_map (fun '(cx, cy, sx, sy) =>
              [ Line cx cy (cx + sx * len) cy;
                Line cx cy cx (cy + sy * len) ])
           [ (x, y, -1, -1); (x + w, y, 1, -1);
             (x, y + h, -1, 1); (x + w, y + h, 1, 1) ].

(** The marks of all the cells of a grid, row by row from the top. *)
Definition grid_marks (rows cols : Z) (x0 y0 w h dx dy len : Q)
  : list event :=
  flat_map (fun r =>
    flat_map (fun c =>
      corner_marks (cell_x x0 dx c) (cell_y rows y0 dy r) w h len)
    (range cols))
  (range rows).

(** ** The outcome of an image, as the specification words it

    The image numbered [i] is drawn at the cell of its slot; when it
    fails to load, the warning is printed in its place and nothing is
    drawn for it. *)
Definition slot_outcome (draw_error : string -> option string)
    (rows cols : Z) (x0 y0 w h dx dy : Q) (i : Z) (img : string) : event :=
  let s := page_slot (rows * cols) cols i in
  match draw_error img with
  | None =>
      DrawImage img (cell_x x0 dx (col s)) (cell_y rows y0 dy (row s)) w h
  | Some e =>
      Print ("[WARN] Cannot load image: " ++ img ++ " (" ++ e ++ ")")%string
  end.

(** A listing whose names are ASCII texts. *)
Definition ascii_names (listing : list string) : bool :=
  forallb (fun name => forallb is_ascii (list_ascii_of_string name)) listing.

(** Which of the three conversions the unit group of a paper text
    selects: millimetres when the group is absent or spells [mm],
    centimetres for [cm], inches for [in], in any case. *)
Definition by_unit {A : Type} (u : option (list ascii))
    (in_mm in_cm in_inch : A) : A :=
  match u with
  | None => in_mm
  | Some l =>
      if (text (lower l) =? "cm")%string then in_cm
      else if (text (lower l) =? "in")%string then in_inch
      else in_mm
  end.

(** * Properties *)

(** ** Grid planner *)

Lemma mm_pos : 0 < mm.
Proof. reflexivity. Qed.

Lemma floordiv_ok (a b : Q) :
  ~ b == 0 -> floordiv a b = Ok (Qfloor (a / b)).
Proof.
  intros Hb. unfold floordiv.
  destruct (Qeq_bool b 0) eqn:E; [ | reflexivity ].
  apply Qeq_bool_iff in E. contradiction.
Qed.

Lemma floordiv_zero (a b : Q) :
  b == 0 -> floordiv a b = Raise ZeroDivisionError.
Proof.
  intros Hb. unfold floordiv.
  apply Qeq_bool_iff in Hb. now rewrite Hb.
Qed.

(** The cell pitch in points is zero only when it is zero in mm. *)
Lemma pitch_nonzero (card_mm gap_mm : Q) :
  ~ card_mm + gap_mm == 0 -> ~ card_mm * mm + gap_mm * mm == 0.
Proof.
  intros H E. apply H.
  setoid_replace (card_mm + gap_mm)
    with ((card_mm * mm + gap_mm * mm) / mm) by (field; discriminate).
  rewrite E. reflexivity.
Qed.

(** The number of cells of size [c] that the strip arithmetic puts on a
    length [u] with gap [g]. *)
Lemma strip_fits (u c g : Q) :
  ~ c + g == 0 -> c <= u ->
  let n := Z.max 1 (Qfloor ((u + g) / (c + g))) in
  inject_Z n * c + (inject_Z n - 1) * g <= u.
Proof.
  intros Hne Hcu n.
  destruct (Qlt_le_dec 0 (c + g)) as [Hpos | Hneg].
  - (* positive pitch: n is the floor itself *)
    assert (H1 : 1 <= (u + g) / (c + g)).
    { apply Qle_shift_div_l; [ exact Hpos | lra ]. }
    assert (Hn : n = Qfloor ((u + g) / (c + g))).
    { unfold n. apply Z.max_r.
      change 1%Z with (Qfloor 1). now apply Qfloor_resp_le. }
    assert (Hle : inject_Z n * (c + g) <= u + g).
    { rewrite Hn.
      apply Qle_trans with ((u + g) / (c + g) * (c + g)).
      - apply Qmult_le_compat_r; [ apply Qfloor_le | lra ].
      - rewrite Qmult_comm, Qmult_div_r; [ lra | exact Hne ]. }
    lra.
  - (* negative pitch: the quotient is at most 1 and n is clamped to 1 *)
    assert (Hlt : c + g < 0).
    { destruct (Qlt_le_dec (c + g) 0) as [H | H]; [ exact H | ].
      exfalso. apply Hne. lra. }
    assert (H1 : (u + g) / (c + g) <= 1).
    { setoid_replace ((u + g) / (c + g)) with ((- (u + g)) / (- (c + g)))
        by (field; exact Hne).
      apply Qle_shift_div_r; lra. }
    assert (Hn : n = 1%Z).
    { unfold n. apply Z.max_l.
      change 1%Z with (Qfloor 1). now apply Qfloor_resp_le. }
    rewrite Hn. change (inject_Z 1) with 1. lra.
Qed.

(** [attempt] returns whenever the cell pitch is not zero, with at least
    one row and one column, and in each direction in which the usable
    length holds a card the block fits it. *)
Lemma attempt_spec (margin_mm gap_mm pw ph : Q) :
  ~ CARD_W_MM + gap_mm == 0 ->
  ~ CARD_H_MM + gap_mm == 0 ->
  exists rows cols x0 y0,
    attempt margin_mm gap_mm pw ph = Ok (rows, cols, x0, y0)
    /\ (1 <= rows)%Z /\ (1 <= cols)%Z
    /\ (CARD_W_MM * mm <= pw - 2 * margin_mm * mm ->
        inject_Z cols * (CARD_W_MM * mm) + (inject_Z cols - 1) * (gap_mm * mm)
        <= pw - 2 * margin_mm * mm)
    /\ (CARD_H_MM * mm <= ph - 2 * margin_mm * mm ->
        inject_Z rows * (CARD_H_MM * mm) + (inject_Z rows - 1) * (gap_mm * mm)
        <= ph - 2 * margin_mm * mm).
Proof.
  intros Hw Hh.
  apply pitch_nonzero in Hw. apply pitch_nonzero in Hh.
  unfold attempt.
  rewrite (floordiv_ok _ _ Hw), (floordiv_ok _ _ Hh). cbn [bind].
  do 4 eexists. split; [ reflexivity | ].
  split; [ apply Z.le_max_l | ].
  split; [ apply Z.le_max_l | ].
  split; intros Hu.
  - apply (strip_fits _ _ _ Hw Hu).
  - apply (strip_fits _ _ _ Hh Hu).
Qed.

Lemma attempt_total (margin_mm gap_mm pw ph : Q) :
  ~ CARD_W_MM + gap_mm == 0 -> ~ CARD_H_MM + gap_mm == 0 ->
  exists g, attempt margin_mm gap_mm pw ph = Ok g.
Proof.
  intros Hw Hh.
  destruct (attempt_spec margin_mm gap_mm pw ph Hw Hh)
    as (rows & cols & x0 & y0 & E & _).
  eexists. exact E.
Qed.

(** At a zero pitch [attempt] raises. *)
Lemma attempt_zero_pitch (margin_mm gap_mm pw ph : Q) :
  CARD_W_MM + gap_mm == 0 \/ CARD_H_MM + gap_mm == 0 ->
  attempt margin_mm gap_mm pw ph = Raise ZeroDivisionError.
Proof.
  intros H. unfold attempt.
  destruct (Qeq_dec (CARD_W_MM * mm + gap_mm * mm) 0) as [Zw | Nw].
  - now rewrite (floordiv_zero _ _ Zw).
  - rewrite (floordiv_ok _ _ Nw). cbn [bind].
    destruct H as [H | H].
    + exfalso. apply Nw.
      setoid_replace (CARD_W_MM * mm + gap_mm * mm)
        with ((CARD_W_MM + gap_mm) * mm) by ring.
      rewrite H. ring.
    + rewrite floordiv_zero; [ reflexivity | ].
      setoid_replace (CARD_H_MM * mm + gap_mm * mm)
        with ((CARD_H_MM + gap_mm) * mm) by ring.
      rewrite H. ring.
Qed.


Lemma attempt_ge1 (margin_mm gap_mm pw ph : Q) (rows cols : Z) (x0 y0 : Q) :
  attempt margin_mm gap_mm pw ph = Ok (rows, cols, x0, y0) ->
  (1 <= rows)%Z /\ (1 <= cols)%Z.
Proof.
  unfold attempt, floordiv.
  destruct (Qeq_bool (CARD_W_MM * mm + gap_mm * mm) 0); [ discriminate | ].
  destruct (Qeq_bool (CARD_H_MM * mm + gap_mm * mm) 0); [ discriminate | ].
  cbn [bind]. intros E. injection E as <- <- _ _.
  split; apply Z.le_max_l.
Qed.

(** Whatever the orientation, the plan [compute_grid] returns is the
    [attempt] on the page as the plan orients it. *)
Lemma compute_grid_attempt (pw ph margin_mm gap_mm : Q) (o : orientation)
    (g : grid) (rotated : bool) :
  compute_grid pw ph margin_mm gap_mm o = Ok (g, rotated) ->
  attempt margin_mm gap_mm (if rotated then ph else pw)
          (if rotated then pw else ph) = Ok g.
Proof.
  destruct o; cbn [compute_grid].
  - destruct (attempt margin_mm gap_mm pw ph)
      as [[[[r1 c1] x1] y1] | e1] eqn:E1; [ | discriminate ].
    destruct (attempt margin_mm gap_mm ph pw)
      as [[[[r2 c2] x2] y2] | e2] eqn:E2; [ | discriminate ].
    cbn [bind]. destruct (r2 * c2 >? r1 * c1)%Z; intros E;
      injection E as <- <-; assumption.
  - destruct (attempt margin_mm gap_mm pw ph) as [g1 | e1] eqn:E1;
      cbn [bind]; [ | discriminate ].
    intros E; injection E as <- <-. assumption.
  - destruct (attempt margin_mm gap_mm ph pw) as [g1 | e1] eqn:E1;
      cbn [bind]; [ | discriminate ].
    intros E; injection E as <- <-. assumption.
Qed.

Lemma compute_grid_ge1 (pw ph margin_mm gap_mm : Q) (o : orientation)
    (rows cols : Z) (x0 y0 : Q) (rotated : bool) :
  compute_grid pw ph margin_mm gap_mm o = Ok ((rows, cols, x0, y0), rotated) ->
  (1 <= rows)%Z /\ (1 <= cols)%Z.
Proof.
  intros E. apply compute_grid_attempt in E. now apply attempt_ge1 in E.
Qed.

Lemma compute_grid_total (pw ph margin_mm gap_mm : Q) (o : orientation) :
  ~ CARD_W_MM + gap_mm == 0 -> ~ CARD_H_MM + gap_mm == 0 ->
  exists g rotated, compute_grid pw ph margin_mm gap_mm o = Ok (g, rotated).
Proof.
  intros Hw Hh.
  destruct (attempt_total margin_mm gap_mm pw ph Hw Hh)
    as [[[[r1 c1] x1] y1] E1].
  destruct (attempt_total margin_mm gap_mm ph pw Hw Hh)
    as [[[[r2 c2] x2] y2] E2].
  destruct o; cbn [compute_grid]; rewrite ?E1, ?E2; cbn [bind].
  - destruct (r2 * c2 >? r1 * c1)%Z; do 2 eexists; reflexivity.
  - do 2 eexists; reflexivity.
  - do 2 eexists; reflexivity.
Qed.


(** The original wording of C1, for the plan of the planner and the page
    as given, fails: on a page of 80 x 150 mm with a margin of 5 mm and a
    gap of 3 mm the usable area, 70 x 140 mm, holds a card; [auto] returns
    the landscape plan of one row and two columns, whose single row is
    the clamped one.  The block, 129 x 88 mm, fits neither the usable area
    of the page nor, in height, that of the turned page (70 mm). *)
Theorem auto_plan_exceeds_usable_area :
  CARD_W_MM * mm <= 80 * mm - 2 * 5 * mm
  /\ CARD_H_MM * mm <= 150 * mm - 2 * 5 * mm
  /\ exists x0 y0,
       compute_grid (80 * mm) (150 * mm) 5 3 Auto
       = Ok ((1, 2, x0, y0)%Z, true)
       /\ ~ inject_Z 2 * (CARD_W_MM * mm) + (inject_Z 2 - 1) * (3 * mm)
            <= 80 * mm - 2 * 5 * mm
       /\ ~ inject_Z 1 * (CARD_H_MM * mm) + (inject_Z 1 - 1) * (3 * mm)
            <= 80 * mm - 2 * 5 * mm.
Proof.
  split; [ vm_compute; discriminate | ].
  split; [ vm_compute; discriminate | ].
  do 2 eexists. split; [ vm_compute; reflexivity | ].
  split; vm_compute; intros H; now apply H.
Qed.

(** C1, amended.  For every page, margin, gap (with a non-zero cell pitch
    in both directions, which every gap >= 0 has) and orientation the
    planner returns a plan with [rows >= 1] and [cols >= 1].  The block of
    the plan fits, in each direction, the usable length of the frame the
    plan is laid out in, the page as given for a portrait plan and the
    page turned for a landscape plan, whenever that usable length holds
    one card: [cols*cardW + (cols-1)*gap <= usableW] and
    [rows*cardH + (rows-1)*gap <= usableH] in that frame.  A forced
    portrait plan is never rotated, so for it the frame is the page. *)
Theorem planned_block_fits_its_frame
    (pw ph margin_mm gap_mm : Q) (o : orientation) :
  ~ CARD_W_MM + gap_mm == 0 ->
  ~ CARD_H_MM + gap_mm == 0 ->
  exists rows cols x0 y0 rotated,
    compute_grid pw ph margin_mm gap_mm o = Ok ((rows, cols, x0, y0), rotated)
    /\ (1 <= rows)%Z /\ (1 <= cols)%Z
    /\ (let fw := if rotated then ph else pw in
        let fh := if rotated then pw else ph in
        (CARD_W_MM * mm <= fw - 2 * margin_mm * mm ->
         inject_Z cols * (CARD_W_MM * mm)
         + (inject_Z cols - 1) * (gap_mm * mm) <= fw - 2 * margin_mm * mm)
        /\ (CARD_H_MM * mm <= fh - 2 * margin_mm * mm ->
            inject_Z rows * (CARD_H_MM * mm)
            + (inject_Z rows - 1) * (gap_mm * mm) <= fh - 2 * margin_mm * mm))
    /\ (o = Portrait -> rotated = false)
    /\ (o = Landscape -> rotated = true).
Proof.
  intros Hw Hh.
  destruct (compute_grid_total pw ph margin_mm gap_mm o Hw Hh)
    as ([[[rows cols] x0] y0] & rotated & E).
  exists rows, cols, x0, y0, rotated.
  split; [ exact E | ].
  pose proof (compute_grid_attempt _ _ _ _ _ _ _ E) as Ea.
  destruct (attempt_spec margin_mm gap_mm (if rotated then ph else pw)
              (if rotated then pw else ph) Hw Hh)
    as (rows' & cols' & x0' & y0' & E' & Hr & Hc & Fw & Fh).
  rewrite Ea in E'. injection E' as <- <- _ _.
  split; [ exact Hr | ]. split; [ exact Hc | ].
  split; [ cbv zeta; split; assumption | ].
  split; intros ->; cbn [compute_grid] in E.
  - destruct (attempt margin_mm gap_mm pw ph); cbn [bind] in E;
      [ now injection E as _ <- | discriminate E ].
  - destruct (attempt margin_mm gap_mm ph pw); cbn [bind] in E;
      [ now injection E as _ <- | discriminate E ].
Qed.

Lemma planned_block_fits_its_frame_witness :
  exists rows cols x0 y0 rotated,
    compute_grid (80 * mm) (150 * mm) 5 3 Auto
    = Ok ((rows, cols, x0, y0), rotated)
    /\ (1 <= rows)%Z /\ (1 <= cols)%Z
    /\ (let fw := if rotated then 150 * mm else 80 * mm in
        let fh := if rotated then 80 * mm else 150 * mm in
        (CARD_W_MM * mm <= fw - 2 * 5 * mm ->
         inject_Z cols * (CARD_W_MM * mm)
         + (inject_Z cols - 1) * (3 * mm) <= fw - 2 * 5 * mm)
        /\ (CARD_H_MM * mm <= fh - 2 * 5 * mm ->
            inject_Z rows * (CARD_H_MM * mm)
            + (inject_Z rows - 1) * (3 * mm) <= fh - 2 * 5 * mm))
    /\ (Auto = Portrait -> rotated = false)
    /\ (Auto = Landscape -> rotated = true).
Proof.
  apply (planned_block_fits_its_frame (80 * mm) (150 * mm) 5 3 Auto);
    vm_compute; discriminate.
Defined.

(** C3.  With orientation Auto both candidates are evaluated; the planner
    returns the landscape plan (rotated) exactly when its [rows*cols] is
    strictly greater than the portrait one, and the portrait plan
    otherwise, in particular when the two products are equal. *)
Theorem auto_prefers_portrait_on_ties (pw ph margin_mm gap_mm : Q)
    (r1 c1 r2 c2 : Z) (x1 y1 x2 y2 : Q) :
  attempt margin_mm gap_mm pw ph = Ok (r1, c1, x1, y1) ->
  attempt margin_mm gap_mm ph pw = Ok (r2, c2, x2, y2) ->
  exists g rotated,
    compute_grid pw ph margin_mm gap_mm Auto = Ok (g, rotated)
    /\ (rotated = true <-> (r1 * c1 < r2 * c2)%Z)
    /\ (rotated = true -> g = (r2, c2, x2, y2))
    /\ (rotated = false -> g = (r1, c1, x1, y1))
    /\ ((r1 * c1 = r2 * c2)%Z -> rotated = false).
Proof.
  intros E1 E2. cbn [compute_grid]. rewrite E1, E2. cbn [bind].
  destruct (r2 * c2 >? r1 * c1)%Z eqn:Hgt.
  - exists (r2, c2, x2, y2), true.
    apply Z.gtb_lt in Hgt.
    split; [ reflexivity | ].
    split; [ split; [ intros _; exact Hgt | reflexivity ] | ].
    split; [ reflexivity | ].
    split; [ discriminate | intros Heq; lia ].
  - exists (r1, c1, x1, y1), false.
    assert (Hle : (r2 * c2 <= r1 * c1)%Z).
    { destruct (Z.gtb_spec (r2 * c2) (r1 * c1)); [ discriminate | lia ]. }
    split; [ reflexivity | ].
    split; [ split; [ discriminate | intros Hlt; lia ] | ].
    split; [ discriminate | ].
    split; reflexivity.
Qed.

Lemma auto_prefers_portrait_on_ties_witness :
  exists g rotated,
    compute_grid (210 * mm) (297 * mm) 5 3 Auto = Ok (g, rotated)
    /\ (rotated = true <-> (3 * 3 < 2 * 4)%Z)
    /\ (rotated = true ->
        g = (2%Z, 4%Z, (297 * mm - (inject_Z 4 * CARD_W_MM * mm
                                    + (inject_Z 4 - 1) * 3 * mm)) / 2,
             (210 * mm - (inject_Z 2 * CARD_H_MM * mm
                          + (inject_Z 2 - 1) * 3 * mm)) / 2))
    /\ (rotated = false ->
        g = (3%Z, 3%Z, (210 * mm - (inject_Z 3 * CARD_W_MM * mm
                                    + (inject_Z 3 - 1) * 3 * mm)) / 2,
             (297 * mm - (inject_Z 3 * CARD_H_MM * mm
                          + (inject_Z 3 - 1) * 3 * mm)) / 2))
    /\ ((3 * 3 = 2 * 4)%Z -> rotated = false).
Proof.
  apply (auto_prefers_portrait_on_ties (210 * mm) (297 * mm) 5 3);
    reflexivity.
Defined.

(** C4, as the specification has it, fails: on A4 with margin 5 mm, gap 3 mm
    and orientation auto no grid of 12 cards per page comes out, whichever
    of the two numbers of "3x4" counts the rows. *)
Lemma a4_scenario_not_12_per_page :
  ~ exists rows cols,
      snd (make_pdf all_load ten_images "cards_print.pdf" A4 5 3 false Auto
             false) = Ok (rows, cols, 12%Z).
Proof.
  intros (rows & cols & E). vm_compute in E. discriminate E.
Qed.

(** C4, amended.  With 10 images, A4 paper, margin 5 mm, gap 3 mm and
    orientation auto the planner chooses the portrait plan of 3 rows and 3
    columns (the landscape page holds 2 x 4 = 8), [make_pdf] returns 9 cards
    per page, the document has two pages (one [showPage] between them) and
    [main] ends by printing
    "Done: 10 images → cards_print.pdf | 3*3 per page (9/page), 2 pages.". *)
Theorem a4_scenario_3x3_two_pages :
  (exists x0 y0,
     compute_grid (fst A4) (snd A4) 5 3 Auto = Ok ((3, 3, x0, y0)%Z, false))
  /\ (exists x0 y0,
        attempt 5 3 (snd A4) (fst A4) = Ok (2, 4, x0, y0)%Z)
  /\ snd (make_pdf all_load ten_images "cards_print.pdf" A4 5 3 false Auto
            false) = Ok (3, 3, 9)%Z
  /\ List.length (pages (fst (make_pdf all_load ten_images "cards_print.pdf"
                                A4 5 3 false Auto false))) = 2%nat
  /\ page_count 10 9 = 2%Z
  /\ snd (main all_load ten_images (default_args "a4")) = Ok tt
  /\ last (fst (main all_load ten_images (default_args "a4"))) Save
     = Print
         "Done: 10 images → cards_print.pdf | 3*3 per page (9/page), 2 pages.".
Proof.
  split; [ do 2 eexists; vm_compute; reflexivity | ].
  split; [ do 2 eexists; vm_compute; reflexivity | ].
  repeat split; vm_compute; reflexivity.
Qed.

(** ** Paper resolver *)

Lemma Qabs_sub_eq (a b : Q) : a == b -> Qabs (a - b) <= 0.
Proof.
  intros E. assert (H : a - b == 0) by (rewrite E; ring).
  rewrite H. apply Qle_refl.
Qed.

(** C6.  The three conversion paths agree on equal physical sizes.  In
    exact arithmetic a size in cm converts like ten times as many mm and a
    size in inches like 25.4 times as many mm; "210x297mm" and
    "21x29.7cm" parse to the same PaperSize, and the inch spec of the
    same sheet, written with fifteen digits, to a PaperSize within 10^-11
    points of it.  With the binary64 floats of the script the mm and the
    cm string give the same floats, and the inch string floats within
    2^-36 points of them. *)
Theorem unit_paths_agree :
  (forall w h : Q,
     paper_close 0 (unit_to_points w h (Some ["c"; "m"]%char))
                   (unit_to_points (10 * w) (10 * h) (Some ["m"; "m"]%char)))
  /\ (forall w h : Q,
        paper_close 0 (unit_to_points w h (Some ["i"; "n"]%char))
                      (unit_to_points (25.4 * w) (25.4 * h) None))
  /\ paper_close 0 (parse_custom_paper "210x297mm")
                   (parse_custom_paper "21x29.7cm")
  /\ paper_close (1 # 100000000000)
       (parse_custom_paper "210x297mm")
       (parse_custom_paper "8.26771653543307x11.6929133858268in")
  /\ paper_close_b64 0 (parse_custom_paper_b64 "210x297mm")
                       (parse_custom_paper_b64 "21x29.7cm") = true
  /\ paper_close_b64 0x1p-36
       (parse_custom_paper_b64 "210x297mm")
       (parse_custom_paper_b64 "8.26771653543307x11.6929133858268in") = true.
Proof.
  split; [ | split; [ | split; [ | split; [ | split ] ] ] ].
  - intros w h. cbn. split; apply Qabs_sub_eq; ring.
  - intros w h. cbn. split; apply Qabs_sub_eq; ring.
  - vm_compute. split; discriminate.
  - vm_compute. split; discriminate.
  - vm_compute. reflexivity.
  - vm_compute. reflexivity.
Qed.

Lemma span_spec (p : ascii -> bool) (s a b : list ascii) :
  span p s = (a, b) -> s = a ++ b /\ forallb p a = true.
Proof.
  revert a b. induction s as [ | c s IH ]; intros a b E; cbn in E.
  - injection E as <- <-. now split.
  - destruct (p c) eqn:Hc.
    + destruct (span p s) as [a' b'].
      injection E as <- <-.
      destruct (IH a' b' eq_refl) as [-> Ha].
      split; [ reflexivity | cbn; now rewrite Hc, Ha ].
    + injection E as <- <-. now split.
Qed.



(** What [scan_number] accepts: digits, or digits, a point and digits. *)
Lemma scan_number_spec (s d f r : list ascii) :
  scan_number s = Some (d, f, r) ->
  forallb is_digit d = true /\ d <> []
  /\ forallb is_digit f = true
  /\ ((f = [] /\ s = d ++ r)
      \/ (f <> [] /\ s = d ++ "."%char :: f ++ r)).
Proof.
  unfold scan_number.
  destruct (span is_digit s) as [d0 r0] eqn:E0.
  apply span_spec in E0 as [-> Hd0].
  destruct d0 as [ | c0 d0 ]; [ discriminate | ].
  destruct r0 as [ | c r0 ].
  - intros E; injection E as <- <- <-.
    repeat split; try assumption; try discriminate. now left.
  - destruct (Ascii.eqb c "."%char) eqn:Hc.
    + apply Ascii.eqb_eq in Hc as ->.
      destruct (span is_digit r0) as [f0 r1] eqn:E1.
      apply span_spec in E1 as [-> Hf0].
      destruct f0 as [ | cf f0 ].
      * intros E; injection E as <- <- <-.
        repeat split; try assumption; try discriminate. now left.
      * intros E; injection E as <- <- <-.
        repeat split; try assumption; try discriminate.
        right. split; [ discriminate | reflexivity ].
    + intros E; injection E as <- <- <-.
      repeat split; try assumption; try discriminate. now left.
Qed.













(** ** The pattern and the scanner *)

Lemma nullable_complete (r : re) : matches r [] -> nullable r = true.
Proof.
  intros H. remember [] as s eqn:Es.
  induction H; cbn; try reflexivity; try discriminate.
  - apply app_eq_nil in Es as [-> ->].
    now rewrite IHmatches1, IHmatches2.
  - now rewrite IHmatches.
  - rewrite IHmatches by assumption. apply orb_true_r.
Qed.

Lemma deriv_complete (r : re) (s : list ascii) :
  matches r s ->
  forall c s', s = c :: s' -> matches (deriv c r) s'.
Proof.
  induction 1 as [ | p c0 Hp | r1 r2 s1 s2 H1 IH1 H2 IH2 | r1 r2 s H IH
                 | r1 r2 s H IH | r | r s1 s2 H1 IH1 H2 IH2 ];
    intros c s' E; cbn [deriv].
  - discriminate.
  - injection E as -> <-. rewrite Hp. constructor.
  - destruct s1 as [ | a s1 ]; cbn in E.
    + rewrite (nullable_complete _ H1). apply MAltR. now apply IH2.
    + injection E as -> <-.
      destruct (nullable r1).
      * apply MAltL. constructor; [ now apply IH1 | assumption ].
      * constructor; [ now apply IH1 | assumption ].
  - apply MAltL. now apply IH.
  - apply MAltR. now apply IH.
  - discriminate.
  - destruct s1 as [ | a s1 ]; cbn in E.
    + now apply IH2.
    + injection E as -> <-.
      constructor; [ now apply IH1 | assumption ].
Qed.

(** The derivative matcher accepts every word of the language. *)
Lemma re_match_complete (s : list ascii) :
  forall r, matches r s -> re_match r s = true.
Proof.
  induction s as [ | c s IH ]; intros r H; cbn.
  - now apply nullable_complete.
  - apply IH. now apply (deriv_complete r (c :: s)).
Qed.

Lemma star_class (p : ascii -> bool) (a : list ascii) :
  forallb p a = true -> matches (Star (Chr p)) a.
Proof.
  induction a as [ | c a IH ]; cbn; intros H.
  - constructor.
  - apply andb_true_iff in H as [Hc Ha].
    apply (MStarApp (Chr p) [c] a); [ now constructor | now apply IH ].
Qed.

Lemma plus_class (p : ascii -> bool) (a : list ascii) :
  forallb p a = true -> a <> [] -> matches (Plus (Chr p)) a.
Proof.
  destruct a as [ | c a ]; [ intros _ H; now contradiction H | ].
  cbn. intros H _. apply andb_true_iff in H as [Hc Ha].
  apply (MCat (Chr p) (Star (Chr p)) [c] a);
    [ now constructor | now apply star_class ].
Qed.

Lemma skip_spaces_matches (s : list ascii) :
  exists ws, s = ws ++ skip_spaces s /\ matches (Star space_re) ws.
Proof.
  unfold skip_spaces. destruct (span is_space s) as [ws r] eqn:E.
  apply span_spec in E as [-> Hws].
  exists ws. split; [ reflexivity | now apply star_class ].
Qed.

Lemma scan_number_matches (s d f r : list ascii) :
  scan_number s = Some (d, f, r) ->
  exists n, s = n ++ r /\ matches number_re n.
Proof.
  intros E.
  apply scan_number_spec in E as (Hd & Hdne & Hf & [[-> ->] | [Hfne ->]]).
  - exists d. split; [ reflexivity | ].
    rewrite <- (app_nil_r d) at 1.
    apply MCat; [ now apply plus_class | apply MAltR; constructor ].
  - exists (d ++ "."%char :: f). split.
    + now rewrite <- app_assoc.
    + apply MCat; [ now apply plus_class | ].
      apply MAltL.
      apply (MCat _ _ ["."%char] f);
        [ now constructor | now apply plus_class ].
Qed.

Lemma scan_unit_matches (s r : list ascii) (u : option (list ascii)) :
  scan_unit s = (u, r) ->
  exists t, s = t ++ r /\ matches (Opt unit_re) t.
Proof.
  assert (Hnone : forall s0, (None, s0) = (u, r) ->
                  exists t, s0 = t ++ r /\ matches (Opt unit_re) t).
  { intros s0 E. injection E as _ <-. exists [].
    split; [ reflexivity | apply MAltR; constructor ]. }
  unfold scan_unit.
  destruct s as [ | a [ | b s ] ]; try apply Hnone.
  destruct (is_unit a b) eqn:Hu; [ | apply Hnone ].
  intros E. injection E as _ <-. exists [a; b].
  split; [ reflexivity | ]. apply MAltL.
  unfold is_unit in Hu. cbv zeta in Hu.
  assert (two : forall x y,
             Ascii.eqb (lower_char a) x = true ->
             Ascii.eqb (lower_char b) y = true ->
             matches (Cat (ci x) (ci y)) [a; b]).
  { intros x y Hx Hy.
    apply (MCat (ci x) (ci y) [a] [b]); now constructor. }
  apply orb_true_iff in Hu as [Hu | Hu];
    [ apply orb_true_iff in Hu as [Hu | Hu] | ];
    apply andb_true_iff in Hu as [Hx Hy].
  - apply MAltL. now apply two.
  - apply MAltR, MAltL. now apply two.
  - apply MAltR, MAltR. now apply two.
Qed.

(** Whatever the scanner accepts matches the pattern. *)
Lemma match_paper_matches (s : list ascii)
    (x : number_text * number_text * option (list ascii)) :
  match_paper s = Some x -> matches paper_re s.
Proof.
  unfold match_paper.
  destruct (skip_spaces_matches s) as (ws1 & Es & Hws1).
  destruct (scan_number (skip_spaces s)) as [[[d1 f1] s1] | ] eqn:E1;
    [ | discriminate ].
  apply scan_number_matches in E1 as (n1 & En1 & Hn1).
  destruct (skip_spaces_matches s1) as (ws2 & Es1 & Hws2).
  destruct (skip_spaces s1) as [ | c s2 ]; [ discriminate | ].
  destruct (Ascii.eqb (lower_char c) "x") eqn:Hx; [ | discriminate ].
  destruct (skip_spaces_matches s2) as (ws3 & Es2 & Hws3).
  destruct (scan_number (skip_spaces s2)) as [[[d2 f2] s3] | ] eqn:E2;
    [ | discriminate ].
  apply scan_number_matches in E2 as (n2 & En2 & Hn2).
  destruct (scan_unit s3) as [unit s4] eqn:E3.
  apply scan_unit_matches in E3 as (t & Es3 & Ht).
  destruct (skip_spaces_matches s4) as (ws4 & Es4 & Hws4).
  destruct (skip_spaces s4); [ | discriminate ].
  intros _.
  rewrite Es, En1, Es1, Es2, En2, Es3, Es4.
  unfold paper_re.
  apply MCat; [ assumption | ].
  apply MCat; [ assumption | ].
  apply MCat; [ assumption | ].
  apply (MCat (ci "x") _ [c]); [ now constructor | ].
  apply MCat; [ assumption | ].
  apply MCat; [ assumption | ].
  apply MCat; [ assumption | ].
  rewrite app_nil_r. assumption.
Qed.

(** A string that does not match the pattern makes [parse_custom_paper]
    raise. *)
Lemma parse_custom_paper_rejects (spec : string) :
  matches_paper_pattern spec = false ->
  parse_custom_paper spec
  = Raise (ValueError "Invalid paper format. Example: 210x297mm or 8.5x11in").
Proof.
  unfold matches_paper_pattern, parse_custom_paper. intros H.
  destruct (match_paper (list_ascii_of_string spec)) as [x | ] eqn:E;
    [ | reflexivity ].
  apply match_paper_matches, re_match_complete in E. congruence.
Qed.

(** C7.  A paper string of ASCII characters that is not a known paper name
    and does not match the pattern makes the run fail with the
    [ValueError] of the parser, raised to the caller of [main], before the
    canvas is created: not a single call is made on a document, no page is
    opened, nothing is printed.  (Outside ASCII the classes [\d] and [\s]
    of Python are larger than those of the pattern modelled here.) *)
Theorem invalid_paper_aborts_before_canvas
    (draw_error : string -> option string) (imgs : list string) (a : args) :
  forallb is_ascii (list_ascii_of_string (paper a)) = true ->
  dict_get PAPERS (text (lower (strip (list_ascii_of_string (paper a)))))
  = None ->
  matches_paper_pattern (paper a) = false ->
  main draw_error imgs a
  = ([], Raise (ValueError
                  "Invalid paper format. Example: 210x297mm or 8.5x11in")).
Proof.
  intros _ Hname Hpat. unfold main, resolve_paper.
  rewrite Hname, (parse_custom_paper_rejects _ Hpat). reflexivity.
Qed.

Lemma invalid_paper_aborts_before_canvas_witness :
  main all_load ten_images (default_args "210x")
  = ([], Raise (ValueError
                  "Invalid paper format. Example: 210x297mm or 8.5x11in")).
Proof.
  apply (invalid_paper_aborts_before_canvas all_load ten_images
           (default_args "210x")); vm_compute; reflexivity.
Defined.

(** *** The scanner accepts what the pattern matches *)

Lemma nullable_sound (r : re) : nullable r = true -> matches r [].
Proof.
  induction r as [ | | p | r1 IH1 r2 IH2 | r1 IH1 r2 IH2 | r IH ];
    cbn [nullable]; intros H; try discriminate H.
  - constructor.
  - apply andb_true_iff in H as [H1 H2].
    apply (MCat r1 r2 [] []); [ now apply IH1 | now apply IH2 ].
  - apply orb_true_iff in H as [H | H];
      [ apply MAltL; now apply IH1 | apply MAltR; now apply IH2 ].
  - constructor.
Qed.

Lemma deriv_sound (c : ascii) (r : re) :
  forall s, matches (deriv c r) s -> matches r (c :: s).
Proof.
  induction r as [ | | p | r1 IH1 r2 IH2 | r1 IH1 r2 IH2 | r IH ];
    intros s H; cbn [deriv] in H.
  - inversion H.
  - inversion H.
  - destruct (p c) eqn:Hp; inversion H; subst. now constructor.
  - destruct (nullable r1) eqn:Hn.
    + inversion H as [ | | | ? ? ? HL | ? ? ? HR | | ]; subst.
      * inversion HL as [ | | ? ? s1 s2 H1 H2 | | | | ]; subst.
        apply (MCat r1 r2 (c :: s1) s2); [ now apply IH1 | assumption ].
      * apply (MCat r1 r2 [] (c :: s));
          [ now apply nullable_sound | now apply IH2 ].
    + inversion H as [ | | ? ? s1 s2 H1 H2 | | | | ]; subst.
      apply (MCat r1 r2 (c :: s1) s2); [ now apply IH1 | assumption ].
  - inversion H; subst; [ apply MAltL; now apply IH1
                        | apply MAltR; now apply IH2 ].
  - inversion H as [ | | ? ? s1 s2 H1 H2 | | | | ]; subst.
    apply (MStarApp r (c :: s1) s2); [ now apply IH | assumption ].
Qed.

(** The derivative matcher accepts only words of the language. *)
Lemma re_match_sound (s : list ascii) :
  forall r, re_match r s = true -> matches r s.
Proof.
  induction s as [ | c s IH ]; intros r H; cbn [re_match] in H.
  - now apply nullable_sound.
  - apply deriv_sound. now apply IH.
Qed.

Lemma star_class_inv (p : ascii -> bool) (a : list ascii) :
  matches (Star (Chr p)) a -> forallb p a = true.
Proof.
  intros H. remember (Star (Chr p)) as r eqn:Er.
  induction H as [ | | | | | | r0 s1 s2 H1 _ H2 IH2 ]; try discriminate Er.
  - reflexivity.
  - injection Er as ->.
    inversion H1 as [ | ? c Hc | | | | | ]; subst.
    cbn. rewrite Hc. now apply IH2.
Qed.

Lemma plus_class_inv (p : ascii -> bool) (a : list ascii) :
  matches (Plus (Chr p)) a -> forallb p a = true /\ a <> [].
Proof.
  intros H. inversion H as [ | | ? ? s1 s2 H1 H2 | | | | ]; subst.
  inversion H1 as [ | ? c Hc | | | | | ]; subst.
  apply star_class_inv in H2. cbn. rewrite Hc, H2.
  split; [ reflexivity | discriminate ].
Qed.

Lemma number_re_inv (n : list ascii) :
  matches number_re n ->
  exists d f,
    forallb is_digit d = true /\ d <> [] /\ forallb is_digit f = true
    /\ ((f = [] /\ n = d) \/ (f <> [] /\ n = d ++ "."%char :: f)).
Proof.
  intros H. inversion H as [ | | ? ? d t Hd Ht | | | | ]; subst.
  apply plus_class_inv in Hd as [Hd Hdne].
  inversion Ht as [ | | | ? ? ? HL | ? ? ? HR | | ]; subst.
  - inversion HL as [ | | ? ? s1 f Hp Hf | | | | ]; subst.
    inversion Hp as [ | ? c Hc | | | | | ]; subst.
    apply Ascii.eqb_eq in Hc. subst c.
    apply plus_class_inv in Hf as [Hf Hfne].
    exists d, f. repeat split; try assumption. now right.
  - inversion HR; subst. exists d, [].
    repeat split; try assumption. left. now rewrite app_nil_r.
Qed.

Lemma unit_re_inv (t : list ascii) :
  matches (Opt unit_re) t ->
  t = [] \/ exists a b, t = [a; b] /\ is_unit a b = true.
Proof.
  assert (two : forall x y s,
             matches (Cat (ci x) (ci y)) s ->
             exists a b, s = [a; b]
                         /\ Ascii.eqb (lower_char a) x = true
                         /\ Ascii.eqb (lower_char b) y = true).
  { intros x y s H. inversion H as [ | | ? ? s1 s2 H1 H2 | | | | ]; subst.
    inversion H1 as [ | ? a Ha | | | | | ]; subst.
    inversion H2 as [ | ? b Hb | | | | | ]; subst.
    exists a, b. now repeat split. }
  intros H. inversion H as [ | | | ? ? ? HL | ? ? ? HR | | ]; subst.
  - right. unfold is_unit. cbv zeta.
    inversion HL as [ | | | ? ? ? H1 | ? ? ? H1 | | ]; subst.
    + apply two in H1 as (a & b & -> & Ha & Hb). exists a, b.
      split; [ reflexivity | ]. now rewrite Ha, Hb.
    + inversion H1 as [ | | | ? ? ? H2 | ? ? ? H2 | | ]; subst;
        apply two in H2 as (a & b & -> & Ha & Hb); exists a, b;
        (split; [ reflexivity | ]); rewrite Ha, Hb;
        rewrite ?orb_true_r; reflexivity.
  - inversion HR; subst. now left.
Qed.

Lemma span_stops (p : ascii -> bool) (a b : list ascii) :
  forallb p a = true -> stops p b -> span p (a ++ b) = (a, b).
Proof.
  induction a as [ | c a IH ]; cbn [forallb app]; intros Ha Hb.
  - destruct b as [ | c b ]; [ reflexivity | ].
    cbn in Hb |- *. now rewrite Hb.
  - apply andb_true_iff in Ha as [Hc Ha].
    cbn [span]. now rewrite Hc, (IH Ha Hb).
Qed.

Lemma skip_spaces_stops (ws s : list ascii) :
  forallb is_space ws = true -> stops is_space s ->
  skip_spaces (ws ++ s) = s.
Proof.
  intros Hws Hs. unfold skip_spaces. now rewrite (span_stops _ _ _ Hws Hs).
Qed.

Lemma scan_number_stops (d f r : list ascii) :
  forallb is_digit d = true -> d <> [] -> forallb is_digit f = true ->
  stops (fun c => is_digit c || Ascii.eqb c ".") r ->
  (f = [] -> scan_number (d ++ r) = Some (d, [], r))
  /\ (f <> [] -> scan_number (d ++ "."%char :: f ++ r) = Some (d, f, r)).
Proof.
  intros Hd Hdne Hf Hr.
  assert (Hr1 : stops is_digit r).
  { destruct r as [ | c r ]; [ exact I | ].
    cbn in Hr |- *. now apply orb_false_iff in Hr as [H _]. }
  destruct d as [ | c0 d ]; [ now contradiction Hdne | ].
  split; intros Hfe; unfold scan_number.
  - rewrite (span_stops _ _ _ Hd Hr1).
    destruct r as [ | c r ]; [ reflexivity | ].
    cbn in Hr. apply orb_false_iff in Hr as [_ Hdot]. now rewrite Hdot.
  - rewrite (span_stops is_digit (c0 :: d) ("."%char :: f ++ r) Hd eq_refl).
    cbn [Ascii.eqb Bool.eqb]. rewrite (span_stops _ _ _ Hf Hr1).
    destruct f as [ | cf f ]; [ now contradiction Hfe | reflexivity ].
Qed.

Ltac by_cases_on_char c :=
  destruct c as [[] [] [] [] [] [] [] []];
  try reflexivity; try discriminate.

Lemma digit_not_space (c : ascii) : is_digit c = true -> is_space c = false.
Proof. by_cases_on_char c. Qed.

Lemma space_ends_number (c : ascii) :
  is_space c = true -> is_digit c || Ascii.eqb c "." = false.
Proof. by_cases_on_char c. Qed.

Lemma x_ends_number (c : ascii) :
  Ascii.eqb (lower_char c) "x" = true ->
  is_digit c || Ascii.eqb c "." = false.
Proof. by_cases_on_char c. Qed.

Lemma x_not_space (c : ascii) :
  Ascii.eqb (lower_char c) "x" = true -> is_space c = false.
Proof. by_cases_on_char c. Qed.

Lemma unit_ends_number (a b : ascii) :
  is_unit a b = true -> is_digit a || Ascii.eqb a "." = false.
Proof.
  unfold is_unit. cbv zeta. intros H.
  destruct a as [[] [] [] [] [] [] [] []]; try reflexivity;
    cbn in H; discriminate H.
Qed.

Lemma space_not_unit (a b : ascii) :
  is_space a = true -> is_unit a b = false.
Proof.
  unfold is_unit. cbv zeta. intros H.
  destruct a as [[] [] [] [] [] [] [] []]; try reflexivity;
    cbn in H; discriminate H.
Qed.

Lemma stops_app (p : ascii -> bool) (a b : list ascii) :
  (a <> [] -> stops p a) -> (a = [] -> stops p b) -> stops p (a ++ b).
Proof.
  destruct a as [ | c a ]; intros Ha Hb.
  - now apply Hb.
  - apply Ha. discriminate.
Qed.

Lemma stops_class (q p : ascii -> bool) (a : list ascii) :
  (forall c, q c = true -> p c = false) ->
  forallb q a = true -> stops p a.
Proof.
  intros Hqp. destruct a as [ | c a ]; cbn; [ trivial | ].
  intros H. apply andb_true_iff in H as [Hc _]. now apply Hqp.
Qed.

Lemma scan_unit_spaces (ws : list ascii) :
  forallb is_space ws = true -> scan_unit ws = (None, ws).
Proof.
  destruct ws as [ | a [ | b ws ] ]; try reflexivity.
  cbn [forallb]. intros H. apply andb_true_iff in H as [Ha _].
  unfold scan_unit. now rewrite (space_not_unit a b Ha).
Qed.

Lemma cat_inv (r1 r2 : re) (s : list ascii) :
  matches (Cat r1 r2) s ->
  exists s1 s2, s = s1 ++ s2 /\ matches r1 s1 /\ matches r2 s2.
Proof.
  intros H. inversion H as [ | | ? ? s1 s2 H1 H2 | | | | ]; subst.
  now exists s1, s2.
Qed.

(** Whatever matches the pattern is accepted by the scanner. *)
Lemma matches_match_paper (s : list ascii) :
  matches paper_re s -> exists x, match_paper s = Some x.
Proof.
  intros H. unfold paper_re in H.
  apply cat_inv in H as (ws1 & t1 & -> & Hws1 & H).
  apply cat_inv in H as (n1 & t2 & -> & Hn1 & H).
  apply cat_inv in H as (ws2 & t3 & -> & Hws2 & H).
  apply cat_inv in H as (xs & t4 & -> & Hx & H).
  apply cat_inv in H as (ws3 & t5 & -> & Hws3 & H).
  apply cat_inv in H as (n2 & t6 & -> & Hn2 & H).
  apply cat_inv in H as (u & ws4 & -> & Hu & Hws4).
  inversion Hx as [ | ? c Hc | | | | | ]; subst. clear Hx.
  apply star_class_inv in Hws1, Hws2, Hws3, Hws4.
  apply number_re_inv in Hn1 as (d1 & f1 & Hd1 & Hd1ne & Hf1 & Hn1).
  apply number_re_inv in Hn2 as (d2 & f2 & Hd2 & Hd2ne & Hf2 & Hn2).
  apply unit_re_inv in Hu.
  (* what follows each number ends it *)
  assert (Hafter1 : stops (fun c => is_digit c || Ascii.eqb c ".")
                          (ws2 ++ [c] ++ ws3 ++ n2 ++ u ++ ws4)).
  { apply stops_app.
    - intros _. revert Hws2. apply stops_class. exact space_ends_number.
    - intros _. cbn. now apply x_ends_number. }
  assert (Hafter2 : stops (fun c => is_digit c || Ascii.eqb c ".") (u ++ ws4)).
  { apply stops_app.
    - intros _. destruct Hu as [-> | (a & b & -> & Hab)]; [ exact I | ].
      cbn. now apply (unit_ends_number a b).
    - intros _. revert Hws4. apply stops_class. exact space_ends_number. }
  (* a number starts with a digit, which is no space *)
  assert (Hstart : forall d f n r,
             forallb is_digit d = true -> d <> [] ->
             (f = [] /\ n = d) \/ (f <> [] /\ n = d ++ "."%char :: f) ->
             stops is_space (n ++ r)).
  { intros d f n r Hd Hdne Hn.
    destruct d as [ | c0 d ]; [ now contradiction Hdne | ].
    cbn in Hd. apply andb_true_iff in Hd as [Hc0 _].
    destruct Hn as [[_ ->] | [_ ->]]; cbn; now apply digit_not_space. }
  (* the scan of a number *)
  assert (Hscan : forall d f n r,
             forallb is_digit d = true -> d <> [] ->
             forallb is_digit f = true ->
             (f = [] /\ n = d) \/ (f <> [] /\ n = d ++ "."%char :: f) ->
             stops (fun c => is_digit c || Ascii.eqb c ".") r ->
             scan_number (n ++ r) = Some (d, f, r)).
  { intros d f n r Hd Hdne Hf Hn Hr.
    destruct (scan_number_stops d f r Hd Hdne Hf Hr) as [S0 S1].
    destruct Hn as [[-> ->] | [Hfne ->]].
    - now apply S0.
    - rewrite <- app_assoc. cbn [app]. now apply S1. }
  unfold match_paper.
  rewrite (skip_spaces_stops _ _ Hws1 (Hstart _ _ _ _ Hd1 Hd1ne Hn1)).
  rewrite (Hscan _ _ _ _ Hd1 Hd1ne Hf1 Hn1 Hafter1).
  rewrite (skip_spaces_stops ws2 ([c] ++ ws3 ++ n2 ++ u ++ ws4) Hws2
             (x_not_space c Hc)).
  cbn [app]. rewrite Hc.
  rewrite (skip_spaces_stops _ _ Hws3 (Hstart _ _ _ _ Hd2 Hd2ne Hn2)).
  rewrite (Hscan _ _ _ _ Hd2 Hd2ne Hf2 Hn2 Hafter2).
  assert (Hunit : exists v, scan_unit (u ++ ws4) = (v, ws4)).
  { destruct Hu as [-> | (a & b & -> & Hab)].
    - exists None. now apply scan_unit_spaces.
    - exists (Some [a; b]). cbn [app scan_unit]. now rewrite Hab. }
  destruct Hunit as [v ->].
  rewrite <- (app_nil_r ws4), (skip_spaces_stops ws4 [] Hws4 I).
  eexists. reflexivity.
Qed.

(** The scanner accepts exactly the strings that match the pattern. *)
Lemma match_paper_iff (spec : string) :
  matches_paper_pattern spec = true
  <-> exists x, match_paper (list_ascii_of_string spec) = Some x.
Proof.
  unfold matches_paper_pattern. split.
  - intros H. now apply matches_match_paper, re_match_sound.
  - intros [x E]. now apply re_match_complete, (match_paper_matches _ x).
Qed.

(** ** The loop of [make_pdf] *)

(** The page count before the iteration with counter [i] is one less than
    [i / per_page] exactly at the start of a later page. *)
Lemma page_at_start (pp i : Z) :
  (1 <= pp)%Z -> (0 <= i)%Z -> (i mod pp = 0)%Z ->
  (if (i >? 0)%Z then (if (i =? 0)%Z then 0 else (i - 1) / pp) + 1
   else (if (i =? 0)%Z then 0 else (i - 1) / pp))%Z = (i / pp)%Z.
Proof.
  intros Hpp Hi Hm.
  destruct (Z.gtb_spec i 0); destruct (Z.eqb_spec i 0); try lia;
    Z.div_mod_to_equations; nia.
Qed.

Lemma page_inside (pp i : Z) :
  (1 <= pp)%Z -> (0 <= i)%Z -> (i mod pp <> 0)%Z ->
  (if (i =? 0)%Z then 0 else (i - 1) / pp)%Z = (i / pp)%Z.
Proof.
  intros Hpp Hi Hm.
  destruct (Z.eqb_spec i 0); Z.div_mod_to_equations; nia.
Qed.

Section LoopFacts.

Variable draw_error : string -> option string.
Variables (rows cols : Z) (x0 y0 w h dx dy gap_mm ph : Q).
Variables (rotated cropmarks black_borders : bool).

Local Abbreviation per_page := (rows * cols)%Z.
Local Abbreviation loop :=
  (make_pdf_loop draw_error rows cols x0 y0 w h dx dy gap_mm ph
     rotated cropmarks black_borders).
Local Abbreviation start :=
  (page_start rows cols x0 y0 w h dx dy gap_mm ph
     rotated cropmarks black_borders).
Local Abbreviation borders :=
  (draw_black_borders rows cols x0 y0 w h dx dy gap_mm).
Local Abbreviation marks := (page_crop_marks rows cols x0 y0 w h dx dy).

Lemma forallb_flat_map {A : Type} (p : event -> bool) (f : A -> list event)
    (l : list A) :
  (forall a, forallb p (f a) = true) -> forallb p (flat_map f l) = true.
Proof.
  intros Hf. induction l as [ | a l IH ]; cbn; [ reflexivity | ].
  now rewrite forallb_app, Hf, IH.
Qed.

Lemma forallb_map_const {A : Type} (p : event -> bool) (f : A -> event)
    (l : list A) :
  (forall a, p (f a) = true) -> forallb p (map f l) = true.
Proof.
  intros Hf. induction l as [ | a l IH ]; cbn; [ reflexivity | ].
  now rewrite Hf, IH.
Qed.

(** Decoration holds crop calls only, or none at all. *)
Lemma marks_are_crop_calls : forallb is_crop_call marks = true.
Proof.
  unfold page_crop_marks.
  apply forallb_flat_map; intros r.
  apply forallb_flat_map; intros c. reflexivity.
Qed.

Lemma borders_no_crop_calls :
  forallb (fun e => negb (is_crop_call e)) borders = true.
Proof.
  unfold draw_black_borders.
  rewrite !forallb_app. cbn [forallb is_crop_call negb andb].
  rewrite !forallb_map_const by reflexivity. reflexivity.
Qed.

Lemma marks_quiet :
  forallb (fun e => negb (is_show_page e) && negb (is_image_event e)) marks
  = true.
Proof.
  unfold page_crop_marks.
  apply forallb_flat_map; intros r.
  apply forallb_flat_map; intros c. reflexivity.
Qed.

Lemma borders_quiet :
  forallb (fun e => negb (is_show_page e) && negb (is_image_event e)) borders
  = true.
Proof.
  unfold draw_black_borders.
  rewrite !forallb_app. cbn [forallb is_show_page is_image_event negb andb].
  rewrite !forallb_map_const by reflexivity. reflexivity.
Qed.

(** The decoration of a page: borders, then crop marks, as enabled. *)
Local Abbreviation decoration :=
  ((if black_borders then borders else [])
   ++ (if cropmarks then marks else [])).

Lemma decoration_quiet :
  forallb (fun e => negb (is_show_page e) && negb (is_image_event e))
          decoration = true.
Proof.
  rewrite forallb_app.
  destruct black_borders, cropmarks; cbn [forallb andb];
    rewrite ?borders_quiet, ?marks_quiet; reflexivity.
Qed.

Lemma start_eq (i : Z) :
  start i
  = (if (i >? 0)%Z
     then ShowPage :: (if rotated then [Translate 0 ph; Rotate 90] else [])
     else [])
    ++ decoration.
Proof. reflexivity. Qed.

Lemma try_draw_is_image (img : string) (x y : Q) :
  is_image_event (try_draw draw_error w h img x y) = true
  /\ is_show_page (try_draw draw_error w h img x y) = false
  /\ is_crop_call (try_draw draw_error w h img x y) = false.
Proof.
  unfold try_draw. destruct (draw_error img); repeat split.
Qed.

Lemma placed_quiet (evs tr : list event) (p : Z) :
  forallb (fun e => negb (is_show_page e) && negb (is_image_event e)) evs
  = true ->
  placed p (evs ++ tr) = placed p tr.
Proof.
  induction evs as [ | e evs IH ]; cbn [forallb app placed]; intros H;
    [ reflexivity | ].
  apply andb_true_iff in H as [He Hevs].
  apply andb_true_iff in He as [H1 H2].
  apply negb_true_iff in H1. apply negb_true_iff in H2.
  rewrite H1, H2. now apply IH.
Qed.

Lemma placed_start (i p : Z) (tr : list event) :
  placed p (start i ++ tr) = placed (if (i >? 0)%Z then p + 1 else p) tr.
Proof.
  rewrite start_eq, <- app_assoc.
  destruct (i >? 0)%Z.
  - cbn [app placed is_show_page].
    destruct rotated; cbn [app placed is_show_page is_image_event];
      apply placed_quiet, decoration_quiet.
  - cbn [app]. apply placed_quiet, decoration_quiet.
Qed.

(** The outcome of the iteration with counter [i], as the loop computes it
    (lines 182-194). *)
Local Abbreviation outcome i img :=
  (try_draw draw_error w h img
     (cell_x x0 dx ((i mod per_page) mod cols))
     (cell_y rows y0 dy ((i mod per_page) / cols))).

Lemma loop_cons (img : string) (images : list string) (i : Z) :
  loop (img :: images) i
  = (if (i mod per_page =? 0)%Z then start i else [])
    ++ outcome i img :: loop images (i + 1).
Proof. reflexivity. Qed.

(** The image outcomes and their pages: the iteration with counter [i]
    lands on page [i / per_page]. *)
Lemma loop_placed (images : list string) :
  (1 <= per_page)%Z ->
  forall i, (0 <= i)%Z ->
  placed (if (i =? 0)%Z then 0 else (i - 1) / per_page) (loop images i)
  = map (fun '(k, img) => ((k / per_page)%Z, outcome k img))
        (enumerate i images).
Proof.
  intros Hpp.
  induction images as [ | img images IH ]; intros i Hi; [ reflexivity | ].
  rewrite loop_cons. cbn [enumerate map].
  assert (Hpage :
    placed (if (i =? 0)%Z then 0 else (i - 1) / per_page)
           ((if (i mod per_page =? 0)%Z then start i else [])
            ++ outcome i img :: loop images (i + 1))
    = placed (i / per_page) (outcome i img :: loop images (i + 1))).
  { destruct (i mod per_page =? 0)%Z eqn:Hm.
    - rewrite placed_start. f_equal.
      apply Z.eqb_eq in Hm. now apply page_at_start.
    - cbn [app]. f_equal.
      apply Z.eqb_neq in Hm. now apply page_inside. }
  rewrite Hpage. cbn [placed].
  destruct (try_draw_is_image img
              (cell_x x0 dx ((i mod per_page) mod cols))
              (cell_y rows y0 dy ((i mod per_page) / cols))) as (H1 & H2 & _).
  rewrite H1, H2. f_equal.
  specialize (IH (i + 1)%Z ltac:(lia)).
  destruct (Z.eqb_spec (i + 1) 0) as [E0 | _]; [ lia | ].
  replace (i + 1 - 1)%Z with i in IH by lia. exact IH.
Qed.

End LoopFacts.

Lemma enumerate_ge {A : Type} (l : list A) :
  forall i k a, In (k, a) (enumerate i l) -> (i <= k)%Z.
Proof.
  induction l as [ | b l IH ]; intros i k a; cbn; [ tauto | ].
  intros [E | H].
  - injection E as <- _. lia.
  - apply IH in H. lia.
Qed.

Lemma pages_length (tr : list event) :
  List.length (pages tr) = S (show_pages tr).
Proof.
  unfold show_pages.
  induction tr as [ | e tr IH ]; [ reflexivity | ].
  destruct e; cbn [pages filter is_show_page List.length];
    try (destruct (pages tr); [ discriminate IH | exact IH ]).
  now rewrite IH.
Qed.

Lemma show_pages_app (a b : list event) :
  show_pages (a ++ b) = (show_pages a + show_pages b)%nat.
Proof. unfold show_pages. now rewrite filter_app, length_app. Qed.

Lemma show_pages_quiet (evs : list event) :
  forallb (fun e => negb (is_show_page e) && negb (is_image_event e)) evs
  = true ->
  show_pages evs = 0%nat.
Proof.
  unfold show_pages.
  induction evs as [ | e evs IH ]; cbn [forallb filter]; intros H;
    [ reflexivity | ].
  apply andb_true_iff in H as [He Hevs].
  apply andb_true_iff in He as [H1 _]. apply negb_true_iff in H1.
  rewrite H1. now apply IH.
Qed.

Lemma show_pages_start (rows cols : Z) (x0 y0 w h dx dy gap_mm ph : Q)
    (rotated cropmarks black_borders : bool) (i : Z) :
  show_pages (page_start rows cols x0 y0 w h dx dy gap_mm ph rotated
                cropmarks black_borders i)
  = if (i >? 0)%Z then 1%nat else 0%nat.
Proof.
  rewrite start_eq, show_pages_app.
  rewrite (show_pages_quiet _ (decoration_quiet _ _ _ _ _ _ _ _ _ _ _)).
  destruct (i >? 0)%Z; [ | reflexivity ].
  destruct rotated; reflexivity.
Qed.

(** The [showPage] calls of the loop: one at the start of each page but
    the first. *)
Lemma loop_show_pages (draw_error : string -> option string)
    (rows cols : Z) (x0 y0 w h dx dy gap_mm ph : Q)
    (rotated cropmarks black_borders : bool) (images : list string) :
  (1 <= rows * cols)%Z ->
  forall i, (0 <= i)%Z ->
  (Z.of_nat (show_pages (make_pdf_loop draw_error rows cols x0 y0 w h dx dy
                           gap_mm ph rotated cropmarks black_borders
                           images i))
   + (if i =? 0 then 0 else (i - 1) / (rows * cols))
   = (if i + Z.of_nat (List.length images) =? 0 then 0
      else (i + Z.of_nat (List.length images) - 1) / (rows * cols)))%Z.
Proof.
  intros Hpp.
  induction images as [ | img images IH ]; intros i Hi.
  - cbn [make_pdf_loop List.length]. rewrite Z.add_0_r. reflexivity.
  - rewrite loop_cons, show_pages_app.
    change (?e :: ?l) with ([e] ++ l) at 1. rewrite show_pages_app.
    assert (He : show_pages
                   [try_draw draw_error w h img
                      (cell_x x0 dx ((i mod (rows * cols)) mod cols))
                      (cell_y rows y0 dy (i mod (rows * cols) / cols))]
                 = 0%nat).
    { unfold try_draw. destruct (draw_error img); reflexivity. }
    rewrite He. clear He.
    specialize (IH (i + 1)%Z ltac:(lia)).
    destruct (Z.eqb_spec (i + 1) 0) as [E0 | _]; [ lia | ].
    replace (i + 1 - 1)%Z with i in IH by lia.
    replace (i + Z.of_nat (List.length (img :: images)))%Z
      with (i + 1 + Z.of_nat (List.length images))%Z
      by (cbn [List.length]; lia).
    rewrite <- IH. rewrite !Nat2Z.inj_add. cbn [Z.of_nat].
    destruct (i mod (rows * cols) =? 0)%Z eqn:Hm.
    + rewrite show_pages_start.
      apply Z.eqb_eq in Hm.
      pose proof (page_at_start _ _ Hpp Hi Hm) as P.
      destruct (i >? 0)%Z; cbn [Z.of_nat]; lia.
    + apply Z.eqb_neq in Hm.
      pose proof (page_inside _ _ Hpp Hi Hm) as P.
      change (show_pages []) with 0%nat. cbn [Z.of_nat]. lia.
Qed.

(** [math.ceil(total / per_page)] in integer arithmetic. *)
Lemma page_count_spec (total per_page : Z) :
  (1 <= total)%Z -> (1 <= per_page)%Z ->
  page_count total per_page = ((total - 1) / per_page + 1)%Z.
Proof.
  intros Ht Hp. unfold page_count, Qceiling.
  assert (E : - (inject_Z total / inject_Z per_page)
              == inject_Z (- total) / inject_Z per_page).
  { rewrite inject_Z_opp. field.
    change 0 with (inject_Z 0). rewrite inject_Z_injective. lia. }
  rewrite E, <- Zdiv_Qdiv.
  Z.div_mod_to_equations. nia.
Qed.

(** C2.  For every image sequence and every grid plan with
    [perPage = rows*cols >= 1], the loop gives the i-th image (from 0) the
    PageSlot of the specification: it is drawn after [i div perPage]
    page breaks, in row [(i mod perPage) div cols] and column
    [(i mod perPage) mod cols] of the grid; the loop makes
    [ceil(imageCount / perPage)] pages, the number [main] reports (none,
    and no call at all, for an empty sequence); and row and column repeat
    with period [perPage], one page further. *)
Theorem pagination_follows_page_slot
    (draw_error : string -> option string)
    (rows cols : Z) (x0 y0 w h dx dy gap_mm ph : Q)
    (rotated cropmarks black_borders : bool) (images : list string) :
  (1 <= rows * cols)%Z ->
  let per_page := (rows * cols)%Z in
  let tr := make_pdf_loop draw_error rows cols x0 y0 w h dx dy gap_mm ph
              rotated cropmarks black_borders images 0 in
  placed 0 tr
  = map (fun '(i, img) =>
           let s := page_slot per_page cols i in
           (pageIndex s,
            try_draw draw_error w h img
              (cell_x x0 dx (col s)) (cell_y rows y0 dy (row s))))
        (enumerate 0 images)
  /\ (images = [] ->
      tr = [] /\ page_count (Z.of_nat (List.length images)) per_page = 0%Z)
  /\ (images <> [] ->
      Z.of_nat (List.length (pages tr))
      = page_count (Z.of_nat (List.length images)) per_page)
  /\ (forall i,
        let s := page_slot per_page cols i in
        let s' := page_slot per_page cols (i + per_page) in
        row s' = row s /\ col s' = col s
        /\ pageIndex s' = (pageIndex s + 1)%Z).
Proof.
  intros Hpp per_page tr. split; [ | split; [ | split ] ].
  - exact (loop_placed draw_error rows cols x0 y0 w h dx dy gap_mm ph
             rotated cropmarks black_borders images Hpp 0%Z (Z.le_refl 0)).
  - intros ->. split; [ reflexivity | ].
    cbn [List.length Z.of_nat]. unfold page_count.
    assert (E : inject_Z 0 / inject_Z per_page == 0)
      by (unfold Qdiv; ring).
    rewrite E. reflexivity.
  - intros Hne. unfold tr.
    rewrite pages_length, Nat2Z.inj_succ.
    pose proof (loop_show_pages draw_error rows cols x0 y0 w h dx dy gap_mm
                  ph rotated cropmarks black_borders images Hpp 0%Z
                  (Z.le_refl 0)) as Hs.
    cbn [Z.eqb] in Hs. rewrite Z.add_0_r, Z.add_0_l in Hs.
    assert (Hlen : (1 <= Z.of_nat (List.length images))%Z).
    { destruct images; [ now contradiction Hne | cbn [List.length]; lia ]. }
    destruct (Z.eqb_spec (Z.of_nat (List.length images)) 0) as [E0 | _];
      [ lia | ].
    rewrite page_count_spec by assumption.
    fold per_page in Hs. lia.
  - intros i. cbn [page_slot row col pageIndex].
    replace (i + per_page)%Z with (i + 1 * per_page)%Z by lia.
    rewrite Z.mod_add, Z.div_add by lia. now repeat split.
Qed.

Lemma pagination_follows_page_slot_witness :
  let per_page := (2 * 2)%Z in
  let tr := make_pdf_loop all_load 2 2 10 20 63 88 66 91 3 842
              false true true ten_images 0 in
  placed 0 tr
  = map (fun '(i, img) =>
           let s := page_slot per_page 2 i in
           (pageIndex s,
            try_draw all_load 63 88 img
              (cell_x 10 66 (col s)) (cell_y 2 20 91 (row s))))
        (enumerate 0 ten_images)
  /\ (ten_images = [] ->
      tr = []
      /\ page_count (Z.of_nat (List.length ten_images)) per_page = 0%Z)
  /\ (ten_images <> [] ->
      Z.of_nat (List.length (pages tr))
      = page_count (Z.of_nat (List.length ten_images)) per_page)
  /\ (forall i,
        let s := page_slot per_page 2 i in
        let s' := page_slot per_page 2 (i + per_page) in
        row s' = row s /\ col s' = col s
        /\ pageIndex s' = (pageIndex s + 1)%Z).
Proof.
  apply (pagination_follows_page_slot all_load 2 2 10 20 63 88 66 91 3 842
           false true true ten_images).
  vm_compute. discriminate.
Defined.

Lemma slot_in_grid (rows cols i : Z) :
  (1 <= rows)%Z -> (1 <= cols)%Z -> (0 <= i)%Z ->
  (0 <= (i mod (rows * cols)) / cols < rows)%Z
  /\ (0 <= (i mod (rows * cols)) mod cols < cols)%Z.
Proof.
  intros Hr Hc Hi.
  assert (Hpp : (0 < rows * cols)%Z) by nia.
  pose proof (Z.mod_pos_bound i (rows * cols) Hpp) as Hs.
  split.
  - split.
    + apply Z.div_pos; lia.
    + apply Z.div_lt_upper_bound; [ lia | ]. nia.
  - apply Z.mod_pos_bound. lia.
Qed.

(** C10.  For every grid plan with [rows >= 1] and [cols >= 1] and every
    image index [i >= 0] the slot coordinates satisfy [0 <= row < rows] and
    [0 <= col < cols]; so every image outcome of the loop, drawn or
    skipped, is placed at a cell of the planned grid. *)
Theorem every_image_inside_grid
    (draw_error : string -> option string)
    (rows cols : Z) (x0 y0 w h dx dy gap_mm ph : Q)
    (rotated cropmarks black_borders : bool) (images : list string) :
  (1 <= rows)%Z -> (1 <= cols)%Z ->
  (forall i, (0 <= i)%Z ->
     let s := page_slot (rows * cols) cols i in
     (0 <= row s < rows)%Z /\ (0 <= col s < cols)%Z)
  /\ Forall (fun pe : Z * event =>
               exists r c img,
                 (0 <= r < rows)%Z /\ (0 <= c < cols)%Z
                 /\ snd pe = try_draw draw_error w h img
                               (cell_x x0 dx c) (cell_y rows y0 dy r))
            (placed 0 (make_pdf_loop draw_error rows cols x0 y0 w h dx dy
                         gap_mm ph rotated cropmarks black_borders
                         images 0)).
Proof.
  intros Hr Hc. split.
  - intros i Hi. cbn [page_slot row col]. now apply slot_in_grid.
  - assert (Hpp : (1 <= rows * cols)%Z) by nia.
    pose proof (loop_placed draw_error rows cols x0 y0 w h dx dy gap_mm ph
                  rotated cropmarks black_borders images Hpp 0%Z
                  (Z.le_refl 0)) as E.
    cbn [Z.eqb] in E. rewrite E.
    apply Forall_forall. intros pe Hin.
    apply in_map_iff in Hin as ([k img] & <- & Hin).
    apply enumerate_ge in Hin.
    destruct (slot_in_grid rows cols k Hr Hc Hin) as [Hrow Hcol].
    exists ((k mod (rows * cols)) / cols)%Z, ((k mod (rows * cols)) mod cols)%Z,
      img.
    repeat split; try apply Hrow; try apply Hcol.
Qed.

Lemma every_image_inside_grid_witness :
  (forall i, (0 <= i)%Z ->
     let s := page_slot (3 * 3) 3 i in
     (0 <= row s < 3)%Z /\ (0 <= col s < 3)%Z)
  /\ Forall (fun pe : Z * event =>
               exists r c img,
                 (0 <= r < 3)%Z /\ (0 <= c < 3)%Z
                 /\ snd pe = try_draw all_load 63 88 img
                               (cell_x 10 66 c) (cell_y 3 20 91 r))
            (placed 0 (make_pdf_loop all_load 3 3 10 20 63 88 66 91 3 842
                         false false false ten_images 0)).
Proof.
  apply (every_image_inside_grid all_load 3 3 10 20 63 88 66 91 3 842
           false false false ten_images); lia.
Defined.

(** ** The whole of [make_pdf] *)

(** The first part of [make_pdf] returns a grid with at least one row and
    one column, having at most rotated the page. *)
Lemma make_pdf_grid_total (paper_size : Q * Q) (margin_mm gap_mm : Q)
    (o : orientation) :
  ~ CARD_W_MM + gap_mm == 0 -> ~ CARD_H_MM + gap_mm == 0 ->
  exists c1 rows cols x0 y0 rotated ph,
    make_pdf_grid paper_size margin_mm gap_mm o
    = (c1, Ok (rows, cols, x0, y0, rotated, ph))
    /\ (1 <= rows)%Z /\ (1 <= cols)%Z
    /\ (c1 = [] \/ exists t, c1 = [Translate 0 t; Rotate 90]).
Proof.
  intros Hw Hh. destruct paper_size as [pw ph]. unfold make_pdf_grid.
  destruct (compute_grid_total pw ph margin_mm gap_mm o Hw Hh)
    as ([[[r c] x] y] & rot & E).
  rewrite E. destruct rot.
  - destruct (compute_grid_total ph pw margin_mm gap_mm Portrait Hw Hh)
      as ([[[r' c'] x'] y'] & rot' & E').
    rewrite E'. apply compute_grid_ge1 in E' as [Hr Hc].
    do 7 eexists. split; [ reflexivity | ].
    split; [ exact Hr | ]. split; [ exact Hc | ].
    right. eexists. reflexivity.
  - apply compute_grid_ge1 in E as [Hr Hc].
    do 7 eexists. split; [ reflexivity | ].
    split; [ exact Hr | ]. split; [ exact Hc | ]. now left.
Qed.

Lemma make_pdf_grid_calls (paper_size : Q * Q) (margin_mm gap_mm : Q)
    (o : orientation) :
  let c1 := fst (make_pdf_grid paper_size margin_mm gap_mm o) in
  c1 = [] \/ exists t, c1 = [Translate 0 t; Rotate 90].
Proof.
  destruct paper_size as [pw ph]. unfold make_pdf_grid.
  destruct (compute_grid pw ph margin_mm gap_mm o)
    as [[[[[r c] x] y] [ | ]] | e]; cbn [fst]; try (now left).
  destruct (compute_grid ph pw margin_mm gap_mm Portrait)
    as [[[[[r' c'] x'] y'] rot'] | e']; cbn [fst]; right; eexists;
    reflexivity.
Qed.

Lemma degrade_quiet (draw_error : string -> option string)
    (evs : list event) :
  forallb (fun e => negb (is_show_page e) && negb (is_image_event e)) evs
  = true ->
  map (degrade draw_error) evs = evs.
Proof.
  induction evs as [ | e evs IH ]; cbn [forallb map]; intros H;
    [ reflexivity | ].
  apply andb_true_iff in H as [He Hevs]. rewrite (IH Hevs).
  destruct e; try reflexivity; discriminate He.
Qed.

Lemma degrade_start (draw_error : string -> option string)
    (rows cols : Z) (x0 y0 w h dx dy gap_mm ph : Q)
    (rotated cropmarks black_borders : bool) (i : Z) :
  map (degrade draw_error)
      (page_start rows cols x0 y0 w h dx dy gap_mm ph rotated cropmarks
         black_borders i)
  = page_start rows cols x0 y0 w h dx dy gap_mm ph rotated cropmarks
      black_borders i.
Proof.
  rewrite start_eq, map_app.
  rewrite (degrade_quiet _ _ (decoration_quiet _ _ _ _ _ _ _ _ _ _ _)).
  destruct (i >? 0)%Z; [ | reflexivity ].
  destruct rotated; reflexivity.
Qed.

(** The loop with failing images is the loop in which every image loads,
    with each failed draw replaced by its warning. *)
Lemma loop_degrade (draw_error : string -> option string)
    (rows cols : Z) (x0 y0 w h dx dy gap_mm ph : Q)
    (rotated cropmarks black_borders : bool) (images : list string) :
  forall i,
    make_pdf_loop draw_error rows cols x0 y0 w h dx dy gap_mm ph rotated
      cropmarks black_borders images i
    = map (degrade draw_error)
        (make_pdf_loop all_load rows cols x0 y0 w h dx dy gap_mm ph rotated
           cropmarks black_borders images i).
Proof.
  induction images as [ | img images IH ]; intros i; [ reflexivity | ].
  rewrite !loop_cons, map_app. cbn [map].
  rewrite <- IH. f_equal.
  destruct (i mod (rows * cols) =? 0)%Z; [ | reflexivity ].
  symmetry. apply degrade_start.
Qed.

Lemma loop_image_count (draw_error : string -> option string)
    (rows cols : Z) (x0 y0 w h dx dy gap_mm ph : Q)
    (rotated cropmarks black_borders : bool) (images : list string) :
  forall i,
    List.length
      (filter is_image_event
         (make_pdf_loop draw_error rows cols x0 y0 w h dx dy gap_mm ph
            rotated cropmarks black_borders images i))
    = List.length images.
Proof.
  assert (Hq : forall evs,
             forallb (fun e => negb (is_show_page e) && negb (is_image_event e))
                     evs = true ->
             filter is_image_event evs = []).
  { induction evs as [ | e evs IHe ]; cbn [forallb filter]; intros H;
      [ reflexivity | ].
    apply andb_true_iff in H as [He Hevs].
    apply andb_true_iff in He as [_ H2]. apply negb_true_iff in H2.
    rewrite H2. now apply IHe. }
  induction images as [ | img images IH ]; intros i; [ reflexivity | ].
  rewrite loop_cons, filter_app. cbn [filter].
  destruct (try_draw_is_image draw_error w h img
              (cell_x x0 dx ((i mod (rows * cols)) mod cols))
              (cell_y rows y0 dy (i mod (rows * cols) / cols))) as (H1 & _).
  rewrite H1, length_app. cbn [List.length]. rewrite IH.
  assert (Hs : filter is_image_event
                 (if (i mod (rows * cols) =? 0)%Z
                  then page_start rows cols x0 y0 w h dx dy gap_mm ph
                         rotated cropmarks black_borders i
                  else []) = []).
  { destruct (i mod (rows * cols) =? 0)%Z; [ | reflexivity ].
    rewrite start_eq, filter_app.
    rewrite (Hq _ (decoration_quiet _ _ _ _ _ _ _ _ _ _ _)).
    destruct (i >? 0)%Z; [ | reflexivity ].
    destruct rotated; reflexivity. }
  rewrite Hs. reflexivity.
Qed.

Lemma loop_outcomes (draw_error : string -> option string)
    (rows cols : Z) (x0 y0 w h dx dy gap_mm ph : Q)
    (rotated cropmarks black_borders : bool) (images : list string) :
  forall i,
    filter is_image_event
      (make_pdf_loop draw_error rows cols x0 y0 w h dx dy gap_mm ph
         rotated cropmarks black_borders images i)
    = map (fun '(k, img) =>
             slot_outcome draw_error rows cols x0 y0 w h dx dy k img)
          (enumerate i images).
Proof.
  assert (Hq : forall evs,
             forallb (fun e => negb (is_show_page e) && negb (is_image_event e))
                     evs = true ->
             filter is_image_event evs = []).
  { induction evs as [ | e evs IHe ]; cbn [forallb filter]; intros H;
      [ reflexivity | ].
    apply andb_true_iff in H as [He Hevs].
    apply andb_true_iff in He as [_ H2]. apply negb_true_iff in H2.
    rewrite H2. now apply IHe. }
  induction images as [ | img images IH ]; intros i; [ reflexivity | ].
  rewrite loop_cons, filter_app. cbn [filter enumerate map].
  destruct (try_draw_is_image draw_error w h img
              (cell_x x0 dx ((i mod (rows * cols)) mod cols))
              (cell_y rows y0 dy (i mod (rows * cols) / cols))) as (H1 & _).
  rewrite H1, IH.
  assert (Hs : filter is_image_event
                 (if (i mod (rows * cols) =? 0)%Z
                  then page_start rows cols x0 y0 w h dx dy gap_mm ph
                         rotated cropmarks black_borders i
                  else []) = []).
  { destruct (i mod (rows * cols) =? 0)%Z; [ | reflexivity ].
    rewrite start_eq, filter_app.
    rewrite (Hq _ (decoration_quiet _ _ _ _ _ _ _ _ _ _ _)).
    destruct (i >? 0)%Z; [ | reflexivity ].
    destruct rotated; reflexivity. }
  rewrite Hs. reflexivity.
Qed.

(** C8.  For every input sequence and every draw capability, once the grid
    is computed the run completes: [make_pdf] returns its grid and the
    calls end with [save].  Every image has its outcome, in the order of
    the input: the image numbered [i] is drawn at the cell of slot [i],
    and when its draw fails the warning
    [[WARN] Cannot load image: <img> (<error>)] is printed in its place
    and nothing is drawn for it, so its cell stays empty and the images
    after it keep their slots.  The calls are those of the run in which
    every image loads, with each failed draw replaced by its warning. *)
Theorem failed_images_are_skipped
    (draw_error : string -> option string) (images : list string)
    (out_path : string) (paper_size : Q * Q) (margin_mm gap_mm : Q)
    (cropmarks : bool) (o : orientation) (black_borders : bool) :
  ~ CARD_W_MM + gap_mm == 0 ->
  ~ CARD_H_MM + gap_mm == 0 ->
  let run := make_pdf draw_error images out_path paper_size margin_mm gap_mm
               cropmarks o black_borders in
  let ideal := make_pdf all_load images out_path paper_size margin_mm gap_mm
                 cropmarks o black_borders in
  (exists rows cols x0 y0,
      snd run = Ok (rows, cols, (rows * cols)%Z)
      /\ filter is_image_event (fst run)
         = map (fun '(i, img) =>
                  slot_outcome draw_error rows cols x0 y0
                    (CARD_W_MM * mm) (CARD_H_MM * mm)
                    (CARD_W_MM * mm + gap_mm * mm)
                    (CARD_H_MM * mm + gap_mm * mm) i img)
               (enumerate 0 images))
  /\ snd run = snd ideal
  /\ fst run = map (degrade draw_error) (fst ideal)
  /\ (exists tr, fst run = tr ++ [Save])
  /\ List.length (filter is_image_event (fst run)) = List.length images.
Proof.
  intros Hw Hh run ideal. unfold run, ideal, make_pdf.
  destruct (make_pdf_grid_total paper_size margin_mm gap_mm o Hw Hh)
    as (c1 & rows & cols & x0 & y0 & rotated & ph & E & _ & _ & Hc1).
  rewrite E. cbn [fst snd].
  split.
  { exists rows, cols, x0, y0. split; [ reflexivity | ].
    rewrite !filter_app, loop_outcomes.
    destruct Hc1 as [-> | [t ->]]; cbn [app filter is_image_event];
      now rewrite app_nil_r. }
  split; [ reflexivity | ].
  split; [ | split ].
  - rewrite !map_app. cbn [map degrade]. rewrite <- loop_degrade.
    destruct Hc1 as [-> | [t ->]]; reflexivity.
  - eexists. rewrite !app_assoc. reflexivity.
  - rewrite !filter_app, !length_app, loop_image_count.
    destruct Hc1 as [-> | [t ->]]; cbn; lia.
Qed.

Lemma failed_images_are_skipped_witness :
  let run := make_pdf third_fails ten_images "cards_print.pdf" A4 5 3
               true Auto false in
  let ideal := make_pdf all_load ten_images "cards_print.pdf" A4 5 3
                 true Auto false in
  (exists rows cols x0 y0,
      snd run = Ok (rows, cols, (rows * cols)%Z)
      /\ filter is_image_event (fst run)
         = map (fun '(i, img) =>
                  slot_outcome third_fails rows cols x0 y0
                    (CARD_W_MM * mm) (CARD_H_MM * mm)
                    (CARD_W_MM * mm + 3 * mm)
                    (CARD_H_MM * mm + 3 * mm) i img)
               (enumerate 0 ten_images))
  /\ snd run = snd ideal
  /\ fst run = map (degrade third_fails) (fst ideal)
  /\ (exists tr, fst run = tr ++ [Save])
  /\ List.length (filter is_image_event (fst run)) = List.length ten_images.
Proof.
  apply (failed_images_are_skipped third_fails ten_images "cards_print.pdf"
           A4 5 3 true Auto false); vm_compute; discriminate.
Defined.

(** On A3 with the default margin and gap, [auto] picks the landscape plan
    (3 x 6 = 18 cards against 4 x 4 = 16).  The first page is rotated
    after a translation by the page height, 420 mm; the page opened for
    the 19th image is rotated after a translation by [ph] as exchanged
    with [pw], 297 mm. *)
Example landscape_frame_of_later_pages :
  snd (make_pdf all_load (numbered_images 19) "cards_print.pdf" A3 5 3
         false Auto false) = Ok (3, 6, 18)%Z
  /\ filter is_translate
       (fst (make_pdf all_load (numbered_images 19) "cards_print.pdf" A3 5 3
               false Auto false))
     = [Translate 0 (420 * mm); Translate 0 (297 * mm)].
Proof. split; vm_compute; reflexivity. Qed.

(** ** Crop marks *)

Lemma pages_cons_nobreak (e : event) (tr : list event) :
  is_show_page e = false ->
  pages (e :: tr) = (e :: hd [] (pages tr)) :: tl (pages tr).
Proof.
  intros He. pose proof (pages_length tr) as Hlen.
  destruct e; try discriminate He; cbn [pages];
    destruct (pages tr); try discriminate Hlen; reflexivity.
Qed.

Lemma pages_nobreak_app (pre tr : list event) :
  forallb (fun e => negb (is_show_page e)) pre = true ->
  pages (pre ++ tr) = (pre ++ hd [] (pages tr)) :: tl (pages tr).
Proof.
  induction pre as [ | e pre IH ]; cbn [forallb app]; intros H.
  - pose proof (pages_length tr) as Hlen.
    destruct (pages tr); [ discriminate Hlen | reflexivity ].
  - apply andb_true_iff in H as [He Hpre]. apply negb_true_iff in He.
    rewrite (pages_cons_nobreak _ _ He), (IH Hpre). reflexivity.
Qed.

Lemma filter_all (p : event -> bool) (l : list event) :
  forallb p l = true -> filter p l = l.
Proof.
  induction l as [ | e l IH ]; cbn; intros H; [ reflexivity | ].
  apply andb_true_iff in H as [He Hl]. rewrite He. f_equal. now apply IH.
Qed.

Lemma filter_none (p : event -> bool) (l : list event) :
  forallb (fun e => negb (p e)) l = true -> filter p l = [].
Proof.
  induction l as [ | e l IH ]; cbn; intros H; [ reflexivity | ].
  apply andb_true_iff in H as [He Hl]. apply negb_true_iff in He.
  rewrite He. now apply IH.
Qed.

Section CropMarks.

Variable draw_error : string -> option string.
Variables (rows cols : Z) (x0 y0 w h dx dy gap_mm ph : Q).
Variables (rotated black_borders : bool).

Local Abbreviation loop :=
  (make_pdf_loop draw_error rows cols x0 y0 w h dx dy gap_mm ph
     rotated true black_borders).
Local Abbreviation start :=
  (page_start rows cols x0 y0 w h dx dy gap_mm ph rotated true black_borders).
Local Abbreviation marks := (page_crop_marks rows cols x0 y0 w h dx dy).

(** The crop calls of the decoration of a page are the marks of the whole
    grid. *)
Lemma decoration_crop_calls :
  filter is_crop_call
    ((if black_borders
      then draw_black_borders rows cols x0 y0 w h dx dy gap_mm
      else []) ++ marks) = marks.
Proof.
  rewrite filter_app, (filter_all _ _ (marks_are_crop_calls _ _ _ _ _ _ _ _)).
  destruct black_borders; [ | reflexivity ].
  now rewrite (filter_none _ _ (borders_no_crop_calls _ _ _ _ _ _ _ _ _)).
Qed.

Lemma decoration_crop_calls_app (tr : list event) :
  filter is_crop_call
    (((if black_borders
       then draw_black_borders rows cols x0 y0 w h dx dy gap_mm
       else []) ++ marks) ++ tr)
  = marks ++ filter is_crop_call tr.
Proof. now rewrite filter_app, decoration_crop_calls. Qed.

Lemma decoration_no_break :
  forallb (fun e => negb (is_show_page e))
    ((if black_borders
      then draw_black_borders rows cols x0 y0 w h dx dy gap_mm
      else []) ++ marks) = true.
Proof.
  pose proof (decoration_quiet rows cols x0 y0 w h dx dy gap_mm true
                black_borders) as H.
  cbv iota in H. revert H.
  generalize ((if black_borders
               then draw_black_borders rows cols x0 y0 w h dx dy gap_mm
               else []) ++ marks).
  induction l as [ | e l IH ]; cbn [forallb]; intros H; [ reflexivity | ].
  apply andb_true_iff in H as [He Hl].
  apply andb_true_iff in He as [H1 _]. now rewrite H1, IH.
Qed.

(** From a counter [i > 0] on: what is left of the current page holds no
    crop call, and every later page holds the marks of the whole grid. *)
Lemma loop_pages_later (images : list string) :
  forall i, (0 < i)%Z ->
  filter is_crop_call (hd [] (pages (loop images i ++ [Save]))) = []
  /\ Forall (fun pg => filter is_crop_call pg = marks)
            (tl (pages (loop images i ++ [Save]))).
Proof.
  induction images as [ | img images IH ]; intros i Hi.
  - cbn. split; [ reflexivity | constructor ].
  - destruct (IH (i + 1)%Z ltac:(lia)) as [Hhd Htl].
    rewrite loop_cons, <- app_assoc. cbn [app].
    destruct (try_draw_is_image draw_error w h img
                (cell_x x0 dx ((i mod (rows * cols)) mod cols))
                (cell_y rows y0 dy (i mod (rows * cols) / cols)))
      as (_ & Hns & Hnc).
    destruct (i mod (rows * cols) =? 0)%Z.
    + rewrite start_eq.
      destruct (Z.gtb_spec i 0) as [ _ | Hle ]; [ | lia ].
      cbn [app pages hd tl]. split; [ reflexivity | ].
      rewrite <- !app_assoc.
      assert (Hrot : forall tr,
                 pages ((if rotated then [Translate 0 ph; Rotate 90] else [])
                        ++ tr)
                 = ((if rotated then [Translate 0 ph; Rotate 90] else [])
                    ++ hd [] (pages tr)) :: tl (pages tr)).
      { intros tr. apply pages_nobreak_app. destruct rotated; reflexivity. }
      rewrite Hrot. cbn [hd tl].
      rewrite app_assoc, (pages_nobreak_app _ _ decoration_no_break).
      cbn [hd tl]. rewrite (pages_cons_nobreak _ _ Hns). cbn [hd tl].
      constructor; [ | exact Htl ].
      rewrite filter_app, decoration_crop_calls_app. cbn [filter].
      rewrite Hnc, Hhd, app_nil_r.
      destruct rotated; reflexivity.
    + cbn [app]. rewrite (pages_cons_nobreak _ _ Hns). cbn [hd tl filter].
      rewrite Hnc. now split.
Qed.

(** With at least one image every page of the loop, the last one
    included, holds the marks of the whole grid. *)
Lemma loop_pages_marks (images : list string) (pre : list event) :
  images <> [] ->
  forallb (fun e => negb (is_show_page e)) pre = true ->
  filter is_crop_call pre = [] ->
  Forall (fun pg => filter is_crop_call pg = marks)
         (pages (pre ++ loop images 0 ++ [Save])).
Proof.
  intros Hne Hpre Hcrop.
  destruct images as [ | img images ]; [ now contradiction Hne | ].
  destruct (loop_pages_later images 1 ltac:(lia)) as [Hhd Htl].
  rewrite loop_cons, Zmod_0_l. cbn [Z.eqb].
  rewrite start_eq. cbn [Z.gtb Z.compare app].
  change (0 + 1)%Z with 1%Z.
  destruct (try_draw_is_image draw_error w h img
              (cell_x x0 dx (0 mod cols)) (cell_y rows y0 dy (0 / cols)))
    as (_ & Hns & Hnc).
  rewrite <- app_assoc. cbn [app].
  rewrite (pages_nobreak_app _ _ Hpre). cbn [hd tl].
  rewrite (pages_nobreak_app _ _ decoration_no_break). cbn [hd tl].
  rewrite (pages_cons_nobreak _ _ Hns). cbn [hd tl].
  constructor; [ | exact Htl ].
  rewrite filter_app, Hcrop, decoration_crop_calls_app. cbn [filter app].
  rewrite Hnc, Hhd. now rewrite app_nil_r.
Qed.

End CropMarks.

Lemma range_length (n : Z) : List.length (range n) = Z.to_nat n.
Proof. unfold range. now rewrite length_map, length_seq. Qed.

Lemma In_range (n k : Z) : In k (range n) <-> (0 <= k < n)%Z.
Proof.
  unfold range. rewrite in_map_iff. split.
  - intros (m & <- & Hm). apply in_seq in Hm. lia.
  - intros Hk. exists (Z.to_nat k). split; [ lia | ].
    apply in_seq. lia.
Qed.

Lemma flat_map_count {A : Type} (p : event -> bool) (f : A -> list event)
    (k : nat) (l : list A) :
  (forall a, List.length (filter p (f a)) = k) ->
  List.length (filter p (flat_map f l)) = (k * List.length l)%nat.
Proof.
  intros Hf. induction l as [ | a l IH ]; cbn [flat_map List.length].
  - cbn. lia.
  - rewrite filter_app, length_app, Hf, IH. lia.
Qed.

(** Eight segments for each cell of the grid. *)
Lemma page_crop_marks_count (rows cols : Z) (x0 y0 w h dx dy : Q) :
  (0 <= rows)%Z -> (0 <= cols)%Z ->
  Z.of_nat (List.length
              (filter is_line (page_crop_marks rows cols x0 y0 w h dx dy)))
  = (8 * (rows * cols))%Z.
Proof.
  intros Hr Hc. unfold page_crop_marks.
  rewrite (flat_map_count is_line _ (8 * Z.to_nat cols)).
  - rewrite range_length. nia.
  - intros r. rewrite (flat_map_count is_line _ 8).
    + now rewrite range_length.
    + intros c. reflexivity.
Qed.

(** The marks of a cell are among the marks of the page. *)
Lemma page_crop_marks_cell (rows cols : Z) (x0 y0 w h dx dy : Q) (r c : Z) :
  (0 <= r < rows)%Z -> (0 <= c < cols)%Z ->
  incl (draw_crop_marks (cell_x x0 dx c) (cell_y rows y0 dy r) w h
          (5 * mm) (0 * mm))
       (page_crop_marks rows cols x0 y0 w h dx dy).
Proof.
  intros Hr Hc e He. unfold page_crop_marks.
  apply in_flat_map. exists r. split; [ now apply In_range | ].
  apply in_flat_map. exists c. split; [ now apply In_range | exact He ].
Qed.

(** The eight segments of a cell start at its corners and point away from
    it. *)
Lemma crop_marks_outside (x y w h mark_len offset : Q) :
  0 <= mark_len -> 0 <= offset ->
  Forall (outside_cell x y w h) (draw_crop_marks x y w h mark_len offset).
Proof.
  intros Hl Ho. unfold draw_crop_marks.
  repeat apply Forall_cons; try apply Forall_nil;
    cbn [outside_cell]; try exact I.
  - left. split; lra.
  - left. split; lra.
  - right; left. split; lra.
  - right; left. split; lra.
  - left. split; lra.
  - left. split; lra.
  - right; left. split; lra.
  - right; left. split; lra.
Qed.

Lemma filter_line_of_crop_calls (l : list event) :
  filter is_line (filter is_crop_call l) = filter is_line l.
Proof.
  induction l as [ | e l IH ]; [ reflexivity | ].
  destruct e; cbn [filter is_crop_call is_line]; rewrite ?IH; reflexivity.
Qed.

Lemma filter_flat_map {A : Type} (p : event -> bool) (f : A -> list event)
    (l : list A) :
  filter p (flat_map f l) = flat_map (fun a => filter p (f a)) l.
Proof.
  induction l as [ | a l IH ]; [ reflexivity | ].
  cbn [flat_map]. now rewrite filter_app, IH.
Qed.

Lemma Forall2_flat_map {A : Type} (R : event -> event -> Prop)
    (f g : A -> list event) (l : list A) :
  (forall a, Forall2 R (f a) (g a)) ->
  Forall2 R (flat_map f l) (flat_map g l).
Proof.
  intros H. induction l as [ | a l IH ]; [ constructor | ].
  cbn [flat_map]. now apply Forall2_app.
Qed.

(** The eight segments [draw_crop_marks] draws for a cell, with the offset
    of [make_pdf], are the corner marks of that cell. *)
Lemma cell_marks_segments (x y w h len : Q) :
  Forall2 same_segment
          (filter is_line (draw_crop_marks x y w h len (0 * mm)))
          (corner_marks x y w h len).
Proof.
  unfold draw_crop_marks, corner_marks.
  cbn [filter is_line flat_map app].
  repeat apply Forall2_cons; try apply Forall2_nil; cbn [same_segment];
    first [ left; repeat split; ring | right; repeat split; ring ].
Qed.

Lemma page_marks_segments (rows cols : Z) (x0 y0 w h dx dy : Q) :
  Forall2 same_segment
          (filter is_line (page_crop_marks rows cols x0 y0 w h dx dy))
          (grid_marks rows cols x0 y0 w h dx dy (5 * mm)).
Proof.
  unfold page_crop_marks, grid_marks.
  rewrite filter_flat_map. apply Forall2_flat_map. intros r.
  rewrite filter_flat_map. apply Forall2_flat_map. intros c.
  apply cell_marks_segments.
Qed.

(** C5.  With crop marks enabled and at least one image, every page of
    the document, the last and partially filled one included, holds the
    crop calls of the whole grid and no others.  The segments drawn on a
    page are, one for one, the marks of the [rows*cols] cells: for each
    cell, at each of its four corners, a horizontal and a vertical segment
    of 5 mm that start at the corner and point away from the cell; eight
    segments a cell, each outside the cell it marks.  The number of images
    on the page plays no part. *)
Theorem crop_marks_cover_every_page
    (draw_error : string -> option string) (images : list string)
    (out_path : string) (paper_size : Q * Q) (margin_mm gap_mm : Q)
    (o : orientation) (black_borders : bool)
    (c1 : list event) (rows cols : Z) (x0 y0 : Q) (rotated : bool) (ph : Q) :
  make_pdf_grid paper_size margin_mm gap_mm o
  = (c1, Ok (rows, cols, x0, y0, rotated, ph)) ->
  images <> [] ->
  let w := CARD_W_MM * mm in
  let h := CARD_H_MM * mm in
  let dx := w + gap_mm * mm in
  let dy := h + gap_mm * mm in
  let marks := page_crop_marks rows cols x0 y0 w h dx dy in
  Forall (fun pg => filter is_crop_call pg = marks)
         (pages (fst (make_pdf draw_error images out_path paper_size
                        margin_mm gap_mm true o black_borders)))
  /\ Forall (fun pg =>
               Forall2 same_segment (filter is_line pg)
                       (grid_marks rows cols x0 y0 w h dx dy (5 * mm)))
            (pages (fst (make_pdf draw_error images out_path paper_size
                           margin_mm gap_mm true o black_borders)))
  /\ Z.of_nat (List.length (filter is_line marks)) = (8 * (rows * cols))%Z
  /\ (forall r c, (0 <= r < rows)%Z -> (0 <= c < cols)%Z ->
        let x := cell_x x0 dx c in
        let y := cell_y rows y0 dy r in
        incl (draw_crop_marks x y w h (5 * mm) (0 * mm)) marks
        /\ Forall (outside_cell x y w h)
                  (draw_crop_marks x y w h (5 * mm) (0 * mm))
        /\ Forall (outside_cell x y w h) (corner_marks x y w h (5 * mm))).
Proof.
  intros E Hne w h dx dy marks.
  assert (Hge : (1 <= rows)%Z /\ (1 <= cols)%Z).
  { destruct paper_size as [pw0 ph0]. unfold make_pdf_grid in E.
    destruct (compute_grid pw0 ph0 margin_mm gap_mm o)
      as [[[[[r c] x] y] [ | ]] | e] eqn:E1; [ | | discriminate E ].
    - destruct (compute_grid ph0 pw0 margin_mm gap_mm Portrait)
        as [[[[[r' c'] x'] y'] rot'] | e'] eqn:E2; [ | discriminate E ].
      injection E as _ <- <- _ _ _ _.
      now apply compute_grid_ge1 in E2.
    - injection E as _ <- <- _ _ _ _.
      now apply compute_grid_ge1 in E1. }
  destruct Hge as [Hr Hc].
  assert (Hpages :
            Forall (fun pg => filter is_crop_call pg = marks)
                   (pages (fst (make_pdf draw_error images out_path
                                  paper_size margin_mm gap_mm true o
                                  black_borders)))).
  { unfold make_pdf. rewrite E. cbn [fst].
    pose proof (make_pdf_grid_calls paper_size margin_mm gap_mm o) as Hc1.
    rewrite E in Hc1. cbn [fst] in Hc1.
    rewrite app_assoc.
    apply loop_pages_marks; [ exact Hne | | ];
      destruct Hc1 as [-> | [t ->]]; reflexivity. }
  split; [ exact Hpages | ].
  split; [ | split ].
  - revert Hpages. apply Forall_impl. intros pg Hpg.
    rewrite <- filter_line_of_crop_calls, Hpg.
    apply page_marks_segments.
  - apply page_crop_marks_count; lia.
  - intros r c Hrr Hcc x y.
    pose proof mm_pos as Hmm.
    split; [ now apply page_crop_marks_cell | ].
    split.
    + apply crop_marks_outside; lra.
    + unfold corner_marks. cbn [flat_map app].
      repeat apply Forall_cons; try apply Forall_nil; cbn [outside_cell];
        first [ left; split; lra
              | right; left; split; lra
              | right; right; left; split; lra
              | right; right; right; split; lra ].
Qed.

Lemma crop_marks_cover_every_page_witness :
  let w := CARD_W_MM * mm in
  let h := CARD_H_MM * mm in
  let dx := w + 3 * mm in
  let dy := h + 3 * mm in
  let x0 := (210 * mm - (inject_Z 3 * CARD_W_MM * mm
                         + (inject_Z 3 - 1) * 3 * mm)) / 2 in
  let y0 := (297 * mm - (inject_Z 3 * CARD_H_MM * mm
                         + (inject_Z 3 - 1) * 3 * mm)) / 2 in
  let marks := page_crop_marks 3 3 x0 y0 w h dx dy in
  Forall (fun pg => filter is_crop_call pg = marks)
         (pages (fst (make_pdf third_fails ten_images "cards_print.pdf" A4
                        5 3 true Auto false)))
  /\ Forall (fun pg =>
               Forall2 same_segment (filter is_line pg)
                       (grid_marks 3 3 x0 y0 w h dx dy (5 * mm)))
            (pages (fst (make_pdf third_fails ten_images "cards_print.pdf"
                           A4 5 3 true Auto false)))
  /\ Z.of_nat (List.length (filter is_line marks)) = (8 * (3 * 3))%Z
  /\ (forall r c, (0 <= r < 3)%Z -> (0 <= c < 3)%Z ->
        let x := cell_x x0 dx c in
        let y := cell_y 3 y0 dy r in
        incl (draw_crop_marks x y w h (5 * mm) (0 * mm)) marks
        /\ Forall (outside_cell x y w h)
                  (draw_crop_marks x y w h (5 * mm) (0 * mm))
        /\ Forall (outside_cell x y w h) (corner_marks x y w h (5 * mm))).
Proof.
  apply (crop_marks_cover_every_page third_fails ten_images "cards_print.pdf"
           A4 5 3 Auto false [] 3 3 _ _ false (297 * mm));
    [ reflexivity | discriminate ].
Defined.

(** * Further properties *)

(** ** Listing the images *)

Lemma runs_alternate (runs : list (list ascii * list ascii)) :
  alternates false
    (flat_map (fun '(d, t') => [KInt (digits_val d); KStr (lower t')]) runs)
  = true.
Proof.
  induction runs as [ | [d t'] runs IH ]; [ reflexivity | ].
  cbn [flat_map app alternates negb andb]. exact IH.
Qed.

Lemma natural_key_alternates (s : list ascii) :
  alternates true (natural_key s) = true.
Proof.
  unfold natural_key. destruct (split_digits s) as [t runs].
  cbn [alternates andb]. apply runs_alternate.
Qed.

Lemma key_lt_defined (a : list key_part) :
  forall (want_str : bool) (b : list key_part),
    alternates want_str a = true -> alternates want_str b = true ->
    exists r, key_lt a b = Some r.
Proof.
  induction a as [ | x a IH ]; intros want_str b Ha Hb.
  - destruct b; eexists; reflexivity.
  - destruct b as [ | y b ]; [ eexists; reflexivity | ].
    cbn [key_lt].
    destruct x as [s | n], y as [t | m], want_str;
      cbn [alternates negb andb] in Ha, Hb; try discriminate;
      cbn [part_eqb part_lt].
    + destruct (text s =? text t)%string; [ | eexists; reflexivity ].
      now apply (IH false).
    + destruct (n =? m)%Z; [ | eexists; reflexivity ].
      now apply (IH true).
Qed.

Lemma natural_keys_alternate_lt (s t : list ascii) :
  exists r, key_lt (natural_key s) (natural_key t) = Some r.
Proof.
  apply (key_lt_defined _ true); apply natural_key_alternates.
Qed.

(** X1.  The elements of a natural key alternate between lower-cased texts
    and numbers, a text first; so the keys of any two names compare, and
    the comparison that [sorted] makes never meets an int and a str. *)
Theorem natural_keys_comparable (s t : list ascii) :
  alternates true (natural_key s) = true
  /\ exists r, key_lt (natural_key s) (natural_key t) = Some r.
Proof.
  split; [ apply natural_key_alternates | ].
  apply natural_keys_alternate_lt.
Qed.

Lemma lower_char_digit (c : ascii) : is_digit (lower_char c) = is_digit c.
Proof. destruct c as [[] [] [] [] [] [] [] []]; reflexivity. Qed.

Lemma lower_char_idem (c : ascii) : lower_char (lower_char c) = lower_char c.
Proof. destruct c as [[] [] [] [] [] [] [] []]; reflexivity. Qed.

Lemma lower_digit_same (c : ascii) : is_digit c = true -> lower_char c = c.
Proof. destruct c as [[] [] [] [] [] [] [] []]; try reflexivity; discriminate. Qed.

Lemma lower_idem (s : list ascii) : lower (lower s) = lower s.
Proof.
  unfold lower. rewrite map_map. apply map_ext. apply lower_char_idem.
Qed.

(** Lower-casing a name lower-cases its texts and leaves its runs of
    digits as they are. *)
Lemma split_digits_lower (s : list ascii) :
  split_digits (lower s)
  = (lower (fst (split_digits s)),
     map (fun '(d, t) => (d, lower t)) (snd (split_digits s))).
Proof.
  induction s as [ | c s IH ]; [ reflexivity | ].
  cbn [lower map split_digits]. fold (lower s). rewrite IH.
  destruct (split_digits s) as [t runs]. cbn [fst snd].
  rewrite lower_char_digit.
  destruct (is_digit c) eqn:Hc; [ | reflexivity ].
  rewrite (lower_digit_same c Hc).
  destruct t as [ | a t ]; [ | reflexivity ].
  destruct runs as [ | [d t'] runs ]; reflexivity.
Qed.

Lemma natural_key_lower (s : list ascii) :
  natural_key (lower s) = natural_key s.
Proof.
  unfold natural_key. rewrite split_digits_lower.
  destruct (split_digits s) as [t runs]. cbn [fst snd].
  rewrite lower_idem. f_equal.
  induction runs as [ | [d t'] runs IH ]; [ reflexivity | ].
  cbn [map flat_map app]. rewrite lower_idem, IH. reflexivity.
Qed.

(** X2.  [natural_key] does not see the case of letters: two names that
    differ only in case have the same key (and keep their listing order
    when sorted). *)
Theorem natural_key_ignores_case (s t : list ascii) :
  lower s = lower t -> natural_key s = natural_key t.
Proof.
  intros E. rewrite <- (natural_key_lower s), <- (natural_key_lower t).
  now rewrite E.
Qed.

Lemma natural_key_ignores_case_witness :
  natural_key (list_ascii_of_string "IMG7.png")
  = natural_key (list_ascii_of_string "img7.PNG").
Proof.
  apply (natural_key_ignores_case (list_ascii_of_string "IMG7.png")
           (list_ascii_of_string "img7.PNG")).
  reflexivity.
Defined.

Lemma split_digits_text (t u : list ascii) :
  forallb (fun c => negb (is_digit c)) t = true ->
  split_digits (t ++ u)
  = (t ++ fst (split_digits u), snd (split_digits u)).
Proof.
  induction t as [ | c t IH ]; cbn [forallb app]; intros H.
  - now destruct (split_digits u).
  - apply andb_true_iff in H as [Hc Ht]. apply negb_true_iff in Hc.
    cbn [split_digits]. rewrite (IH Ht), Hc. reflexivity.
Qed.

Lemma split_digits_run (d u : list ascii) :
  forallb is_digit d = true -> d <> [] -> stops is_digit u ->
  split_digits (d ++ u)
  = ([], (d, fst (split_digits u)) :: snd (split_digits u)).
Proof.
  intros Hd Hne Hu.
  induction d as [ | c d IH ]; [ now contradiction Hne | ].
  cbn [forallb] in Hd. apply andb_true_iff in Hd as [Hc Hd].
  cbn [app split_digits]. rewrite Hc.
  destruct d as [ | c' d ].
  - cbn [app].
    destruct u as [ | a u ]; [ reflexivity | ].
    cbn in Hu. cbn [split_digits]. rewrite Hu.
    destruct (split_digits u) as [t runs]. reflexivity.
  - rewrite (IH Hd ltac:(discriminate)). reflexivity.
Qed.

(** The key of a text without digits, a run of digits and a rest that
    does not go on with a digit. *)
Lemma natural_key_number (t d u : list ascii) :
  forallb (fun c => negb (is_digit c)) t = true ->
  forallb is_digit d = true -> d <> [] -> stops is_digit u ->
  natural_key (t ++ d ++ u)
  = KStr (lower t) :: KInt (digits_val d) :: natural_key u.
Proof.
  intros Ht Hd Hne Hu. unfold natural_key.
  rewrite (split_digits_text _ _ Ht), (split_digits_run _ _ Hd Hne Hu).
  cbn [fst snd flat_map app]. rewrite app_nil_r.
  destruct (split_digits u) as [tu runs]. reflexivity.
Qed.

(** X3.  Numbers in ASCII names order by value, not by their digits: of
    two names with the same text before a number, the one with the
    smaller number sorts first; when the numbers are equal (leading zeros
    do not count) the rest of the names decides. *)
Theorem numbers_order_by_value (t d1 d2 u1 u2 : list ascii) :
  forallb is_ascii t = true -> forallb is_ascii u1 = true ->
  forallb is_ascii u2 = true ->
  forallb (fun c => negb (is_digit c)) t = true ->
  forallb is_digit d1 = true -> d1 <> [] -> stops is_digit u1 ->
  forallb is_digit d2 = true -> d2 <> [] -> stops is_digit u2 ->
  ((digits_val d1 < digits_val d2)%Z ->
   key_lt (natural_key (t ++ d1 ++ u1)) (natural_key (t ++ d2 ++ u2))
   = Some true)
  /\ (digits_val d1 = digits_val d2 ->
      key_lt (natural_key (t ++ d1 ++ u1)) (natural_key (t ++ d2 ++ u2))
      = key_lt (natural_key u1) (natural_key u2)).
Proof.
  intros _ _ _ Ht Hd1 Hn1 Hu1 Hd2 Hn2 Hu2.
  rewrite (natural_key_number _ _ _ Ht Hd1 Hn1 Hu1).
  rewrite (natural_key_number _ _ _ Ht Hd2 Hn2 Hu2).
  cbn [key_lt part_eqb part_lt]. rewrite String.eqb_refl.
  split; intros Hv.
  - destruct (Z.eqb_spec (digits_val d1) (digits_val d2)); [ lia | ].
    f_equal. now apply Z.ltb_lt.
  - rewrite Hv, Z.eqb_refl. reflexivity.
Qed.

Lemma numbers_order_by_value_witness :
  ((digits_val (list_ascii_of_string "2")
    < digits_val (list_ascii_of_string "10"))%Z ->
   key_lt (natural_key (list_ascii_of_string "img" ++ list_ascii_of_string "2"
                        ++ list_ascii_of_string ".png"))
          (natural_key (list_ascii_of_string "img" ++ list_ascii_of_string "10"
                        ++ list_ascii_of_string ".png"))
   = Some true)
  /\ (digits_val (list_ascii_of_string "2")
      = digits_val (list_ascii_of_string "10") ->
      key_lt (natural_key (list_ascii_of_string "img" ++ list_ascii_of_string "2"
                           ++ list_ascii_of_string ".png"))
             (natural_key (list_ascii_of_string "img"
                           ++ list_ascii_of_string "10"
                           ++ list_ascii_of_string ".png"))
      = key_lt (natural_key (list_ascii_of_string ".png"))
               (natural_key (list_ascii_of_string ".png"))).
Proof.
  apply (numbers_order_by_value (list_ascii_of_string "img")
           (list_ascii_of_string "2") (list_ascii_of_string "10")
           (list_ascii_of_string ".png") (list_ascii_of_string ".png"));
    try reflexivity; discriminate.
Defined.

Lemma insert_by_key_total (x : list ascii) (l : list (list ascii)) :
  exists r, insert_by_key x l = Some r.
Proof.
  induction l as [ | y l [r IH] ]; [ eexists; reflexivity | ].
  cbn [insert_by_key].
  destruct (natural_keys_alternate_lt y x) as [[ | ] ->].
  - rewrite IH. eexists; reflexivity.
  - eexists; reflexivity.
Qed.

Lemma sorted_by_key_total (names : list (list ascii)) :
  exists r, sorted_by_key names = Some r.
Proof.
  induction names as [ | x names [r IH] ]; [ eexists; reflexivity | ].
  cbn [sorted_by_key]. rewrite IH. apply insert_by_key_total.
Qed.

Lemma insert_by_key_perm (x : list ascii) (l r : list (list ascii)) :
  insert_by_key x l = Some r -> Permutation (x :: l) r.
Proof.
  revert r. induction l as [ | y l IH ]; intros r; cbn [insert_by_key].
  - intros E; injection E as <-. apply Permutation_refl.
  - destruct (key_lt (natural_key y) (natural_key x)) as [[ | ] | ];
      [ | | discriminate ].
    + destruct (insert_by_key x l) as [r' | ]; [ | discriminate ].
      intros E; injection E as <-.
      apply perm_trans with (y :: x :: l); [ apply perm_swap | ].
      apply perm_skip. now apply IH.
    + intros E; injection E as <-. apply Permutation_refl.
Qed.

Lemma sorted_by_key_perm (names r : list (list ascii)) :
  sorted_by_key names = Some r -> Permutation names r.
Proof.
  revert r. induction names as [ | x names IH ]; intros r;
    cbn [sorted_by_key].
  - intros E; injection E as <-. apply perm_nil.
  - destruct (sorted_by_key names) as [r' | ]; [ | discriminate ].
    intros E. apply insert_by_key_perm in E.
    apply perm_trans with (x :: r'); [ | exact E ].
    apply perm_skip. now apply IH.
Qed.

Lemma filter_perm {A : Type} (p : A -> bool) (l l' : list A) :
  Permutation l l' -> Permutation (filter p l) (filter p l').
Proof.
  induction 1 as [ | a l l' _ IH | a b l | l l' l'' _ IH1 _ IH2 ];
    cbn [filter].
  - apply perm_nil.
  - destruct (p a); [ now apply perm_skip | exact IH ].
  - destruct (p a), (p b); try apply Permutation_refl. apply perm_swap.
  - now apply perm_trans with (filter p l').
Qed.

Lemma str_ltb_asym (s : list ascii) :
  forall t, str_ltb s t = true -> str_ltb t s = false.
Proof.
  induction s as [ | a s IH ]; intros [ | b t ]; cbn [str_ltb];
    try reflexivity; try discriminate.
  destruct (nat_of_ascii a <? nat_of_ascii b)%nat eqn:Hab.
  - intros _. apply Nat.ltb_lt in Hab.
    destruct (Nat.ltb_spec (nat_of_ascii b) (nat_of_ascii a)); [ lia | ].
    reflexivity.
  - destruct (nat_of_ascii b <? nat_of_ascii a)%nat; [ discriminate | ].
    apply IH.
Qed.

Lemma part_eqb_sym (x y : key_part) : part_eqb x y = part_eqb y x.
Proof.
  destruct x, y; cbn [part_eqb]; try reflexivity.
  - apply String.eqb_sym.
  - apply Z.eqb_sym.
Qed.

(** [<] on keys is asymmetric. *)
Lemma key_lt_asym (a : list key_part) :
  forall b, key_lt a b = Some true -> key_lt b a = Some false.
Proof.
  induction a as [ | x a IH ]; intros [ | y b ]; cbn [key_lt];
    try reflexivity; try discriminate.
  rewrite (part_eqb_sym y x).
  destruct (part_eqb x y); [ apply IH | ].
  destruct x as [s | n], y as [t | m]; cbn [part_lt]; try discriminate.
  - intros E; injection E as E. now rewrite (str_ltb_asym _ _ E).
  - intros E; injection E as E. apply Z.ltb_lt in E.
    f_equal. apply Z.ltb_ge. lia.
Qed.

Lemma insert_by_key_sorted (x : list ascii) (l r : list (list ascii)) :
  Sorted key_le l -> insert_by_key x l = Some r -> Sorted key_le r.
Proof.
  revert r. induction l as [ | y l IH ]; intros r Hs; cbn [insert_by_key].
  - intros E; injection E as <-. repeat constructor.
  - destruct (key_lt (natural_key y) (natural_key x)) as [[ | ] | ] eqn:Hyx;
      [ | | discriminate ].
    + destruct (insert_by_key x l) as [r' | ] eqn:Er; [ | discriminate ].
      intros E; injection E as <-.
      apply Sorted_inv in Hs as [Hs Hhd].
      constructor; [ now apply IH | ].
      destruct l as [ | z l ]; cbn [insert_by_key] in Er.
      * injection Er as <-. constructor.
        unfold key_le. now apply key_lt_asym.
      * destruct (key_lt (natural_key z) (natural_key x)) as [[ | ] | ];
          [ | | discriminate ].
        -- destruct (insert_by_key x l); [ | discriminate ].
           injection Er as <-. constructor. now apply HdRel_inv in Hhd.
        -- injection Er as <-. constructor.
           unfold key_le. now apply key_lt_asym.
    + intros E; injection E as <-.
      constructor; [ exact Hs | ]. constructor. exact Hyx.
Qed.

Lemma sorted_by_key_sorted (names r : list (list ascii)) :
  sorted_by_key names = Some r -> Sorted key_le r.
Proof.
  revert r. induction names as [ | x names IH ]; intros r;
    cbn [sorted_by_key].
  - intros E; injection E as <-. constructor.
  - destruct (sorted_by_key names) as [r' | ]; [ | discriminate ].
    apply insert_by_key_sorted. now apply IH.
Qed.

(** X4.  On a listing of ASCII names [list_images] returns: no key fails
    to be built and no comparison of two keys fails.  What it returns is,
    up to order, the names of the listing that have an image extension,
    each joined to the folder: nothing else, and none of them lost or
    doubled by the sort. *)
Theorem list_images_keeps_the_images (folder : string) (listing : list string) :
  ascii_names listing = true ->
  exists files,
    list_images folder listing = Some files
    /\ Permutation
         (map (fun name => text (path_join (list_ascii_of_string folder) name))
              (filter has_image_ext (map list_ascii_of_string listing)))
         files.
Proof.
  intros _. unfold list_images.
  destruct (sorted_by_key_total (map list_ascii_of_string listing))
    as [names E].
  rewrite E. eexists. split; [ reflexivity | ].
  apply Permutation_map, filter_perm. now apply sorted_by_key_perm.
Qed.

Lemma list_images_keeps_the_images_witness :
  exists files,
    list_images "cards" ["img10.png"; "notes.txt"; "img2.PNG"] = Some files
    /\ Permutation
         (map (fun name => text (path_join (list_ascii_of_string "cards") name))
              (filter has_image_ext
                 (map list_ascii_of_string
                    ["img10.png"; "notes.txt"; "img2.PNG"])))
         files.
Proof.
  apply (list_images_keeps_the_images "cards"
           ["img10.png"; "notes.txt"; "img2.PNG"]).
  reflexivity.
Defined.

Lemma filter_sorted (p : list ascii -> bool) (l : list (list ascii)) :
  StronglySorted key_le l -> StronglySorted key_le (filter p l).
Proof.
  induction 1 as [ | a l Hs IH Ha ]; cbn [filter]; [ constructor | ].
  destruct (p a); [ | exact IH ].
  constructor; [ exact IH | ].
  apply Forall_forall. intros y Hy. apply filter_In in Hy as [Hy _].
  revert y Hy. now apply Forall_forall.
Qed.

Lemma text_inj (s t : list ascii) : text s = text t -> s = t.
Proof.
  unfold text. intros E.
  rewrite <- (list_ascii_of_string_of_list_ascii s),
          <- (list_ascii_of_string_of_list_ascii t).
  now rewrite E.
Qed.

Lemma str_ltb_irrefl (s : list ascii) : str_ltb s s = false.
Proof.
  induction s as [ | a s IH ]; [ reflexivity | ].
  cbn [str_ltb]. now rewrite Nat.ltb_irrefl.
Qed.

Lemma nat_of_ascii_inj (a b : ascii) :
  nat_of_ascii a = nat_of_ascii b -> a = b.
Proof.
  intros E. rewrite <- (ascii_nat_embedding a), <- (ascii_nat_embedding b).
  now rewrite E.
Qed.

Lemma str_ltb_total (s : list ascii) :
  forall t, s = t \/ str_ltb s t = true \/ str_ltb t s = true.
Proof.
  induction s as [ | a s IH ]; intros [ | b t ]; cbn [str_ltb]; auto.
  destruct (Nat.ltb_spec (nat_of_ascii a) (nat_of_ascii b)) as [Hab | Hab];
    [ now right; left | ].
  destruct (Nat.ltb_spec (nat_of_ascii b) (nat_of_ascii a)) as [Hba | Hba];
    [ now right; right | ].
  assert (E : a = b) by (apply nat_of_ascii_inj; lia). subst b.
  destruct (IH t) as [-> | [H | H]]; auto.
Qed.

Lemma str_ltb_trans (s : list ascii) :
  forall t u, str_ltb s t = true -> str_ltb t u = true -> str_ltb s u = true.
Proof.
  induction s as [ | a s IH ]; intros [ | b t ] [ | c u ]; cbn [str_ltb];
    try reflexivity; try discriminate.
  destruct (Nat.ltb_spec (nat_of_ascii a) (nat_of_ascii b)) as [Hab | Hab].
  - intros _.
    destruct (Nat.ltb_spec (nat_of_ascii b) (nat_of_ascii c)) as [Hbc | Hbc].
    + intros _.
      destruct (Nat.ltb_spec (nat_of_ascii a) (nat_of_ascii c)); [ easy | lia ].
    + destruct (Nat.ltb_spec (nat_of_ascii c) (nat_of_ascii b));
        [ discriminate | ].
      intros _.
      destruct (Nat.ltb_spec (nat_of_ascii a) (nat_of_ascii c)); [ easy | lia ].
  - destruct (Nat.ltb_spec (nat_of_ascii b) (nat_of_ascii a)) as [Hba | Hba];
      [ discriminate | ].
    intros Hst.
    destruct (Nat.ltb_spec (nat_of_ascii b) (nat_of_ascii c)) as [Hbc | Hbc].
    + intros _.
      destruct (Nat.ltb_spec (nat_of_ascii a) (nat_of_ascii c)); [ easy | lia ].
    + destruct (Nat.ltb_spec (nat_of_ascii c) (nat_of_ascii b)) as [Hcb | Hcb];
        [ discriminate | ].
      intros Htu.
      destruct (Nat.ltb_spec (nat_of_ascii a) (nat_of_ascii c)); [ easy | ].
      destruct (Nat.ltb_spec (nat_of_ascii c) (nat_of_ascii a)); [ lia | ].
      now apply (IH t u).
Qed.

Lemma part_eqb_eq (x y : key_part) : part_eqb x y = true -> x = y.
Proof.
  destruct x as [s | n], y as [t | m]; cbn [part_eqb]; try discriminate.
  - intros E. apply String.eqb_eq, text_inj in E. now subst.
  - intros E. apply Z.eqb_eq in E. now subst.
Qed.

Lemma part_eqb_refl (x : key_part) : part_eqb x x = true.
Proof.
  destruct x; cbn [part_eqb]; [ apply String.eqb_refl | apply Z.eqb_refl ].
Qed.

Lemma part_lt_irrefl (x : key_part) : part_lt x x = Some false.
Proof.
  destruct x; cbn [part_lt]; f_equal;
    [ apply str_ltb_irrefl | apply Z.ltb_irrefl ].
Qed.

Lemma part_lt_trans (x y z : key_part) :
  part_lt x y = Some true -> part_lt y z = Some true ->
  part_lt x z = Some true.
Proof.
  destruct x as [s | n], y as [t | m], z as [u | k]; cbn [part_lt];
    try discriminate.
  - intros E1 E2. injection E1 as E1. injection E2 as E2.
    f_equal. now apply (str_ltb_trans s t u).
  - intros E1 E2. injection E1 as E1. injection E2 as E2.
    apply Z.ltb_lt in E1, E2. f_equal. apply Z.ltb_lt. lia.
Qed.

(** Two elements of the same kind are equal or one is before the other. *)
Lemma part_total (x y : key_part) :
  (exists r, part_lt x y = Some r) ->
  part_eqb x y = true \/ part_lt x y = Some true \/ part_lt y x = Some true.
Proof.
  destruct x as [s | n], y as [t | m]; cbn [part_eqb part_lt];
    intros [r E]; try discriminate.
  - destruct (str_ltb_total s t) as [-> | [H | H]].
    + left. apply String.eqb_refl.
    + right; left. now rewrite H.
    + right; right. now rewrite H.
  - destruct (Z.lt_total n m) as [H | [-> | H]].
    + right; left. f_equal. now apply Z.ltb_lt.
    + left. apply Z.eqb_refl.
    + right; right. f_equal. now apply Z.ltb_lt.
Qed.

Lemma same_kind (w : bool) (x y : key_part) (a b : list key_part) :
  alternates w (x :: a) = true -> alternates w (y :: b) = true ->
  (exists r, part_lt x y = Some r)
  /\ alternates (negb w) a = true /\ alternates (negb w) b = true.
Proof.
  destruct x, y, w; cbn [alternates negb andb part_lt];
    intros Ha Hb; try discriminate; repeat split; try assumption;
    eexists; reflexivity.
Qed.

(** If [a < c] then any key of the same shape is after [a] or before
    [c]. *)
Lemma key_lt_between (a : list key_part) :
  forall (w : bool) (b c : list key_part),
    alternates w a = true -> alternates w b = true ->
    alternates w c = true ->
    key_lt a c = Some true ->
    key_lt a b = Some true \/ key_lt b c = Some true.
Proof.
  induction a as [ | x a IH ]; intros w b c Ha Hb Hc Hac.
  - destruct c as [ | z c ]; [ discriminate Hac | ].
    destruct b as [ | y b ]; [ now right | now left ].
  - destruct c as [ | z c ]; [ discriminate Hac | ].
    destruct b as [ | y b ]; [ now right | ].
    destruct (same_kind w x y a b Ha Hb) as (Kxy & Ha' & Hb').
    destruct (same_kind w x z a c Ha Hc) as (Kxz & _ & Hc').
    cbn [key_lt] in Hac |- *.
    destruct (part_total x y Kxy) as [Exy | [Lxy | Lyx]].
    + (* x = y *)
      rewrite Exy. apply part_eqb_eq in Exy. subst y.
      destruct (part_eqb x z); [ | now right ].
      now apply (IH (negb w)).
    + (* x < y *)
      left. destruct (part_eqb x y) eqn:E; [ | exact Lxy ].
      apply part_eqb_eq in E. subst y.
      rewrite part_lt_irrefl in Lxy. discriminate.
    + (* y < x *)
      right.
      assert (Lyz : part_lt y z = Some true).
      { destruct (part_eqb x z) eqn:E.
        - apply part_eqb_eq in E. now subst z.
        - now apply (part_lt_trans y x z). }
      destruct (part_eqb y z) eqn:E; [ | exact Lyz ].
      apply part_eqb_eq in E. subst z.
      rewrite part_lt_irrefl in Lyz. discriminate.
Qed.

Lemma key_le_trans : Relations_1.Transitive key_le.
Proof.
  intros x y z Hxy Hyz. unfold key_le in *.
  destruct (natural_keys_alternate_lt z x) as [[ | ] E]; [ | exact E ].
  destruct (key_lt_between _ true (natural_key y) _
              (natural_key_alternates z) (natural_key_alternates y)
              (natural_key_alternates x) E) as [H | H]; congruence.
Qed.

(** X5.  The names [list_images] returns for a listing of ASCII names
    are in natural order: no name is followed, however far behind, by a
    name whose key is smaller. *)
Theorem list_images_in_natural_order (folder : string)
    (listing : list string) :
  ascii_names listing = true ->
  exists names,
    list_images folder listing
    = Some (map (fun name =>
                   text (path_join (list_ascii_of_string folder) name))
                names)
    /\ StronglySorted key_le names.
Proof.
  intros _. unfold list_images.
  destruct (sorted_by_key_total (map list_ascii_of_string listing))
    as [names E].
  rewrite E. eexists. split; [ reflexivity | ].
  apply filter_sorted, Sorted_StronglySorted; [ exact key_le_trans | ].
  now apply sorted_by_key_sorted in E.
Qed.

Lemma list_images_in_natural_order_witness :
  exists names,
    list_images "cards" ["img10.png"; "notes.txt"; "img2.PNG"]
    = Some (map (fun name =>
                   text (path_join (list_ascii_of_string "cards") name))
                names)
    /\ StronglySorted key_le names.
Proof.
  apply (list_images_in_natural_order "cards"
           ["img10.png"; "notes.txt"; "img2.PNG"]).
  reflexivity.
Defined.

Lemma sorted_by_key_ordered (l : list (list ascii)) :
  Sorted key_le l -> sorted_by_key l = Some l.
Proof.
  induction 1 as [ | x l Hs IH Hhd ]; [ reflexivity | ].
  cbn [sorted_by_key]. rewrite IH.
  destruct Hhd as [ | y l Hxy ]; [ reflexivity | ].
  cbn [insert_by_key]. unfold key_le in Hxy. now rewrite Hxy.
Qed.

(** X6.  The sort is stable: a listing of ASCII names that is already in
    natural order, names of equal key included, keeps its order, and
    [list_images] returns its image names in the order of the listing. *)
Theorem list_images_keeps_ordered_listing (folder : string)
    (listing : list string) :
  ascii_names listing = true ->
  Sorted key_le (map list_ascii_of_string listing) ->
  list_images folder listing
  = Some (map (fun name =>
                 text (path_join (list_ascii_of_string folder) name))
              (filter has_image_ext (map list_ascii_of_string listing))).
Proof.
  intros _ Hs. unfold list_images. now rewrite (sorted_by_key_ordered _ Hs).
Qed.

Lemma list_images_keeps_ordered_listing_witness :
  list_images "cards" ["img2.PNG"; "img02.png"; "img10.png"; "notes.txt"]
  = Some (map (fun name =>
                 text (path_join (list_ascii_of_string "cards") name))
              (filter has_image_ext
                 (map list_ascii_of_string
                    ["img2.PNG"; "img02.png"; "img10.png"; "notes.txt"]))).
Proof.
  apply (list_images_keeps_ordered_listing "cards"
           ["img2.PNG"; "img02.png"; "img10.png"; "notes.txt"]).
  - reflexivity.
  - repeat constructor.
Defined.

Lemma span_stop_head (p : ascii -> bool) (s a b : list ascii) (c : ascii) :
  span p s = (a, c :: b) -> p c = false.
Proof.
  revert a. induction s as [ | x s IH ]; intros a; cbn [span].
  - discriminate.
  - destruct (p x) eqn:Hx.
    + destruct (span p s) as [a' b'] eqn:E.
      intros H; injection H as <- ->. now apply (IH a').
    + intros H; injection H as <- <- <-. exact Hx.
Qed.

Lemma forallb_rev (p : ascii -> bool) (l : list ascii) :
  forallb p (rev l) = forallb p l.
Proof.
  apply eq_true_iff_eq. rewrite !forallb_forall. split; intros H x Hx;
    apply H; [ now apply in_rev in Hx | now apply in_rev ].
Qed.

Lemma existsb_rev (p : ascii -> bool) (l : list ascii) :
  existsb p (rev l) = existsb p l.
Proof.
  apply eq_true_iff_eq. rewrite !existsb_exists.
  split; intros (x & Hx & Px); exists x; (split; [ | exact Px ]);
    [ now apply in_rev | now apply in_rev in Hx ].
Qed.

Lemma existsb_false_forallb (p : ascii -> bool) (l : list ascii) :
  forallb (fun c => negb (p c)) l = true -> existsb p l = false.
Proof.
  induction l as [ | c l IH ]; cbn; [ reflexivity | ].
  intros H. apply andb_true_iff in H as [Hc Hl].
  apply negb_true_iff in Hc. now rewrite Hc, IH.
Qed.

Lemma forallb_same (p q : ascii -> bool) (l : list ascii) :
  (forall c, p c = q c) -> forallb p l = forallb q l.
Proof.
  intros H. induction l as [ | c l IH ]; cbn; [ reflexivity | ].
  now rewrite H, IH.
Qed.

Lemma span_all (p : ascii -> bool) (l : list ascii) :
  forallb p l = true -> span p l = (l, []).
Proof.
  intros H. rewrite <- (app_nil_r l) at 1. now apply span_stops.
Qed.

(** The extension of a name with a dot that has something other than
    dots before it, in a name without [/]. *)
Lemma splitext_ext_of (stem e' : list ascii) :
  forallb (fun c => negb (Ascii.eqb "/" c)) (stem ++ e') = true ->
  forallb (fun c => negb (Ascii.eqb c ".")) e' = true ->
  existsb (fun c => negb (Ascii.eqb c ".")) stem = true ->
  splitext_ext (stem ++ "."%char :: e') = "."%char :: e'.
Proof.
  intros Hsep Hdot Hstem. unfold splitext_ext.
  rewrite rev_app_distr. cbn [rev]. rewrite <- app_assoc. cbn [app].
  rewrite (span_stops (fun c => negb (Ascii.eqb c ".")) (rev e')
             ("."%char :: rev stem));
    [ | now rewrite forallb_rev | reflexivity ].
  rewrite forallb_app in Hsep. apply andb_true_iff in Hsep as [Hs1 Hs2].
  rewrite existsb_rev, (existsb_false_forallb _ _ Hs2).
  rewrite span_all.
  - cbn [fst]. rewrite existsb_rev, Hstem. f_equal. apply rev_involutive.
  - rewrite forallb_rev.
    rewrite (forallb_same _ (fun c => negb (Ascii.eqb "/" c)));
      [ exact Hs1 | ].
    intros c. now rewrite Ascii.eqb_sym.
Qed.

(** A non-empty extension is the end of the name, it starts at a dot and
    holds no other, and something other than dots comes before it. *)
Lemma splitext_ext_inv (p : list ascii) :
  forallb (fun c => negb (Ascii.eqb "/" c)) p = true ->
  splitext_ext p <> [] ->
  exists stem e',
    p = stem ++ "."%char :: e' /\ splitext_ext p = "."%char :: e'
    /\ forallb (fun c => negb (Ascii.eqb c ".")) e' = true
    /\ existsb (fun c => negb (Ascii.eqb c ".")) stem = true.
Proof.
  intros Hsep. unfold splitext_ext.
  destruct (span (fun c => negb (Ascii.eqb c ".")) (rev p)) as [e before] eqn:E.
  destruct before as [ | dot before' ]; [ intros H; now contradiction H | ].
  pose proof (span_stop_head _ _ _ _ _ E) as Hd.
  apply negb_false_iff, Ascii.eqb_eq in Hd. subst dot.
  apply span_spec in E as [Erev He].
  assert (Ep : p = rev before' ++ "."%char :: rev e).
  { rewrite <- (rev_involutive p), Erev, rev_app_distr. cbn [rev].
    now rewrite <- app_assoc. }
  destruct (existsb (Ascii.eqb "/") e); [ intros H; now contradiction H | ].
  assert (Hb : forallb (fun c => negb (Ascii.eqb c "/")) before' = true).
  { rewrite Ep, forallb_app in Hsep. apply andb_true_iff in Hsep as [H _].
    rewrite forallb_rev in H.
    rewrite (forallb_same _ (fun c => negb (Ascii.eqb "/" c)));
      [ exact H | ].
    intros c. now rewrite Ascii.eqb_sym. }
  rewrite (span_all _ _ Hb). cbn [fst].
  destruct (existsb (fun c => negb (Ascii.eqb c ".")) before') eqn:Hex;
    [ | intros H; now contradiction H ].
  intros _. exists (rev before'), (rev e).
  split; [ exact Ep | ]. split; [ reflexivity | ].
  split; [ now rewrite forallb_rev | now rewrite existsb_rev ].
Qed.

Lemma lower_char_dot (c : ascii) :
  Ascii.eqb (lower_char c) "." = Ascii.eqb c ".".
Proof. destruct c as [[] [] [] [] [] [] [] []]; reflexivity. Qed.

Lemma lower_dots (e : list ascii) :
  map (fun c => Ascii.eqb c ".") (lower e) = map (fun c => Ascii.eqb c ".") e.
Proof.
  unfold lower. rewrite map_map. apply map_ext. apply lower_char_dot.
Qed.

(** The four extensions start with a dot and hold no other. *)
Lemma image_ext_shape (e : list ascii) :
  In (text (lower e)) IMG_EXTS ->
  exists e', e = "."%char :: e'
             /\ forallb (fun c => negb (Ascii.eqb c ".")) e' = true.
Proof.
  intros Hin.
  assert (Hd : exists n,
             map (fun c => Ascii.eqb c ".") e = true :: repeat false n).
  { rewrite <- lower_dots.
    cbn [IMG_EXTS In] in Hin.
    destruct Hin as [H | [H | [H | [H | []]]]];
      change (text (list_ascii_of_string ?s)) with s in H;
      [ exists 3%nat | exists 3%nat | exists 4%nat | exists 4%nat ];
      symmetry in H;
      (apply (f_equal list_ascii_of_string) in H;
       unfold text in H; rewrite list_ascii_of_string_of_list_ascii in H;
       rewrite H; reflexivity). }
  destruct Hd as [n Hd].
  destruct e as [ | c e' ]; [ discriminate Hd | ].
  cbn [map] in Hd. injection Hd as Hc He.
  apply Ascii.eqb_eq in Hc. subst c.
  exists e'. split; [ reflexivity | ].
  clear -He. revert n He.
  induction e' as [ | c e' IH ]; intros n He; [ reflexivity | ].
  destruct n as [ | n ]; [ discriminate He | ].
  cbn [map repeat] in He. injection He as Hc He.
  cbn [forallb]. rewrite Hc. cbn [negb andb]. now apply (IH n).
Qed.

(** X7.  Which names are images: a name (without [/], as [os.listdir]
    gives them) is taken exactly when it ends, in any case, in [.png],
    [.jpg], [.jpeg] or [.webp] and something other than dots comes before
    that extension; a hidden file that is only an extension, such as
    [.png], is not taken. *)
Theorem has_image_ext_iff (name : list ascii) :
  forallb (fun c => negb (Ascii.eqb "/" c)) name = true ->
  has_image_ext name = true
  <-> exists stem e,
        name = stem ++ e /\ In (text (lower e)) IMG_EXTS
        /\ existsb (fun c => negb (Ascii.eqb c ".")) stem = true.
Proof.
  intros Hsep. unfold has_image_ext. rewrite existsb_exists. split.
  - intros (x & Hin & Hx). apply String.eqb_eq in Hx. subst x.
    assert (Hne : splitext_ext name <> []).
    { intros E. rewrite E in Hin. cbn in Hin.
      destruct Hin as [H | [H | [H | [H | []]]]]; discriminate H. }
    destruct (splitext_ext_inv name Hsep Hne)
      as (stem & e' & Ep & Ee & _ & Hstem).
    exists stem, ("."%char :: e').
    split; [ exact Ep | ]. split; [ now rewrite <- Ee | exact Hstem ].
  - intros (stem & e & -> & Hin & Hstem).
    destruct (image_ext_shape e Hin) as (e' & -> & Hdot).
    assert (Hsep' : forallb (fun c => negb (Ascii.eqb "/" c)) (stem ++ e')
                    = true).
    { rewrite forallb_app in Hsep |- *.
      apply andb_true_iff in Hsep as [H1 H2].
      cbn [forallb] in H2. apply andb_true_iff in H2 as [_ H2].
      now rewrite H1, H2. }
    rewrite (splitext_ext_of stem e' Hsep' Hdot Hstem).
    exists (text (lower ("."%char :: e'))).
    split; [ exact Hin | apply String.eqb_refl ].
Qed.

Lemma has_image_ext_iff_witness :
  has_image_ext (list_ascii_of_string "Forest 12.JPG") = true
  <-> exists stem e,
        list_ascii_of_string "Forest 12.JPG" = stem ++ e
        /\ In (text (lower e)) IMG_EXTS
        /\ existsb (fun c => negb (Ascii.eqb c ".")) stem = true.
Proof.
  apply (has_image_ext_iff (list_ascii_of_string "Forest 12.JPG")).
  reflexivity.
Defined.

Lemma filter_nil {A : Type} (p : A -> bool) (l : list A) :
  (forall x, In x l -> p x = false) -> filter p l = [].
Proof.
  induction l as [ | a l IH ]; cbn [filter]; intros H; [ reflexivity | ].
  rewrite (H a (or_introl eq_refl)). apply IH.
  intros x Hx. apply H. now right.
Qed.

(** X8.  A folder whose names are ASCII and none of them an image name
    (an empty folder included) ends the run: once the paper is resolved,
    [list_images] returns the empty list and [main] raises [SystemExit]
    before it creates a canvas, and prints nothing. *)
Theorem folder_without_images_exits
    (draw_error : string -> option string) (listing : list string)
    (a : args) (paper_size : Q * Q) :
  ascii_names listing = true ->
  resolve_paper (paper a) = Ok paper_size ->
  (forall name, In name listing ->
                has_image_ext (list_ascii_of_string name) = false) ->
  list_images (input_folder a) listing = Some []
  /\ main draw_error [] a
     = ([], Raise (SystemExit
                     "No images in the folder (supported: .png .jpg/.jpeg).")).
Proof.
  intros _ Hp Hno. unfold list_images.
  destruct (sorted_by_key_total (map list_ascii_of_string listing))
    as [names E].
  rewrite E. rewrite (filter_nil has_image_ext names).
  - split; [ reflexivity | ].
    unfold main. rewrite Hp. reflexivity.
  - intros x Hx. apply sorted_by_key_perm in E.
    apply (Permutation_in x (Permutation_sym E)) in Hx.
    apply in_map_iff in Hx as (name & <- & Hin). now apply Hno.
Qed.

Lemma folder_without_images_exits_witness :
  list_images (input_folder (default_args "a4")) ["notes.txt"; ".png"]
  = Some []
  /\ main all_load [] (default_args "a4")
     = ([], Raise (SystemExit
                     "No images in the folder (supported: .png .jpg/.jpeg).")).
Proof.
  apply (folder_without_images_exits all_load ["notes.txt"; ".png"]
           (default_args "a4") A4).
  - reflexivity.
  - reflexivity.
  - intros name [<- | [<- | []]]; reflexivity.
Defined.

(** ** More on the grid *)

Lemma attempt_values (margin_mm gap_mm pw ph : Q) (rows cols : Z) (x0 y0 : Q) :
  attempt margin_mm gap_mm pw ph = Ok (rows, cols, x0, y0) ->
  cols = Z.max 1 (Qfloor ((pw - 2 * margin_mm * mm + gap_mm * mm)
                          / (CARD_W_MM * mm + gap_mm * mm)))
  /\ rows = Z.max 1 (Qfloor ((ph - 2 * margin_mm * mm + gap_mm * mm)
                             / (CARD_H_MM * mm + gap_mm * mm)))
  /\ x0 = (pw - (inject_Z cols * CARD_W_MM * mm
                 + (inject_Z cols - 1) * gap_mm * mm)) / 2
  /\ y0 = (ph - (inject_Z rows * CARD_H_MM * mm
                 + (inject_Z rows - 1) * gap_mm * mm)) / 2.
Proof.
  unfold attempt, floordiv.
  destruct (Qeq_bool (CARD_W_MM * mm + gap_mm * mm) 0); [ discriminate | ].
  destruct (Qeq_bool (CARD_H_MM * mm + gap_mm * mm) 0); [ discriminate | ].
  cbn [bind]. intros E. injection E as <- <- <- <-. now repeat split.
Qed.

Lemma positive_pitch (gap_mm : Q) :
  0 < CARD_W_MM + gap_mm ->
  0 < CARD_W_MM * mm + gap_mm * mm /\ 0 < CARD_H_MM * mm + gap_mm * mm
  /\ ~ CARD_W_MM + gap_mm == 0 /\ ~ CARD_H_MM + gap_mm == 0.
Proof.
  intros H. pose proof mm_pos as Hmm.
  assert (Hh : 0 < CARD_H_MM + gap_mm).
  { unfold CARD_H_MM. unfold CARD_W_MM in H. lra. }
  repeat split.
  - setoid_replace (CARD_W_MM * mm + gap_mm * mm)
      with ((CARD_W_MM + gap_mm) * mm) by ring.
    apply Qmult_lt_0_compat; assumption.
  - setoid_replace (CARD_H_MM * mm + gap_mm * mm)
      with ((CARD_H_MM + gap_mm) * mm) by ring.
    apply Qmult_lt_0_compat; assumption.
  - intros E. rewrite E in H. discriminate H.
  - intros E. rewrite E in Hh. discriminate Hh.
Qed.


(** X10.  When the usable area holds a card (and the pitch is positive),
    the block is centred on the page and every cell of the grid lies
    inside the margins: the margin left free on one side equals that on
    the other, and no card reaches into it. *)
Theorem cells_lie_inside_the_margins (margin_mm gap_mm pw ph : Q) :
  0 < CARD_W_MM + gap_mm ->
  CARD_W_MM * mm <= pw - 2 * margin_mm * mm ->
  CARD_H_MM * mm <= ph - 2 * margin_mm * mm ->
  exists rows cols x0 y0,
    attempt margin_mm gap_mm pw ph = Ok (rows, cols, x0, y0)
    /\ (let w := CARD_W_MM * mm in
        let h := CARD_H_MM * mm in
        let dx := w + gap_mm * mm in
        let dy := h + gap_mm * mm in
        x0 == pw - (cell_x x0 dx (cols - 1) + w)
        /\ y0 == ph - (cell_y rows y0 dy 0 + h)
        /\ forall r c, (0 <= r < rows)%Z -> (0 <= c < cols)%Z ->
             margin_mm * mm <= cell_x x0 dx c
             /\ cell_x x0 dx c + w <= pw - margin_mm * mm
             /\ margin_mm * mm <= cell_y rows y0 dy r
             /\ cell_y rows y0 dy r + h <= ph - margin_mm * mm).
Proof.
  intros Hpos Huw Huh.
  destruct (positive_pitch gap_mm Hpos) as (Pw & Ph & Nw & Nh).
  destruct (attempt_spec margin_mm gap_mm pw ph Nw Nh)
    as (rows & cols & x0 & y0 & E & Hr & Hc & Fw & Fh).
  specialize (Fw Huw). specialize (Fh Huh).
  exists rows, cols, x0, y0. split; [ exact E | ].
  apply attempt_values in E as (_ & _ & Ex & Ey).
  intros w h dx dy.
  assert (Ex' : 2 * x0 == pw - (inject_Z cols * w + (inject_Z cols - 1)
                                                    * (gap_mm * mm))).
  { rewrite Ex. unfold w. field. }
  assert (Ey' : 2 * y0 == ph - (inject_Z rows * h + (inject_Z rows - 1)
                                                    * (gap_mm * mm))).
  { rewrite Ey. unfold h. field. }
  clear Ex Ey. fold w in Fw, Pw. fold h in Fh, Ph. fold dx in Pw. fold dy in Ph.
  unfold cell_x, cell_y.
  assert (Ic : inject_Z (cols - 1) == inject_Z cols - 1).
  { unfold Z.sub. rewrite inject_Z_plus. reflexivity. }
  split; [ | split ].
  - rewrite Ic. unfold dx. lra.
  - change (inject_Z 0) with 0. unfold dy. lra.
  - intros r c [Hr0 Hr1] [Hc0 Hc1].
    assert (Qc0 : 0 <= inject_Z c * dx).
    { apply Qmult_le_0_compat; [ | lra ].
      change 0 with (inject_Z 0). now rewrite <- Zle_Qle. }
    assert (Qc1 : 0 <= (inject_Z cols - 1 - inject_Z c) * dx).
    { apply Qmult_le_0_compat; [ | lra ].
      assert (H : inject_Z c <= inject_Z (cols - 1))
        by (rewrite <- Zle_Qle; lia).
      rewrite Ic in H. lra. }
    assert (Qr0 : 0 <= inject_Z r * dy).
    { apply Qmult_le_0_compat; [ | lra ].
      change 0 with (inject_Z 0). now rewrite <- Zle_Qle. }
    assert (Qr1 : 0 <= (inject_Z rows - 1 - inject_Z r) * dy).
    { apply Qmult_le_0_compat; [ | lra ].
      assert (H : inject_Z r <= inject_Z (rows - 1))
        by (rewrite <- Zle_Qle; lia).
      assert (Ir : inject_Z (rows - 1) == inject_Z rows - 1).
      { unfold Z.sub. rewrite inject_Z_plus. reflexivity. }
      rewrite Ir in H. lra. }
    unfold dx in Qc0, Qc1 |- *. unfold dy in Qr0, Qr1 |- *.
    repeat split; lra.
Qed.

Lemma cells_lie_inside_the_margins_witness :
  exists rows cols x0 y0,
    attempt 5 3 (210 * mm) (297 * mm) = Ok (rows, cols, x0, y0)
    /\ (let w := CARD_W_MM * mm in
        let h := CARD_H_MM * mm in
        let dx := w + 3 * mm in
        let dy := h + 3 * mm in
        x0 == 210 * mm - (cell_x x0 dx (cols - 1) + w)
        /\ y0 == 297 * mm - (cell_y rows y0 dy 0 + h)
        /\ forall r c, (0 <= r < rows)%Z -> (0 <= c < cols)%Z ->
             5 * mm <= cell_x x0 dx c
             /\ cell_x x0 dx c + w <= 210 * mm - 5 * mm
             /\ 5 * mm <= cell_y rows y0 dy r
             /\ cell_y rows y0 dy r + h <= 297 * mm - 5 * mm).
Proof.
  apply (cells_lie_inside_the_margins 5 3 (210 * mm) (297 * mm));
    vm_compute; (reflexivity || discriminate).
Defined.

(** X11.  [auto] never plans fewer cards than a forced orientation: its
    [rows*cols] is the larger of the portrait and the landscape product,
    and it is the same for the page with width and height exchanged. *)
Theorem auto_plan_is_best (pw ph margin_mm gap_mm : Q) :
  ~ CARD_W_MM + gap_mm == 0 ->
  ~ CARD_H_MM + gap_mm == 0 ->
  exists r c x y rot r1 c1 x1 y1 r2 c2 x2 y2 r' c' x' y' rot',
    compute_grid pw ph margin_mm gap_mm Auto = Ok ((r, c, x, y), rot)
    /\ compute_grid pw ph margin_mm gap_mm Portrait
       = Ok ((r1, c1, x1, y1), false)
    /\ compute_grid pw ph margin_mm gap_mm Landscape
       = Ok ((r2, c2, x2, y2), true)
    /\ compute_grid ph pw margin_mm gap_mm Auto = Ok ((r', c', x', y'), rot')
    /\ (r * c = Z.max (r1 * c1) (r2 * c2))%Z
    /\ (r' * c' = r * c)%Z.
Proof.
  intros Hw Hh.
  destruct (attempt_total margin_mm gap_mm pw ph Hw Hh)
    as [[[[r1 c1] x1] y1] E1].
  destruct (attempt_total margin_mm gap_mm ph pw Hw Hh)
    as [[[[r2 c2] x2] y2] E2].
  cbn [compute_grid]. rewrite E1, E2. cbn [bind].
  destruct (Z.gtb_spec (r2 * c2) (r1 * c1)) as [H21 | H21];
    destruct (Z.gtb_spec (r1 * c1) (r2 * c2)) as [H12 | H12];
    try lia;
    do 18 eexists;
    (split; [ reflexivity | ]); (split; [ reflexivity | ]);
    (split; [ reflexivity | ]); (split; [ reflexivity | ]); lia.
Qed.

Lemma auto_plan_is_best_witness :
  exists r c x y rot r1 c1 x1 y1 r2 c2 x2 y2 r' c' x' y' rot',
    compute_grid (297 * mm) (420 * mm) 5 3 Auto = Ok ((r, c, x, y), rot)
    /\ compute_grid (297 * mm) (420 * mm) 5 3 Portrait
       = Ok ((r1, c1, x1, y1), false)
    /\ compute_grid (297 * mm) (420 * mm) 5 3 Landscape
       = Ok ((r2, c2, x2, y2), true)
    /\ compute_grid (420 * mm) (297 * mm) 5 3 Auto
       = Ok ((r', c', x', y'), rot')
    /\ (r * c = Z.max (r1 * c1) (r2 * c2))%Z
    /\ (r' * c' = r * c)%Z.
Proof.
  apply (auto_plan_is_best (297 * mm) (420 * mm) 5 3);
    vm_compute; discriminate.
Defined.

(** ** More on the loop *)

Lemma enumerate_pairs {A : Type} (l : list A) :
  forall i,
    ForallOrdPairs (fun a b : Z * A => (i <= fst a < fst b)%Z)
                   (enumerate i l).
Proof.
  induction l as [ | a l IH ]; intros i; cbn [enumerate]; constructor.
  - apply Forall_forall. intros [k b] Hin.
    apply enumerate_ge in Hin. cbn [fst]. lia.
  - specialize (IH (i + 1)%Z).
    induction IH as [ | x l' Hx _ IH' ]; constructor.
    + revert Hx. apply Forall_impl. intros y Hy. lia.
    + exact IH'.
Qed.

Lemma ForallOrdPairs_map {A B : Type} (f : A -> B)
    (R : A -> A -> Prop) (S : B -> B -> Prop) (l : list A) :
  (forall a b, R a b -> S (f a) (f b)) ->
  ForallOrdPairs R l -> ForallOrdPairs S (map f l).
Proof.
  intros H. induction 1 as [ | a l Ha _ IH ]; cbn [map]; constructor.
  - apply Forall_forall. intros y Hy.
    apply in_map_iff in Hy as (b & <- & Hb). apply H.
    revert b Hb. now apply Forall_forall.
  - exact IH.
Qed.

(** Two counters of one page reach different cells. *)
Lemma same_page_other_cell (rows cols i j : Z) :
  (1 <= rows)%Z -> (1 <= cols)%Z -> (0 <= i < j)%Z ->
  (i / (rows * cols) = j / (rows * cols))%Z ->
  let si := (i mod (rows * cols))%Z in
  let sj := (j mod (rows * cols))%Z in
  ((si mod cols < sj mod cols)%Z \/ (sj mod cols < si mod cols)%Z)
  \/ ((si mod cols = sj mod cols)%Z /\ (si / cols < sj / cols)%Z).
Proof.
  intros Hr Hc Hij Hpage si sj.
  assert (Hpp : (0 < rows * cols)%Z) by nia.
  assert (Hs : (si < sj)%Z).
  { unfold si, sj.
    pose proof (Z.div_mod i (rows * cols) ltac:(lia)).
    pose proof (Z.div_mod j (rows * cols) ltac:(lia)).
    rewrite Hpage in *. nia. }
  pose proof (Z.div_mod si cols ltac:(lia)) as Di.
  pose proof (Z.div_mod sj cols ltac:(lia)) as Dj.
  pose proof (Z.mod_pos_bound si cols ltac:(lia)).
  pose proof (Z.mod_pos_bound sj cols ltac:(lia)).
  destruct (Z.lt_total (si mod cols) (sj mod cols)) as [H1 | [H1 | H1]];
    [ left; now left | | left; now right ].
  right. split; [ exact H1 | ]. nia.
Qed.

(** X12.  Cards on a page do not overlap: when the steps between cells
    are at least a card wide and high (gap >= 0), any two images drawn
    after the same number of page breaks lie apart, side by side or one
    above the other. *)
Theorem images_on_a_page_do_not_overlap
    (draw_error : string -> option string)
    (rows cols : Z) (x0 y0 w h dx dy gap_mm ph : Q)
    (rotated cropmarks black_borders : bool) (images : list string) :
  (1 <= rows)%Z -> (1 <= cols)%Z ->
  0 <= w -> w <= dx -> 0 <= h -> h <= dy ->
  ForallOrdPairs
    (fun a b : Z * event => fst a = fst b -> apart (snd a) (snd b))
    (placed 0 (make_pdf_loop draw_error rows cols x0 y0 w h dx dy gap_mm ph
                 rotated cropmarks black_borders images 0)).
Proof.
  intros Hr Hc Hw Hdx Hh Hdy.
  assert (Hpp : (1 <= rows * cols)%Z) by nia.
  pose proof (loop_placed draw_error rows cols x0 y0 w h dx dy gap_mm ph
                rotated cropmarks black_borders images Hpp 0%Z
                (Z.le_refl 0)) as E.
  cbn [Z.eqb] in E. rewrite E.
  apply (ForallOrdPairs_map _ (fun a b : Z * string => (0 <= fst a < fst b)%Z));
    [ | apply enumerate_pairs ].
  intros [i img1] [j img2] Hij Hpage. cbn [fst snd] in *.
  destruct (same_page_other_cell rows cols i j Hr Hc Hij Hpage)
    as [[Hcol | Hcol] | [Hcol Hrow]];
    unfold try_draw; destruct (draw_error img1), (draw_error img2);
    cbn [apart]; try exact I; unfold cell_x, cell_y.
  - left.
    assert (H : inject_Z ((i mod (rows * cols)) mod cols) + 1
                <= inject_Z ((j mod (rows * cols)) mod cols)).
    { change 1 with (inject_Z 1). rewrite <- inject_Z_plus, <- Zle_Qle. lia. }
    nra.
  - right; left.
    assert (H : inject_Z ((j mod (rows * cols)) mod cols) + 1
                <= inject_Z ((i mod (rows * cols)) mod cols)).
    { change 1 with (inject_Z 1). rewrite <- inject_Z_plus, <- Zle_Qle. lia. }
    nra.
  - right; right; right.
    assert (H : inject_Z (i mod (rows * cols) / cols) + 1
                <= inject_Z (j mod (rows * cols) / cols)).
    { change 1 with (inject_Z 1). rewrite <- inject_Z_plus, <- Zle_Qle. lia. }
    nra.
Qed.

Lemma images_on_a_page_do_not_overlap_witness :
  ForallOrdPairs
    (fun a b : Z * event => fst a = fst b -> apart (snd a) (snd b))
    (placed 0 (make_pdf_loop all_load 3 3 10 20 63 88 66 91 3 842
                 false false false ten_images 0)).
Proof.
  apply (images_on_a_page_do_not_overlap all_load 3 3 10 20 63 88 66 91 3
           842 false false false ten_images);
    try lia; vm_compute; discriminate.
Defined.







Lemma compute_grid_zero_pitch (pw ph margin_mm gap_mm : Q) (o : orientation) :
  CARD_W_MM + gap_mm == 0 \/ CARD_H_MM + gap_mm == 0 ->
  compute_grid pw ph margin_mm gap_mm o = Raise ZeroDivisionError.
Proof.
  intros H. destruct o; cbn [compute_grid];
    rewrite !(attempt_zero_pitch _ _ _ _ H); reflexivity.
Qed.

(** X14.  A gap of -63 mm or -88 mm makes the cell pitch zero: the run
    then raises [ZeroDivisionError] out of [main], having created the
    canvas and nothing more; no page is drawn, the document is not saved
    and no report is printed. *)
Theorem zero_pitch_aborts_after_canvas
    (draw_error : string -> option string) (imgs : list string) (a : args)
    (paper_size : Q * Q) :
  CARD_W_MM + arg_gap_mm a == 0 \/ CARD_H_MM + arg_gap_mm a == 0 ->
  resolve_paper (paper a) = Ok paper_size ->
  imgs <> [] ->
  main draw_error imgs a
  = ([NewCanvas (out a) paper_size], Raise ZeroDivisionError).
Proof.
  intros Hz Hp Hne. unfold main. rewrite Hp.
  destruct imgs as [ | img imgs ]; [ now contradiction Hne | ].
  unfold make_pdf, make_pdf_grid. destruct paper_size as [pw ph].
  rewrite (compute_grid_zero_pitch _ _ _ _ _ Hz). reflexivity.
Qed.

Lemma zero_pitch_aborts_after_canvas_witness :
  main all_load ten_images
       {| input_folder := "cards"; paper := "a4"; out := "cards_print.pdf";
          arg_margin_mm := 5; arg_gap_mm := -63; arg_cropmarks := true;
          arg_black_borders := true; arg_orientation := Auto |}
  = ([NewCanvas "cards_print.pdf" A4], Raise ZeroDivisionError).
Proof.
  apply (zero_pitch_aborts_after_canvas all_load ten_images
           {| input_folder := "cards"; paper := "a4";
              out := "cards_print.pdf";
              arg_margin_mm := 5; arg_gap_mm := -63; arg_cropmarks := true;
              arg_black_borders := true; arg_orientation := Auto |} A4).
  - left. reflexivity.
  - reflexivity.
  - discriminate.
Defined.

Lemma decoration_no_translate (rows cols : Z) (x0 y0 w h dx dy gap_mm : Q)
    (cropmarks black_borders : bool) :
  filter is_translate
    ((if black_borders
      then draw_black_borders rows cols x0 y0 w h dx dy gap_mm
      else [])
     ++ (if cropmarks then page_crop_marks rows cols x0 y0 w h dx dy else []))
  = [].
Proof.
  apply filter_none. rewrite forallb_app.
  assert (Hb : forallb (fun e => negb (is_translate e))
                 (draw_black_borders rows cols x0 y0 w h dx dy gap_mm) = true).
  { unfold draw_black_borders. rewrite !forallb_app.
    cbn [forallb is_translate negb andb].
    rewrite !forallb_map_const by reflexivity. reflexivity. }
  assert (Hm : forallb (fun e => negb (is_translate e))
                 (page_crop_marks rows cols x0 y0 w h dx dy) = true).
  { unfold page_crop_marks.
    apply forallb_flat_map; intros r.
    apply forallb_flat_map; intros c. reflexivity. }
  destruct black_borders, cropmarks; cbn [forallb andb];
    rewrite ?Hb, ?Hm; reflexivity.
Qed.

Lemma loop_translates (draw_error : string -> option string)
    (rows cols : Z) (x0 y0 w h dx dy gap_mm ph : Q)
    (rotated cropmarks black_borders : bool) (images : list string) :
  forall i,
    filter is_translate
      (make_pdf_loop draw_error rows cols x0 y0 w h dx dy gap_mm ph
         rotated cropmarks black_borders images i)
    = repeat (Translate 0 ph)
        (if rotated
         then show_pages
                (make_pdf_loop draw_error rows cols x0 y0 w h dx dy gap_mm ph
                   rotated cropmarks black_borders images i)
         else 0%nat).
Proof.
  induction images as [ | img images IH ]; intros i.
  - cbn. now destruct rotated.
  - rewrite loop_cons, filter_app, show_pages_app.
    change (try_draw ?d ?a ?b ?c ?x ?y :: ?l)
      with ([try_draw d a b c x y] ++ l).
    rewrite filter_app, show_pages_app, IH.
    assert (He : filter is_translate
                   [try_draw draw_error w h img
                      (cell_x x0 dx ((i mod (rows * cols)) mod cols))
                      (cell_y rows y0 dy (i mod (rows * cols) / cols))] = []
                 /\ show_pages
                      [try_draw draw_error w h img
                         (cell_x x0 dx ((i mod (rows * cols)) mod cols))
                         (cell_y rows y0 dy (i mod (rows * cols) / cols))]
                    = 0%nat).
    { unfold try_draw. destruct (draw_error img); split; reflexivity. }
    destruct He as [-> ->]. cbn [app Nat.add].
    destruct (i mod (rows * cols) =? 0)%Z.
    + rewrite show_pages_start, start_eq, filter_app, decoration_no_translate,
        app_nil_r.
      destruct (i >? 0)%Z, rotated; reflexivity.
    + cbn [filter app]. change (show_pages []) with 0%nat.
      now destruct rotated.
Qed.

(** X15.  The frame of a rotated page.  A portrait plan never moves the
    frame.  For a landscape plan the first page is rotated after a shift
    by the height of the paper, but every page opened later after a shift
    by its width: on paper that is not square the later pages are not
    drawn in the frame of the first. *)
Theorem later_landscape_pages_shift_by_the_width
    (draw_error : string -> option string) (images : list string)
    (out_path : string) (pw ph margin_mm gap_mm : Q)
    (cropmarks : bool) (o : orientation) (black_borders : bool)
    (g : grid) (rotated : bool) :
  compute_grid pw ph margin_mm gap_mm o = Ok (g, rotated) ->
  let tr := fst (make_pdf draw_error images out_path (pw, ph) margin_mm
                   gap_mm cropmarks o black_borders) in
  filter is_translate tr
  = if rotated
    then Translate 0 ph :: repeat (Translate 0 pw) (show_pages tr)
    else [].
Proof.
  intros E tr. unfold tr, make_pdf, make_pdf_grid. rewrite E.
  destruct g as [[[rows cols] x0] y0].
  destruct rotated.
  - pose proof (compute_grid_attempt _ _ _ _ _ _ _ E) as Ea.
    cbn [compute_grid]. rewrite Ea. cbn [bind fst].
    rewrite !filter_app, !show_pages_app, loop_translates.
    cbn. now rewrite app_nil_r, Nat.add_0_r.
  - cbn [fst]. rewrite !filter_app, loop_translates. reflexivity.
Qed.

Lemma later_landscape_pages_shift_by_the_width_witness :
  let tr := fst (make_pdf all_load (numbered_images 19) "cards_print.pdf"
                   (297 * mm, 420 * mm) 5 3 false Auto false) in
  filter is_translate tr
  = if true
    then Translate 0 (420 * mm)
         :: repeat (Translate 0 (297 * mm)) (show_pages tr)
    else [].
Proof.
  apply (later_landscape_pages_shift_by_the_width all_load
           (numbered_images 19) "cards_print.pdf" (297 * mm) (420 * mm) 5 3
           false Auto false
           (3%Z, 6%Z,
            (420 * mm - (inject_Z 6 * CARD_W_MM * mm
                         + (inject_Z 6 - 1) * 3 * mm)) / 2,
            (297 * mm - (inject_Z 3 * CARD_H_MM * mm
                         + (inject_Z 3 - 1) * 3 * mm)) / 2) true).
  reflexivity.
Defined.

Lemma scaled_step (a b : Z) (d : Q) :
  (b < a)%Z -> 0 <= d -> inject_Z b * d + d <= inject_Z a * d.
Proof.
  intros Hab Hd. assert (H : (b + 1 <= a)%Z) by lia.
  rewrite Zle_Qle, inject_Z_plus in H. change (inject_Z 1) with 1 in H.
  pose proof (Qmult_le_compat_r _ _ d H Hd). lra.
Qed.

Lemma scaled_le (a b : Z) (d : Q) :
  (b <= a)%Z -> 0 <= d -> inject_Z b * d <= inject_Z a * d.
Proof.
  intros Hab Hd. rewrite Zle_Qle in Hab.
  exact (Qmult_le_compat_r _ _ d Hab Hd).
Qed.

(** X16.  With a gap that is not negative and the pitch of [make_pdf]
    (card size plus gap), no rectangle of the black borders reaches into a
    cell of the grid: the borders fill the gaps and the frame around the
    block, never the place of a card. *)
Theorem black_borders_spare_the_cells
    (rows cols : Z) (x0 y0 w h dx dy gap_mm : Q) :
  0 <= gap_mm -> 0 <= w -> 0 <= h ->
  dx == w + gap_mm * mm -> dy == h + gap_mm * mm ->
  forall row col,
    (0 <= row < rows)%Z -> (0 <= col < cols)%Z ->
    Forall (rect_clear_of (cell_x x0 dx col) (cell_y rows y0 dy row) w h)
           (draw_black_borders rows cols x0 y0 w h dx dy gap_mm).
Proof.
  intros Hg Hw Hh Hdx Hdy row col Hrow Hcol.
  pose proof mm_pos as Hmm.
  assert (Hgap : 0 <= gap_mm * mm) by (apply Qmult_le_0_compat; lra).
  assert (Hdx0 : 0 <= dx) by lra.
  assert (Hdy0 : 0 <= dy) by lra.
  unfold draw_black_borders. cbv zeta.
  apply Forall_app. split; [ | apply Forall_app; split ].
  - pose proof (scaled_le col 0 dx ltac:(lia) Hdx0) as Hc.
    pose proof (scaled_le row 0 dy ltac:(lia) Hdy0) as Hr.
    pose proof (scaled_step cols col dx ltac:(lia) Hdx0) as Hc'.
    pose proof (scaled_step rows row dy ltac:(lia) Hdy0) as Hr'.
    change (inject_Z 0) with 0 in Hc, Hr.
    repeat apply Forall_cons; try apply Forall_nil;
      cbn [rect_clear_of]; unfold cell_x, cell_y; try exact I.
    + do 3 right. lra.
    + do 2 right. left. lra.
    + left. lra.
    + right. left. lra.
  - apply Forall_forall. intros e He. apply in_map_iff in He as (k & <- & Hk).
    apply In_range in Hk. cbn [rect_clear_of]. unfold cell_y.
    destruct (Z_lt_le_dec k row) as [Hlt | Hle].
    + do 3 right.
      pose proof (scaled_step row k dy ltac:(lia) Hdy0) as H1. lra.
    + do 2 right. left.
      pose proof (scaled_le k row dy ltac:(lia) Hdy0) as H1. lra.
  - apply Forall_forall. intros e He. apply in_map_iff in He as (k & <- & Hk).
    apply In_range in Hk. cbn [rect_clear_of]. unfold cell_x.
    destruct (Z_lt_le_dec k col) as [Hlt | Hle].
    + left.
      pose proof (scaled_step col k dx ltac:(lia) Hdx0) as H1. lra.
    + right. left.
      pose proof (scaled_le k col dx ltac:(lia) Hdx0) as H1. lra.
Qed.

Lemma black_borders_spare_the_cells_witness :
  Forall (rect_clear_of (cell_x 10 (CARD_W_MM * mm + 3 * mm) 1)
            (cell_y 3 20 (CARD_H_MM * mm + 3 * mm) 2)
            (CARD_W_MM * mm) (CARD_H_MM * mm))
         (draw_black_borders 3 3 10 20 (CARD_W_MM * mm) (CARD_H_MM * mm)
            (CARD_W_MM * mm + 3 * mm) (CARD_H_MM * mm + 3 * mm) 3).
Proof.
  apply (black_borders_spare_the_cells 3 3 10 20 (CARD_W_MM * mm)
           (CARD_H_MM * mm) (CARD_W_MM * mm + 3 * mm)
           (CARD_H_MM * mm + 3 * mm) 3);
    try reflexivity; try lia; vm_compute; discriminate.
Defined.

Lemma forallb_weaken (p q : event -> bool) (l : list event) :
  (forall e, p e = true -> q e = true) ->
  forallb p l = true -> forallb q l = true.
Proof.
  intros Hpq. induction l as [ | e l IH ]; cbn [forallb]; intros H;
    [ reflexivity | ].
  apply andb_true_iff in H as [He Hl]. now rewrite (Hpq _ He), IH.
Qed.

Lemma after_first_image_app (pre rest : list event) (e : event) :
  forallb (fun e => negb (is_image_event e)) pre = true ->
  is_image_event e = true ->
  after_first_image (pre ++ e :: rest) = rest.
Proof.
  intros Hpre He.
  induction pre as [ | a pre IH ]; cbn [app after_first_image forallb] in *.
  - now rewrite He.
  - apply andb_true_iff in Hpre as [Ha Hpre]. apply negb_true_iff in Ha.
    rewrite Ha. now apply IH.
Qed.

Lemma after_first_image_none (pg : list event) :
  forallb (fun e => negb (is_image_event e)) pg = true ->
  after_first_image pg = [].
Proof.
  induction pg as [ | a pg IH ]; cbn [after_first_image forallb];
    intros H; [ reflexivity | ].
  apply andb_true_iff in H as [Ha Hpg]. apply negb_true_iff in Ha.
  rewrite Ha. now apply IH.
Qed.

Lemma try_draw_plain (draw_error : string -> option string) (w h : Q)
    (img : string) (x y : Q) :
  is_decoration (try_draw draw_error w h img x y) = false.
Proof. unfold try_draw. now destruct (draw_error img). Qed.

Section DecorationFirst.

Variable draw_error : string -> option string.
Variables (rows cols : Z) (x0 y0 w h dx dy gap_mm ph : Q).
Variables (rotated cropmarks black_borders : bool).

Local Abbreviation loop :=
  (make_pdf_loop draw_error rows cols x0 y0 w h dx dy gap_mm ph
     rotated cropmarks black_borders).
Local Abbreviation decoration :=
  ((if black_borders
    then draw_black_borders rows cols x0 y0 w h dx dy gap_mm
    else [])
   ++ (if cropmarks then page_crop_marks rows cols x0 y0 w h dx dy else [])).
Local Abbreviation plain :=
  (forallb (fun e => negb (is_decoration e))).

Lemma loop_pages_plain (images : list string) :
  forall i, (0 < i)%Z ->
  plain (hd [] (pages (loop images i ++ [Save]))) = true
  /\ Forall (fun pg => plain (after_first_image pg) = true)
            (tl (pages (loop images i ++ [Save]))).
Proof.
  induction images as [ | img images IH ]; intros i Hi.
  - cbn. split; [ reflexivity | constructor ].
  - destruct (IH (i + 1)%Z ltac:(lia)) as [Hhd Htl].
    rewrite loop_cons, <- app_assoc. cbn [app].
    destruct (try_draw_is_image draw_error w h img
                (cell_x x0 dx ((i mod (rows * cols)) mod cols))
                (cell_y rows y0 dy (i mod (rows * cols) / cols)))
      as (Him & Hns & _).
    pose proof (try_draw_plain draw_error w h img
                  (cell_x x0 dx ((i mod (rows * cols)) mod cols))
                  (cell_y rows y0 dy (i mod (rows * cols) / cols))) as Hpl.
    destruct (i mod (rows * cols) =? 0)%Z.
    + rewrite start_eq.
      destruct (Z.gtb_spec i 0) as [ _ | Hle ]; [ | lia ].
      cbn [app pages hd tl]. split; [ reflexivity | ].
      rewrite <- !app_assoc.
      rewrite (app_assoc (if black_borders then _ else _)).
      rewrite (app_assoc (if rotated then _ else _)).
      pose proof (decoration_quiet rows cols x0 y0 w h dx dy gap_mm
                    cropmarks black_borders) as Hq.
      assert (Hpre : forallb (fun e => negb (is_show_page e)
                                       && negb (is_image_event e))
                       ((if rotated then [Translate 0 ph; Rotate 90] else [])
                        ++ decoration) = true).
      { rewrite forallb_app, Hq. now destruct rotated. }
      rewrite (pages_nobreak_app _ _
                 (forallb_weaken _ _ _
                    (fun e H => proj1 (proj1 (andb_true_iff _ _) H)) Hpre)).
      cbn [hd tl]. rewrite (pages_cons_nobreak _ _ Hns). cbn [hd tl].
      constructor; [ | exact Htl ].
      rewrite (after_first_image_app _ _ _
                 (forallb_weaken _ _ _
                    (fun e H => proj2 (proj1 (andb_true_iff _ _) H)) Hpre)
                 Him).
      exact Hhd.
    + cbn [app]. rewrite (pages_cons_nobreak _ _ Hns). cbn [hd tl].
      split; [ | exact Htl ].
      cbn [forallb]. now rewrite Hpl, Hhd.
Qed.

Lemma loop_pages_decoration_first (images : list string)
    (pre : list event) :
  forallb (fun e => negb (is_show_page e) && negb (is_image_event e)) pre
  = true ->
  Forall (fun pg => plain (after_first_image pg) = true)
         (pages (pre ++ loop images 0 ++ [Save])).
Proof.
  intros Hpre.
  destruct images as [ | img images ].
  - cbn [make_pdf_loop app].
    assert (Hall : forallb (fun e => negb (is_show_page e)
                                     && negb (is_image_event e))
                     (pre ++ [Save]) = true).
    { rewrite forallb_app, Hpre. reflexivity. }
    pose proof (pages_nobreak_app (pre ++ [Save]) []
                  (forallb_weaken _ _ _
                     (fun e H => proj1 (proj1 (andb_true_iff _ _) H)) Hall))
      as Hp.
    rewrite app_nil_r in Hp. rewrite Hp. cbn [pages hd tl].
    constructor; [ | constructor ].
    rewrite app_nil_r, after_first_image_none; [ reflexivity | ].
    exact (forallb_weaken _ _ _
             (fun e H => proj2 (proj1 (andb_true_iff _ _) H)) Hall).
  - destruct (loop_pages_plain images 1 ltac:(lia)) as [Hhd Htl].
    rewrite loop_cons, Zmod_0_l. cbn [Z.eqb].
    rewrite start_eq. cbn [Z.gtb Z.compare app].
    change (0 + 1)%Z with 1%Z.
    destruct (try_draw_is_image draw_error w h img
                (cell_x x0 dx (0 mod cols)) (cell_y rows y0 dy (0 / cols)))
      as (Him & Hns & _).
    rewrite <- !app_assoc. cbn [app].
    rewrite (app_assoc (if black_borders then _ else _)).
    rewrite (app_assoc pre).
    pose proof (decoration_quiet rows cols x0 y0 w h dx dy gap_mm
                  cropmarks black_borders) as Hq.
    assert (Hall : forallb (fun e => negb (is_show_page e)
                                     && negb (is_image_event e))
                     (pre ++ decoration) = true).
    { now rewrite forallb_app, Hpre, Hq. }
    rewrite (pages_nobreak_app _ _
               (forallb_weaken _ _ _
                  (fun e H => proj1 (proj1 (andb_true_iff _ _) H)) Hall)).
    cbn [hd tl]. rewrite (pages_cons_nobreak _ _ Hns). cbn [hd tl].
    constructor; [ | exact Htl ].
    rewrite (after_first_image_app _ _ _
               (forallb_weaken _ _ _
                  (fun e H => proj2 (proj1 (andb_true_iff _ _) H)) Hall)
               Him).
    exact Hhd.
Qed.

End DecorationFirst.

(** X17.  On every page of a run the borders and the crop marks are drawn
    before the first image: once an image has been placed, or has failed
    with a warning, nothing of the decoration is painted on that page, so
    the decoration can never cover a card. *)
Theorem decoration_is_drawn_before_the_images
    (draw_error : string -> option string) (images : list string)
    (out_path : string) (paper_size : Q * Q) (margin_mm gap_mm : Q)
    (cropmarks : bool) (o : orientation) (black_borders : bool) :
  Forall (fun pg =>
            forallb (fun e => negb (is_decoration e)) (after_first_image pg)
            = true)
         (pages (fst (make_pdf draw_error images out_path paper_size
                        margin_mm gap_mm cropmarks o black_borders))).
Proof.
  unfold make_pdf.
  pose proof (make_pdf_grid_calls paper_size margin_mm gap_mm o) as Hc.
  destruct (make_pdf_grid paper_size margin_mm gap_mm o) as [c1 r].
  cbn [fst] in Hc.
  assert (Hpre : forallb (fun e => negb (is_show_page e)
                                   && negb (is_image_event e))
                   ([NewCanvas out_path paper_size] ++ c1) = true).
  { destruct Hc as [-> | [t ->]]; reflexivity. }
  destruct r as [ [[[[[rows cols] x0] y0] rotated] ph] | e ]; cbn [fst].
  - rewrite app_assoc.
    apply (loop_pages_decoration_first draw_error rows cols x0 y0
             (CARD_W_MM * mm) (CARD_H_MM * mm)
             (CARD_W_MM * mm + gap_mm * mm) (CARD_H_MM * mm + gap_mm * mm)
             gap_mm ph rotated cropmarks black_borders images _ Hpre).
  - destruct Hc as [-> | [t ->]]; cbn; repeat constructor.
Qed.

Lemma unit_not_space (a b : ascii) :
  is_unit a b = true -> is_space a = false.
Proof.
  unfold is_unit. cbv zeta. intros H.
  destruct a as [[] [] [] [] [] [] [] []]; try reflexivity;
    cbn in H; discriminate H.
Qed.

Lemma number_chars_starts (d f r : list ascii) :
  forallb is_digit d = true -> d <> [] ->
  stops is_space (number_chars d f ++ r).
Proof.
  intros Hd Hne. destruct d as [ | c d ]; [ now contradiction Hne | ].
  cbn in Hd |- *. apply andb_true_iff in Hd as [Hc _].
  now apply digit_not_space.
Qed.

Lemma scan_number_chars (d f r : list ascii) :
  forallb is_digit d = true -> d <> [] -> forallb is_digit f = true ->
  stops (fun c => is_digit c || Ascii.eqb c ".") r ->
  scan_number (number_chars d f ++ r) = Some (d, f, r).
Proof.
  intros Hd Hne Hf Hr.
  destruct (scan_number_stops d f r Hd Hne Hf Hr) as [S0 S1].
  unfold number_chars. destruct f as [ | c f ].
  - rewrite app_nil_r. now apply S0.
  - rewrite <- app_assoc. cbn [app]. now apply S1.
Qed.

(** The scan of a text made of two numbers around an [x], up to the end
    of the second number. *)
Lemma match_paper_front (ws1 ws2 ws3 d1 f1 d2 f2 rest : list ascii)
    (x : ascii) :
  forallb is_space ws1 = true -> forallb is_space ws2 = true ->
  forallb is_space ws3 = true ->
  forallb is_digit d1 = true -> d1 <> [] -> forallb is_digit f1 = true ->
  forallb is_digit d2 = true -> d2 <> [] -> forallb is_digit f2 = true ->
  Ascii.eqb (lower_char x) "x" = true ->
  stops (fun c => is_digit c || Ascii.eqb c ".") rest ->
  match_paper (ws1 ++ number_chars d1 f1 ++ ws2 ++ x :: ws3
               ++ number_chars d2 f2 ++ rest)
  = let (unit, s4) := scan_unit rest in
    match skip_spaces s4 with
    | [] => Some ((d1, f1), (d2, f2), unit)
    | _ :: _ => None
    end.
Proof.
  intros Hws1 Hws2 Hws3 Hd1 Hn1 Hf1 Hd2 Hn2 Hf2 Hx Hrest.
  unfold match_paper.
  rewrite (skip_spaces_stops _ _ Hws1 (number_chars_starts _ _ _ Hd1 Hn1)).
  rewrite (scan_number_chars d1 f1 _ Hd1 Hn1 Hf1).
  - rewrite (skip_spaces_stops ws2 (x :: _) Hws2 (x_not_space x Hx)).
    rewrite Hx.
    rewrite (skip_spaces_stops _ _ Hws3 (number_chars_starts _ _ _ Hd2 Hn2)).
    now rewrite (scan_number_chars d2 f2 _ Hd2 Hn2 Hf2 Hrest).
  - apply stops_app.
    + intros _. revert Hws2. apply stops_class. exact space_ends_number.
    + intros _. cbn. now apply x_ends_number.
Qed.

Lemma match_paper_assembled
    (ws1 ws2 ws3 ws4 d1 f1 d2 f2 : list ascii) (x : ascii)
    (u : option (list ascii)) :
  forallb is_space ws1 = true -> forallb is_space ws2 = true ->
  forallb is_space ws3 = true -> forallb is_space ws4 = true ->
  forallb is_digit d1 = true -> d1 <> [] -> forallb is_digit f1 = true ->
  forallb is_digit d2 = true -> d2 <> [] -> forallb is_digit f2 = true ->
  Ascii.eqb (lower_char x) "x" = true ->
  unit_group u ->
  match_paper (ws1 ++ number_chars d1 f1 ++ ws2 ++ x :: ws3
               ++ number_chars d2 f2 ++ unit_chars u ++ ws4)
  = Some ((d1, f1), (d2, f2), u).
Proof.
  intros Hws1 Hws2 Hws3 Hws4 Hd1 Hn1 Hf1 Hd2 Hn2 Hf2 Hx Hu.
  rewrite (match_paper_front ws1 ws2 ws3 d1 f1 d2 f2 (unit_chars u ++ ws4) x)
    by first
         [ assumption
         | apply stops_app;
           [ intros _; destruct u as [ [ | a [ | b [ | ? ? ] ] ] | ];
             cbn in Hu |- *; try contradiction; try exact I;
             now apply (unit_ends_number a b)
           | intros _; revert Hws4; apply stops_class;
             exact space_ends_number ] ].
  assert (Hunit : scan_unit (unit_chars u ++ ws4) = (u, ws4)).
  { destruct u as [ [ | a [ | b [ | ? ? ] ] ] | ]; cbn in Hu;
      try contradiction.
    - cbn [unit_chars app scan_unit]. now rewrite Hu.
    - now apply scan_unit_spaces. }
  rewrite Hunit.
  rewrite <- (app_nil_r ws4), (skip_spaces_stops ws4 [] Hws4 I).
  reflexivity.
Qed.

Lemma unit_group_letters (u : option (list ascii)) :
  unit_group u ->
  u = None
  \/ exists a b,
       u = Some [a; b]
       /\ ((lower_char a = "m"%char /\ lower_char b = "m"%char)
           \/ (lower_char a = "c"%char /\ lower_char b = "m"%char)
           \/ (lower_char a = "i"%char /\ lower_char b = "n"%char)).
Proof.
  destruct u as [ [ | a [ | b [ | ? ? ] ] ] | ]; cbn [unit_group];
    try contradiction; [ | now left ].
  unfold is_unit. cbv zeta. intros H. right. exists a, b.
  split; [ reflexivity | ].
  apply orb_true_iff in H as [H | H];
    [ apply orb_true_iff in H as [H | H] | ];
    apply andb_true_iff in H as [Ha Hb];
    apply Ascii.eqb_eq in Ha, Hb; auto.
Qed.

(** The conversion of lines 44-49, unit by unit. *)
#[warnings="-inexact-float"]
Lemma unit_conversions (W H : Q) (wf hf : float) (u : option (list ascii)) :
  unit_group u ->
  unit_to_points W H u
  = Ok (by_unit u (W * mm, H * mm) (W * 10 * mm, H * 10 * mm)
          (W * 25.4 * mm, H * 25.4 * mm))
  /\ unit_to_points_b64 wf hf u
     = Ok (by_unit u
             (wf * mm_b64, hf * mm_b64)
             (wf * 10 * mm_b64, hf * 10 * mm_b64)
             (wf * 25.4 * mm_b64, hf * 25.4 * mm_b64))%float.
Proof.
  intros Hu.
  destruct (unit_group_letters u Hu)
    as [-> | (a & b & -> & [[Ha Hb] | [[Ha Hb] | [Ha Hb]]])].
  - split; reflexivity.
  - unfold unit_to_points, unit_to_points_b64, by_unit, lower, text.
    cbn [map string_of_list_ascii]. rewrite Ha, Hb. split; reflexivity.
  - unfold unit_to_points, unit_to_points_b64, by_unit, lower, text.
    cbn [map string_of_list_ascii]. rewrite Ha, Hb. split; reflexivity.
  - unfold unit_to_points, unit_to_points_b64, by_unit, lower, text.
    cbn [map string_of_list_ascii]. rewrite Ha, Hb. split; reflexivity.
Qed.

(** X18.  What [parse_custom_paper] accepts and what it returns: two
    numbers (digits, with an optional fraction) around an [x] or [X], an
    optional unit in any case right after the second number, and white
    space allowed at both ends and around the [x], are read as the two
    numbers written, multiplied by [mm] when the unit is [mm] or absent,
    by [10*mm] when it is [cm] and by [25.4*mm] when it is [in].  For
    numbers that binary64 reads by one correctly rounded division (digits
    below 2^53, at most 18 decimals) the same holds of the floats of the
    script. *)
#[warnings="-inexact-float"]
Theorem paper_text_is_read_as_written
    (ws1 ws2 ws3 ws4 d1 f1 d2 f2 : list ascii) (x : ascii)
    (u : option (list ascii)) :
  forallb is_space ws1 = true -> forallb is_space ws2 = true ->
  forallb is_space ws3 = true -> forallb is_space ws4 = true ->
  forallb is_digit d1 = true -> d1 <> [] -> forallb is_digit f1 = true ->
  forallb is_digit d2 = true -> d2 <> [] -> forallb is_digit f2 = true ->
  Ascii.eqb (lower_char x) "x" = true ->
  unit_group u ->
  (digits_val (d1 ++ f1) < 2 ^ 53)%Z -> (Z.of_nat (List.length f1) <= 18)%Z ->
  (digits_val (d2 ++ f2) < 2 ^ 53)%Z -> (Z.of_nat (List.length f2) <= 18)%Z ->
  let spec := text (ws1 ++ number_chars d1 f1 ++ ws2 ++ x :: ws3
                    ++ number_chars d2 f2 ++ unit_chars u ++ ws4) in
  let W := float_of (d1, f1) in
  let H := float_of (d2, f2) in
  parse_custom_paper spec
  = Ok (by_unit u (W * mm, H * mm) (W * 10 * mm, H * 10 * mm)
          (W * 25.4 * mm, H * 25.4 * mm))
  /\ exists wf hf,
       float_of_b64 (d1, f1) = Some wf /\ float_of_b64 (d2, f2) = Some hf
       /\ parse_custom_paper_b64 spec
          = Some (Ok (by_unit u
                        (wf * mm_b64, hf * mm_b64)
                        (wf * 10 * mm_b64, hf * 10 * mm_b64)
                        (wf * 25.4 * mm_b64, hf * 25.4 * mm_b64))%float).
Proof.
  intros Hws1 Hws2 Hws3 Hws4 Hd1 Hn1 Hf1 Hd2 Hn2 Hf2 Hx Hu B1 K1 B2 K2
         spec W H.
  pose proof (match_paper_assembled ws1 ws2 ws3 ws4 d1 f1 d2 f2 x u
                Hws1 Hws2 Hws3 Hws4 Hd1 Hn1 Hf1 Hd2 Hn2 Hf2 Hx Hu) as Em.
  assert (F1 : exists wf, float_of_b64 (d1, f1) = Some wf).
  { unfold float_of_b64.
    apply Z.ltb_lt in B1. apply Z.leb_le in K1. rewrite B1, K1.
    eexists. reflexivity. }
  assert (F2 : exists hf, float_of_b64 (d2, f2) = Some hf).
  { unfold float_of_b64.
    apply Z.ltb_lt in B2. apply Z.leb_le in K2. rewrite B2, K2.
    eexists. reflexivity. }
  destruct F1 as [wf F1], F2 as [hf F2].
  unfold parse_custom_paper, parse_custom_paper_b64, spec, text.
  rewrite list_ascii_of_string_of_list_ascii, Em, F1, F2.
  fold W H.
  destruct (unit_conversions W H wf hf u Hu) as [Hq Hb].
  split; [ exact Hq | ].
  exists wf, hf. split; [ reflexivity | ]. split; [ reflexivity | ].
  now rewrite Hb.
Qed.

#[warnings="-inexact-float"]
Lemma paper_text_is_read_as_written_witness :
  let spec := text (list_ascii_of_string " "
                    ++ number_chars (list_ascii_of_string "8")
                         (list_ascii_of_string "5")
                    ++ list_ascii_of_string " " ++ "X"%char :: []
                    ++ number_chars (list_ascii_of_string "11") []
                    ++ unit_chars (Some (list_ascii_of_string "In"))
                    ++ list_ascii_of_string " ") in
  let W := float_of (list_ascii_of_string "8", list_ascii_of_string "5") in
  let H := float_of (list_ascii_of_string "11", []) in
  parse_custom_paper spec
  = Ok (by_unit (Some (list_ascii_of_string "In"))
          (W * mm, H * mm) (W * 10 * mm, H * 10 * mm)
          (W * 25.4 * mm, H * 25.4 * mm))
  /\ exists wf hf,
       float_of_b64 (list_ascii_of_string "8", list_ascii_of_string "5")
       = Some wf
       /\ float_of_b64 (list_ascii_of_string "11", []) = Some hf
       /\ parse_custom_paper_b64 spec
          = Some (Ok (by_unit (Some (list_ascii_of_string "In"))
                        (wf * mm_b64, hf * mm_b64)
                        (wf * 10 * mm_b64, hf * 10 * mm_b64)
                        (wf * 25.4 * mm_b64, hf * 25.4 * mm_b64))%float).
Proof.
  apply (paper_text_is_read_as_written
           (list_ascii_of_string " ") (list_ascii_of_string " ") []
           (list_ascii_of_string " ")
           (list_ascii_of_string "8") (list_ascii_of_string "5")
           (list_ascii_of_string "11") [] "X"%char
           (Some (list_ascii_of_string "In")));
    try reflexivity; try discriminate.
Defined.

(** X19.  The pattern allows no white space between the second number and
    the unit: a text such as [210x297 mm], well formed but for a space
    before its unit, is refused as an invalid paper format. *)
Theorem space_before_the_unit_is_refused
    (ws1 ws2 ws3 ws ws4 d1 f1 d2 f2 : list ascii) (x a b : ascii) :
  forallb is_space ws1 = true -> forallb is_space ws2 = true ->
  forallb is_space ws3 = true ->
  forallb is_space ws = true -> ws <> [] ->
  forallb is_digit d1 = true -> d1 <> [] -> forallb is_digit f1 = true ->
  forallb is_digit d2 = true -> d2 <> [] -> forallb is_digit f2 = true ->
  Ascii.eqb (lower_char x) "x" = true ->
  is_unit a b = true ->
  parse_custom_paper
    (text (ws1 ++ number_chars d1 f1 ++ ws2 ++ x :: ws3
           ++ number_chars d2 f2 ++ ws ++ a :: b :: ws4))
  = Raise (ValueError
             "Invalid paper format. Example: 210x297mm or 8.5x11in").
Proof.
  intros Hws1 Hws2 Hws3 Hws Hwsne Hd1 Hn1 Hf1 Hd2 Hn2 Hf2 Hx Hab.
  unfold parse_custom_paper, text.
  rewrite list_ascii_of_string_of_list_ascii.
  rewrite (match_paper_front ws1 ws2 ws3 d1 f1 d2 f2 (ws ++ a :: b :: ws4) x)
    by first
         [ assumption
         | apply stops_app;
           [ intros _; revert Hws; apply stops_class;
             exact space_ends_number
           | intros E; now contradiction Hwsne ] ].
  assert (Hunit : scan_unit (ws ++ a :: b :: ws4)
                  = (None, ws ++ a :: b :: ws4)).
  { destruct ws as [ | s ws ]; [ now contradiction Hwsne | ].
    cbn [forallb] in Hws. apply andb_true_iff in Hws as [Hs _].
    destruct ws as [ | s' ws ]; cbn [app scan_unit];
      now rewrite (space_not_unit s _ Hs). }
  rewrite Hunit.
  rewrite (skip_spaces_stops ws (a :: b :: ws4) Hws (unit_not_space a b Hab)).
  reflexivity.
Qed.

Lemma space_before_the_unit_is_refused_witness :
  parse_custom_paper
    (text ([] ++ number_chars (list_ascii_of_string "210") []
           ++ [] ++ "x"%char :: []
           ++ number_chars (list_ascii_of_string "297") []
           ++ list_ascii_of_string " " ++ "m"%char :: "m"%char :: []))
  = Raise (ValueError
             "Invalid paper format. Example: 210x297mm or 8.5x11in").
Proof.
  apply (space_before_the_unit_is_refused [] [] []
           (list_ascii_of_string " ") []
           (list_ascii_of_string "210") [] (list_ascii_of_string "297") []
           "x"%char "m"%char "m"%char);
    try reflexivity; discriminate.
Defined.

Lemma scan_unit_group (s r : list ascii) (u : option (list ascii)) :
  scan_unit s = (u, r) -> unit_group u.
Proof.
  unfold scan_unit.
  destruct s as [ | a [ | b s ] ]; try (intros E; injection E as <- <-;
                                        exact I).
  destruct (is_unit a b) eqn:Hab; intros E; injection E as <- <-;
    [ exact Hab | exact I ].
Qed.

Lemma match_paper_unit_group (s : list ascii) (n1 n2 : number_text)
    (u : option (list ascii)) :
  match_paper s = Some (n1, n2, u) -> unit_group u.
Proof.
  unfold match_paper.
  destruct (scan_number (skip_spaces s)) as [ [[d1 f1] s1] | ];
    [ | discriminate ].
  destruct (skip_spaces s1) as [ | c s2 ]; [ discriminate | ].
  destruct (Ascii.eqb (lower_char c) "x"); [ | discriminate ].
  destruct (scan_number (skip_spaces s2)) as [ [[d2 f2] s3] | ];
    [ | discriminate ].
  destruct (scan_unit s3) as [v s4] eqn:Ev.
  destruct (skip_spaces s4); [ | discriminate ].
  intros E; injection E as _ _ <-.
  exact (scan_unit_group _ _ _ Ev).
Qed.

Lemma unit_group_converts (w h : Q) (u : option (list ascii)) :
  unit_group u -> exists pw ph, unit_to_points w h u = Ok (pw, ph).
Proof.
  destruct u as [ [ | a [ | b [ | ? ? ] ] ] | ]; cbn [unit_group];
    try contradiction.
  - unfold is_unit. cbv zeta. intros H.
    unfold unit_to_points, lower, text.
    cbn [map string_of_list_ascii].
    apply orb_true_iff in H as [H | H];
      [ apply orb_true_iff in H as [H | H] | ];
      apply andb_true_iff in H as [Ha Hb];
      apply Ascii.eqb_eq in Ha, Hb; rewrite Ha, Hb; cbn;
      eexists; eexists; reflexivity.
  - intros _. cbn. eexists; eexists; reflexivity.
Qed.

(** X20.  On a text of ASCII characters [parse_custom_paper] either
    returns a size or raises the error of an invalid format: the unit the
    pattern lets through is always one that the conversion knows, so the
    error of unknown units is never raised. *)
Theorem unknown_units_is_unreachable (spec : string) :
  forallb is_ascii (list_ascii_of_string spec) = true ->
  (exists pw ph, parse_custom_paper spec = Ok (pw, ph))
  \/ parse_custom_paper spec
     = Raise (ValueError
                "Invalid paper format. Example: 210x297mm or 8.5x11in").
Proof.
  intros _. unfold parse_custom_paper.
  destruct (match_paper (list_ascii_of_string spec))
    as [ [[n1 n2] u] | ] eqn:E; [ left | now right ].
  exact (unit_group_converts _ _ _ (match_paper_unit_group _ _ _ _ E)).
Qed.

Lemma unknown_units_is_unreachable_witness :
  (exists pw ph, parse_custom_paper "210x297inches" = Ok (pw, ph))
  \/ parse_custom_paper "210x297inches"
     = Raise (ValueError
                "Invalid paper format. Example: 210x297mm or 8.5x11in").
Proof.
  apply (unknown_units_is_unreachable "210x297inches"). reflexivity.
Defined.

Lemma lower_char_space (c : ascii) : is_space (lower_char c) = is_space c.
Proof. destruct c as [[] [] [] [] [] [] [] []]; reflexivity. Qed.

Lemma forallb_lower (p : ascii -> bool) (k : list ascii) :
  (forall c, p (lower_char c) = p c) ->
  forallb p (lower k) = forallb p k.
Proof.
  intros Hp. induction k as [ | c k IH ]; [ reflexivity | ].
  cbn [lower map forallb]. fold (lower k). now rewrite Hp, IH.
Qed.

Lemma strip_core (ws1 k ws2 : list ascii) :
  forallb is_space ws1 = true -> forallb is_space ws2 = true ->
  k <> [] -> stops is_space k -> stops is_space (rev k) ->
  strip (ws1 ++ k ++ ws2) = k.
Proof.
  intros Hws1 Hws2 Hne Hk Hrk. unfold strip.
  rewrite (skip_spaces_stops ws1 (k ++ ws2) Hws1).
  - rewrite rev_app_distr, skip_spaces_stops.
    + apply rev_involutive.
    + now rewrite forallb_rev.
    + exact Hrk.
  - destruct k as [ | c k ]; [ now contradiction Hne | exact Hk ].
Qed.

Lemma no_space_stops (k : list ascii) :
  forallb (fun c => negb (is_space c)) k = true ->
  stops is_space k /\ stops is_space (rev k).
Proof.
  intros H. split.
  - revert H. apply stops_class. intros c. now destruct (is_space c).
  - rewrite <- forallb_rev in H. revert H. apply stops_class.
    intros c. now destruct (is_space c).
Qed.

(** X21.  The names of the papers are recognised in any case and with
    white space around them: a text that is [a4], [letter] or [a3] once
    stripped and lower-cased resolves to the size of that name, without
    reaching the parser. *)
Theorem paper_names_in_any_case (ws1 k ws2 : list ascii) (size : Q * Q) :
  forallb is_space ws1 = true -> forallb is_space ws2 = true ->
  dict_get PAPERS (text (lower k)) = Some size ->
  resolve_paper (text (ws1 ++ k ++ ws2)) = Ok size.
Proof.
  intros Hws1 Hws2 Hk. unfold resolve_paper, text.
  rewrite list_ascii_of_string_of_list_ascii.
  assert (Hns : forallb (fun c => negb (is_space c)) k = true /\ k <> []).
  { assert (Hl : forallb (fun c => negb (is_space c)) (lower k) = true
                 /\ lower k <> []).
    { unfold dict_get, PAPERS in Hk.
      destruct (String.eqb_spec "a4" (text (lower k))) as [E | _];
        [ | destruct (String.eqb_spec "letter" (text (lower k))) as [E | _];
            [ | destruct (String.eqb_spec "a3" (text (lower k)))
                  as [E | _]; [ | discriminate Hk ] ] ];
        apply (f_equal list_ascii_of_string) in E; unfold text in E;
        rewrite list_ascii_of_string_of_list_ascii in E; rewrite <- E;
        (split; [ reflexivity | discriminate ]). }
    destruct Hl as [Hl Hne]. split.
    - rewrite <- Hl. symmetry. apply forallb_lower. intros c.
      now rewrite lower_char_space.
    - intros ->. now apply Hne. }
  destruct Hns as [Hns Hne].
  destruct (no_space_stops k Hns) as [H1 H2].
  rewrite (strip_core ws1 k ws2 Hws1 Hws2 Hne H1 H2).
  unfold text in Hk. now rewrite Hk.
Qed.

Lemma paper_names_in_any_case_witness :
  resolve_paper (text (list_ascii_of_string "  "
                       ++ list_ascii_of_string "Letter"
                       ++ list_ascii_of_string " "))
  = Ok LETTER.
Proof.
  apply (paper_names_in_any_case (list_ascii_of_string "  ")
           (list_ascii_of_string "Letter") (list_ascii_of_string " ") LETTER);
    reflexivity.
Defined.

(** X22.  What a run that succeeds ends with: once the paper is resolved
    (from a name, or from a text whose numbers binary64 reads exactly
    rounded), the folder has images and the pitch is not zero, [main]
    saves the document and then prints one report.  The report gives the
    number of images it was given, those that failed to load included,
    and as the number of pages one more than the number of [showPage]
    calls of the run, the pages the loop started: a last page on which
    every image failed is counted, whatever the canvas writes for it. *)
Theorem report_counts_the_pages_started
    (draw_error : string -> option string) (imgs : list string) (a : args)
    (paper_size : Q * Q) :
  resolve_paper (paper a) = Ok paper_size ->
  parse_custom_paper_b64 (paper a) <> None ->
  imgs <> [] ->
  ~ CARD_W_MM + arg_gap_mm a == 0 ->
  ~ CARD_H_MM + arg_gap_mm a == 0 ->
  exists tr rows cols,
    (1 <= rows)%Z /\ (1 <= cols)%Z
    /\ main draw_error imgs a
       = (NewCanvas (out a) paper_size :: tr
          ++ [Save;
              Print (report (Z.of_nat (List.length imgs)) (out a) rows cols
                       (rows * cols)
                       (Z.of_nat (show_pages tr) + 1))],
          Ok tt)
    /\ List.length (filter is_image_event tr) = List.length imgs
    /\ Z.of_nat (show_pages tr)
       = ((Z.of_nat (List.length imgs) - 1) / (rows * cols))%Z.
Proof.
  intros Hp _ Hne Hw Hh. unfold main. rewrite Hp.
  destruct imgs as [ | img0 imgs0 ] eqn:Eimgs; [ now contradiction Hne | ].
  rewrite <- Eimgs. unfold make_pdf.
  destruct (make_pdf_grid_total paper_size (arg_margin_mm a) (arg_gap_mm a)
              (arg_orientation a) Hw Hh)
    as (c1 & rows & cols & x0 & y0 & rotated & ph & E & Hr & Hc & Hc1).
  rewrite E.
  set (loop := make_pdf_loop draw_error rows cols x0 y0 (CARD_W_MM * mm)
                 (CARD_H_MM * mm) (CARD_W_MM * mm + arg_gap_mm a * mm)
                 (CARD_H_MM * mm + arg_gap_mm a * mm) (arg_gap_mm a) ph
                 rotated (arg_cropmarks a) (arg_black_borders a) imgs 0).
  exists (c1 ++ loop), rows, cols.
  split; [ exact Hr | ]. split; [ exact Hc | ].
  assert (Hpp : (1 <= rows * cols)%Z) by nia.
  assert (Hn : (1 <= Z.of_nat (List.length imgs))%Z).
  { rewrite Eimgs. cbn [List.length]. lia. }
  assert (Hc1q : forallb (fun e => negb (is_show_page e)
                                   && negb (is_image_event e)) c1 = true).
  { destruct Hc1 as [-> | [t ->]]; reflexivity. }
  assert (Hshow : Z.of_nat (show_pages (c1 ++ loop))
                  = ((Z.of_nat (List.length imgs) - 1) / (rows * cols))%Z).
  { rewrite show_pages_app, (show_pages_quiet _ Hc1q). cbn [Nat.add].
    pose proof (loop_show_pages draw_error rows cols x0 y0 (CARD_W_MM * mm)
                  (CARD_H_MM * mm) (CARD_W_MM * mm + arg_gap_mm a * mm)
                  (CARD_H_MM * mm + arg_gap_mm a * mm) (arg_gap_mm a) ph
                  rotated (arg_cropmarks a) (arg_black_borders a) imgs
                  Hpp 0%Z ltac:(lia)) as Hs.
    fold loop in Hs. rewrite !Z.add_0_l in Hs.
    change (0 =? 0)%Z with true in Hs. cbv iota in Hs.
    destruct (Z.eqb_spec (Z.of_nat (List.length imgs)) 0) as [H0 | _];
      lia. }
  split; [ | split; [ | exact Hshow ] ].
  - f_equal. cbn [app]. f_equal. rewrite <- !app_assoc. do 2 f_equal.
    cbn [app]. do 3 f_equal.
    rewrite Hshow, (page_count_spec _ _ Hn Hpp). reflexivity.
  - rewrite filter_app. rewrite length_app.
    unfold loop. rewrite loop_image_count.
    destruct Hc1 as [-> | [t ->]]; reflexivity.
Qed.

Lemma report_counts_the_pages_started_witness :
  exists tr rows cols,
    (1 <= rows)%Z /\ (1 <= cols)%Z
    /\ main third_fails ten_images (default_args "a4")
       = (NewCanvas (out (default_args "a4")) A4 :: tr
          ++ [Save;
              Print (report (Z.of_nat (List.length ten_images))
                       (out (default_args "a4")) rows cols (rows * cols)
                       (Z.of_nat (show_pages tr) + 1))],
          Ok tt)
    /\ List.length (filter is_image_event tr) = List.length ten_images
    /\ Z.of_nat (show_pages tr)
       = ((Z.of_nat (List.length ten_images) - 1) / (rows * cols))%Z.
Proof.
  apply (report_counts_the_pages_started third_fails ten_images
           (default_args "a4") A4).
  - reflexivity.
  - vm_compute. discriminate.
  - discriminate.
  - vm_compute. discriminate.
  - vm_compute. discriminate.
Defined.

(** ** The download script *)

Lemma collapse_spaces_head (c : ascii) (r : list ascii) :
  is_space c = false ->
  collapse_spaces (c :: r) = c :: collapse_spaces r.
Proof. intros H. cbn [collapse_spaces]. now rewrite H. Qed.

Lemma collapse_spaces_spaced (s : list ascii) :
  spaced (collapse_spaces s) = true.
Proof.
  induction s as [ | c r IH ]; [ reflexivity | ].
  cbn [collapse_spaces].
  destruct (is_space c) eqn:Hc.
  - destruct r as [ | d r' ]; [ reflexivity | ].
    destruct (is_space d) eqn:Hd; [ exact IH | ].
    rewrite (collapse_spaces_head d r' Hd) in IH |- *.
    cbn [spaced] in IH |- *. rewrite Hd in IH |- *.
    cbn [negb andb is_space]. exact IH.
  - cbn [spaced]. now rewrite Hc, IH.
Qed.

Lemma spaced_suffix (a u : list ascii) :
  spaced (a ++ u) = true -> spaced u = true.
Proof.
  induction a as [ | c a IH ]; cbn [app spaced]; intros H; [ exact H | ].
  apply andb_true_iff in H as [_ H]. now apply IH.
Qed.

Lemma stops_rev_cons (p : ascii -> bool) (c : ascii) (x : list ascii) :
  x <> [] -> stops p (rev (c :: x)) -> stops p (rev x).
Proof.
  intros Hne. cbn [rev].
  destruct (rev x) as [ | e l ] eqn:E.
  - apply (f_equal (@rev ascii)) in E. rewrite rev_involutive in E.
    now contradiction Hne.
  - intros H. exact H.
Qed.

Lemma spaced_prefix_single (x y : list ascii) :
  spaced (x ++ y) = true -> stops is_space (rev x) ->
  single_spaced x = true.
Proof.
  induction x as [ | c x IH ]; [ reflexivity | ].
  cbn [app spaced single_spaced]. intros H Hlast.
  apply andb_true_iff in H as [Hc H].
  destruct x as [ | d x' ].
  - cbn in Hlast. now rewrite Hlast.
  - rewrite (IH H (stops_rev_cons _ c (d :: x') ltac:(discriminate) Hlast)).
    cbn [app] in Hc. now rewrite Hc.
Qed.

Lemma single_spaced_last (s : list ascii) :
  single_spaced s = true -> stops is_space (rev s).
Proof.
  induction s as [ | c r IH ]; [ intros _; exact I | ].
  cbn [single_spaced]. intros H. apply andb_true_iff in H as [Hc Hr].
  destruct r as [ | d r' ].
  - cbn. destruct (is_space c); [ | reflexivity ].
    now rewrite andb_false_r in Hc.
  - specialize (IH Hr). cbn [rev] in IH |- *.
    destruct (rev r' ++ [d]) as [ | e l ] eqn:E.
    + now destruct (rev r').
    + exact IH.
Qed.

Lemma single_spaced_collapse (s : list ascii) :
  single_spaced s = true -> collapse_spaces s = s.
Proof.
  induction s as [ | c r IH ]; [ reflexivity | ].
  cbn [single_spaced collapse_spaces]. intros H.
  apply andb_true_iff in H as [Hc Hr].
  destruct (is_space c).
  - apply andb_true_iff in Hc as [Hsp Hd]. apply Ascii.eqb_eq in Hsp.
    destruct r as [ | d r' ]; [ discriminate Hd | ].
    apply negb_true_iff in Hd. rewrite Hd, (IH Hr). now subst c.
  - now rewrite (IH Hr).
Qed.

Lemma strip_parts (t : list ascii) :
  exists a b,
    t = a ++ strip t ++ b
    /\ stops is_space (strip t) /\ stops is_space (rev (strip t)).
Proof.
  unfold strip, skip_spaces.
  destruct (span is_space t) as [a u] eqn:Ea. cbn [snd].
  destruct (span is_space (rev u)) as [b v] eqn:Eb. cbn [snd].
  pose proof (span_spec _ _ _ _ Ea) as [-> _].
  pose proof (span_spec _ _ _ _ Eb) as [Hu _].
  apply (f_equal (@rev ascii)) in Hu.
  rewrite rev_involutive, rev_app_distr in Hu.
  exists a, (rev b). split; [ now rewrite Hu | ].
  rewrite rev_involutive.
  assert (Hv : stops is_space v).
  { destruct v as [ | c v ]; [ exact I | ].
    exact (span_stop_head _ _ _ _ _ Eb). }
  split; [ | exact Hv ].
  destruct (rev v) as [ | c w ] eqn:Ev; [ exact I | ].
  subst u. change ((c :: w) ++ rev b) with (c :: w ++ rev b) in Ea.
  exact (span_stop_head _ _ _ _ _ Ea).
Qed.

Lemma forallb_app_parts (p : ascii -> bool) (a m b : list ascii) :
  forallb p (a ++ m ++ b) = true -> forallb p m = true.
Proof.
  rewrite !forallb_app. intros H.
  apply andb_true_iff in H as [_ H]. now apply andb_true_iff in H as [H _].
Qed.

Lemma replace_reserved_clean (s : list ascii) :
  forallb (fun c => negb (is_reserved c)) (replace_reserved s) = true.
Proof.
  induction s as [ | c s IH ]; [ reflexivity | ].
  cbn [replace_reserved map forallb]. fold (replace_reserved s).
  rewrite IH, andb_true_r.
  destruct (is_reserved c) eqn:Hc; [ reflexivity | now rewrite Hc ].
Qed.

Lemma collapse_spaces_clean (s : list ascii) :
  forallb (fun c => negb (is_reserved c)) s = true ->
  forallb (fun c => negb (is_reserved c)) (collapse_spaces s) = true.
Proof.
  induction s as [ | c r IH ]; [ reflexivity | ].
  cbn [forallb collapse_spaces]. intros H.
  apply andb_true_iff in H as [Hc Hr]. specialize (IH Hr).
  destruct (is_space c).
  - destruct r as [ | d r' ]; [ reflexivity | ].
    destruct (is_space d); [ exact IH | ].
    cbn [forallb]. now rewrite IH.
  - cbn [forallb]. now rewrite Hc, IH.
Qed.

Lemma slug_chars_tidy (s : list ascii) :
  tidy (strip (collapse_spaces (replace_reserved s))) = true.
Proof.
  set (t := collapse_spaces (replace_reserved s)).
  destruct (strip_parts t) as (a & b & Et & Hhead & Hlast).
  pose proof (collapse_spaces_spaced (replace_reserved s)) as Hsp.
  pose proof (collapse_spaces_clean _ (replace_reserved_clean s)) as Hcl.
  fold t in Hsp, Hcl. rewrite Et in Hsp, Hcl.
  unfold tidy.
  rewrite (forallb_app_parts _ _ _ _ Hcl).
  rewrite (spaced_prefix_single _ _ (spaced_suffix _ _ Hsp) Hlast).
  destruct (strip t) as [ | c u ]; [ reflexivity | ].
  cbn in Hhead. now rewrite Hhead.
Qed.

Lemma tidy_slug_chars (s : list ascii) :
  tidy s = true -> strip (collapse_spaces (replace_reserved s)) = s.
Proof.
  unfold tidy. intros H.
  apply andb_true_iff in H as [H Hss].
  apply andb_true_iff in H as [Hcl Hhead].
  assert (Hr : replace_reserved s = s).
  { clear Hhead Hss. induction s as [ | c s IH ]; [ reflexivity | ].
    cbn [forallb] in Hcl. apply andb_true_iff in Hcl as [Hc Hs].
    apply negb_true_iff in Hc.
    cbn [replace_reserved map]. fold (replace_reserved s).
    now rewrite Hc, (IH Hs). }
  rewrite Hr, (single_spaced_collapse s Hss).
  destruct s as [ | c r ]; [ reflexivity | ].
  apply negb_true_iff in Hhead.
  pose proof (strip_core [] (c :: r) [] eq_refl eq_refl ltac:(discriminate)
                Hhead (single_spaced_last _ Hss)) as Hs.
  cbn [app] in Hs. rewrite app_nil_r in Hs. exact Hs.
Qed.

(** X23.  What [slug] returns is safe and tidy: it holds none of the
    characters that [slug] replaces (backslash, slash, colon, star,
    question mark, double quote, angle brackets, bar), no white space at
    either end, and inside only single spaces; so it can be used as a
    file name without naming a folder. *)
Theorem slug_is_tidy (s : string) :
  tidy (list_ascii_of_string (slug s)) = true.
Proof.
  unfold slug, text. rewrite list_ascii_of_string_of_list_ascii.
  apply slug_chars_tidy.
Qed.

(** X24.  On ASCII text [slug] changes exactly the texts that are not
    tidy: it returns its argument unchanged if and only if the argument
    has no reserved character, no white space at its ends and only single
    spaces inside.  Applying [slug] twice is the same as applying it
    once. *)
Theorem slug_fixes_the_tidy_texts (s : string) :
  forallb is_ascii (list_ascii_of_string s) = true ->
  (slug s = s <-> tidy (list_ascii_of_string s) = true)
  /\ slug (slug s) = slug s.
Proof.
  intros _.
  assert (Hfix : forall t : string,
             tidy (list_ascii_of_string t) = true -> slug t = t).
  { intros t Ht. unfold slug, text. rewrite (tidy_slug_chars _ Ht).
    apply string_of_list_ascii_of_string. }
  split; [ split | ].
  - intros E. rewrite <- E. unfold slug, text.
    rewrite list_ascii_of_string_of_list_ascii. apply slug_chars_tidy.
  - apply Hfix.
  - apply Hfix. unfold slug, text.
    rewrite list_ascii_of_string_of_list_ascii. apply slug_chars_tidy.
Qed.

Lemma slug_fixes_the_tidy_texts_witness :
  (slug "Urza's  Saga: Part 2" = "Urza's  Saga: Part 2"%string
   <-> tidy (list_ascii_of_string "Urza's  Saga: Part 2") = true)
  /\ slug (slug "Urza's  Saga: Part 2") = slug "Urza's  Saga: Part 2".
Proof.
  apply (slug_fixes_the_tidy_texts "Urza's  Saga: Part 2"). reflexivity.
Defined.

Lemma append_assoc (a b c : string) :
  ((a ++ b) ++ c = a ++ (b ++ c))%string.
Proof. induction a as [ | x a IH ]; cbn; [ reflexivity | now rewrite IH ]. Qed.

Lemma concat_app (sep : string) (p q : list string) :
  p <> [] -> q <> [] ->
  String.concat sep (p ++ q)
  = (String.concat sep p ++ sep ++ String.concat sep q)%string.
Proof.
  intros Hp Hq. induction p as [ | x p IH ]; [ now contradiction Hp | ].
  destruct p as [ | y p ].
  - cbn [app]. destruct q as [ | z q ]; [ now contradiction Hq | ].
    reflexivity.
  - change (String.concat sep ((x :: y :: p) ++ q))
      with (x ++ sep ++ String.concat sep ((y :: p) ++ q))%string.
    rewrite (IH ltac:(discriminate)).
    change (String.concat sep (x :: y :: p))
      with (x ++ sep ++ String.concat sep (y :: p))%string.
    now rewrite !append_assoc.
Qed.

Lemma query_parts_nonempty (sets : list string) (include_tokens : bool) :
  sets <> [] -> query_parts sets include_tokens <> [].
Proof.
  destruct sets as [ | sc sets ]; [ intros H; now contradiction H | ].
  intros _. unfold query_parts. cbn [flat_map app]. discriminate.
Qed.

(** X25.  The query of several sets is the queries of the sets joined by
    [OR]: for two lists of set codes that are not empty, the query of
    the two together is the query of the first, [ OR ], and the query of
    the second; no [OR] is left hanging at an end.  With no set at all
    the query is empty. *)
Theorem build_query_joins_with_or
    (sets1 sets2 : list string) (include_tokens : bool) :
  sets1 <> [] -> sets2 <> [] ->
  build_query (sets1 ++ sets2) include_tokens
  = (build_query sets1 include_tokens ++ " OR "
     ++ build_query sets2 include_tokens)%string
  /\ build_query [] include_tokens = ""%string.
Proof.
  intros H1 H2. split; [ | reflexivity ].
  unfold build_query, query_parts. rewrite flat_map_app.
  apply concat_app; now apply query_parts_nonempty.
Qed.

Lemma build_query_joins_with_or_witness :
  build_query (["SPM"%string] ++ ["m21"%string; "Mar"%string]) true
  = (build_query ["SPM"%string] true ++ " OR "
     ++ build_query ["m21"%string; "Mar"%string] true)%string
  /\ build_query [] true = ""%string.
Proof.
  apply (build_query_joins_with_or ["SPM"%string]
           ["m21"%string; "Mar"%string] true); discriminate.
Defined.

(** ** Crop marks and the cards of the page *)

Lemma steps_between (a b : Z) (u d : Q) :
  0 <= u -> u <= d ->
  ((a < b)%Z /\ inject_Z a * d + d <= inject_Z b * d)
  \/ (a = b)
  \/ ((b < a)%Z /\ inject_Z b * d + d <= inject_Z a * d).
Proof.
  intros Hu Hd. assert (H0 : 0 <= d) by lra.
  destruct (Z.lt_trichotomy a b) as [H | [H | H]].
  - left. split; [ exact H | now apply scaled_step ].
  - right. now left.
  - right. right. split; [ exact H | now apply scaled_step ].
Qed.

(** X26.  Crop marks cross no card: when the steps between cells are at
    least a card wide and high (gap >= 0), every segment of the crop
    marks of a page stays outside the interior of every cell of the grid,
    that of its own cell and those of all the others; the marks run along
    the cut lines only. *)
Theorem crop_marks_cross_no_card
    (rows cols : Z) (x0 y0 w h dx dy : Q) :
  0 <= w -> w <= dx -> 0 <= h -> h <= dy ->
  forall r c, (0 <= r < rows)%Z -> (0 <= c < cols)%Z ->
    Forall (outside_cell (cell_x x0 dx c) (cell_y rows y0 dy r) w h)
           (page_crop_marks rows cols x0 y0 w h dx dy).
Proof.
  intros Hw Hdx Hh Hdy r c Hr Hc.
  pose proof mm_pos as Hmm.
  apply Forall_forall. intros e He. unfold page_crop_marks in He.
  apply in_flat_map in He as (r' & _ & He).
  apply in_flat_map in He as (c' & _ & He).
  cbv zeta in He. unfold cell_x, cell_y.
  destruct (steps_between r' r h dy Hh Hdy) as [[_ Hrr] | [Hrr | [_ Hrr]]];
    destruct (steps_between c' c w dx Hw Hdx) as [[_ Hcc] | [Hcc | [_ Hcc]]];
    try subst r'; try subst c';
    cbn [draw_crop_marks In] in He;
    repeat (destruct He as [<- | He]); try contradiction;
    cbn [outside_cell]; try exact I;
    first [ left; split; lra
          | right; left; split; lra
          | right; right; left; split; lra
          | right; right; right; split; lra ].
Qed.

Lemma crop_marks_cross_no_card_witness :
  Forall (outside_cell (cell_x 10 (CARD_W_MM * mm + 3 * mm) 1)
            (cell_y 3 20 (CARD_H_MM * mm + 3 * mm) 2)
            (CARD_W_MM * mm) (CARD_H_MM * mm))
         (page_crop_marks 3 3 10 20 (CARD_W_MM * mm) (CARD_H_MM * mm)
            (CARD_W_MM * mm + 3 * mm) (CARD_H_MM * mm + 3 * mm)).
Proof.
  apply (crop_marks_cross_no_card 3 3 10 20 (CARD_W_MM * mm)
           (CARD_H_MM * mm) (CARD_W_MM * mm + 3 * mm)
           (CARD_H_MM * mm + 3 * mm));
    try lia; vm_compute; discriminate.
Defined.

(** ** [pick_image] *)

Lemma faces_loop_back (version : string) (fr : list (string * json))
    (faces urls : list json) :
  forallb (fun kv => negb (fst kv =? "back")%string) fr = true ->
  Forall2 (fun f u => face_url version f = Returns u) faces urls ->
  forall (i : Z) (acc : option json),
    (1 < i)%Z ->
    faces_loop version faces i
      (fr ++ match acc with
             | Some b => [("back"%string, b)]
             | None => []
             end)
    = Returns
        (fr ++ match fold_left (fun acc u => if truthy u then Some u else acc)
                                urls acc with
               | Some b => [("back"%string, b)]
               | None => []
               end).
Proof.
  intros Hfr H. induction H as [ | f u faces urls Hf _ IH ]; intros i acc Hi.
  - reflexivity.
  - cbn [faces_loop fold_left]. rewrite Hf.
    destruct (Z.eqb_spec i 1) as [E | _]; [ lia | ].
    destruct (truthy u).
    + assert (Hset : py_set (fr ++ match acc with
                                   | Some b => [("back"%string, b)]
                                   | None => []
                                   end) "back" u
                     = fr ++ [("back"%string, u)]).
      { unfold py_set. rewrite existsb_app, map_app.
        assert (Hex : existsb (fun kv => (fst kv =? "back")%string) fr
                      = false).
        { clear -Hfr. induction fr as [ | kv fr IHf ]; [ reflexivity | ].
          cbn [forallb existsb] in Hfr |- *.
          apply andb_true_iff in Hfr as [Hkv Hfr].
          apply negb_true_iff in Hkv. now rewrite Hkv, IHf. }
        assert (Hmap : map (fun kv => if (fst kv =? "back")%string
                                      then ("back"%string, u) else kv) fr
                       = fr).
        { clear -Hfr. induction fr as [ | kv fr IHf ]; [ reflexivity | ].
          cbn [forallb map] in Hfr |- *.
          apply andb_true_iff in Hfr as [Hkv Hfr].
          apply negb_true_iff in Hkv. now rewrite Hkv, IHf. }
        rewrite Hex, Hmap. destruct acc as [ b | ]; cbn; [ reflexivity | ].
        now rewrite app_nil_r. }
      rewrite Hset. exact (IH (i + 1)%Z (Some u) ltac:(lia)).
    + exact (IH (i + 1)%Z acc ltac:(lia)).
Qed.

(** X27.  A card with two faces or more: when the card has no
    [image_uris] of its own, its [card_faces] is a list and every face
    offers an address without an error, [pick_image] returns a dict with
    at most the keys [front] and [back], in that order: [front] is the
    address of the first face, [back] that of the last later face that
    has one (a third face replaces the second), and [None] is returned in
    place of an empty dict. *)
Theorem faces_give_front_and_back
    (d : list (string * json)) (version : string)
    (face1 url1 : json) (faces urls : list json) :
  dict_get d "image_uris"%string = None ->
  dict_get d "card_faces"%string = Some (JList (face1 :: faces)) ->
  face_url version face1 = Returns url1 ->
  Forall2 (fun f u => face_url version f = Returns u) faces urls ->
  pick_image (JDict d) version
  = Returns (match front_and_back url1 urls with
             | [] => JNull
             | _ :: _ => JDict (front_and_back url1 urls)
             end).
Proof.
  intros Hu Hf H1 H. unfold pick_image, py_get. rewrite Hu, Hf.
  cbn [truthy py_iter faces_loop]. rewrite H1.
  change (1 =? 1)%Z with true. cbv iota. change (1 + 1)%Z with 2%Z.
  unfold front_and_back, last_truthy.
  destruct (truthy url1).
  - change (py_set [] "front"%string url1) with [("front"%string, url1)].
    pose proof (faces_loop_back version [("front"%string, url1)] faces urls
                  eq_refl H 2%Z None ltac:(lia)) as Hl.
    cbn [app] in Hl. rewrite Hl. reflexivity.
  - pose proof (faces_loop_back version [] faces urls eq_refl H 2%Z None
                  ltac:(lia)) as Hl.
    cbn [app] in Hl. rewrite Hl. reflexivity.
Qed.

Lemma faces_give_front_and_back_witness :
  pick_image
    (JDict [("name"%string, JStr "Triple");
            ("card_faces"%string,
             JList [JDict [("image_uris"%string,
                            JDict [("png"%string, JStr "a.png")])];
                    JDict [("image_uris"%string,
                            JDict [("large"%string, JStr "b.jpg")])];
                    JNull;
                    JDict [("image_uris"%string,
                            JDict [("normal"%string, JStr "c.jpg")])]])])
    "png"
  = Returns (match front_and_back (JStr "a.png")
                     [JStr "b.jpg"; JNull; JStr "c.jpg"] with
             | [] => JNull
             | _ :: _ => JDict (front_and_back (JStr "a.png")
                                  [JStr "b.jpg"; JNull; JStr "c.jpg"])
             end).
Proof.
  apply (faces_give_front_and_back
           [("name"%string, JStr "Triple");
            ("card_faces"%string,
             JList [JDict [("image_uris"%string,
                            JDict [("png"%string, JStr "a.png")])];
                    JDict [("image_uris"%string,
                            JDict [("large"%string, JStr "b.jpg")])];
                    JNull;
                    JDict [("image_uris"%string,
                            JDict [("normal"%string, JStr "c.jpg")])]])]
           "png"
           (JDict [("image_uris"%string,
                    JDict [("png"%string, JStr "a.png")])])
           (JStr "a.png")
           [JDict [("image_uris"%string,
                    JDict [("large"%string, JStr "b.jpg")])];
            JNull;
            JDict [("image_uris"%string,
                    JDict [("normal"%string, JStr "c.jpg")])]]
           [JStr "b.jpg"; JNull; JStr "c.jpg"]);
    try reflexivity.
  repeat constructor.
Defined.

Lemma quote_unreserved (s : string) :
  forallb is_unreserved (list_ascii_of_string s) = true -> quote s = s.
Proof.
  intros H. unfold quote, text.
  rewrite <- (string_of_list_ascii_of_string s) at 2. f_equal.
  induction (list_ascii_of_string s) as [ | c l IH ]; [ reflexivity | ].
  cbn [forallb] in H. apply andb_true_iff in H as [Hc Hl].
  cbn [flat_map]. now rewrite Hc, (IH Hl).
Qed.

(** X28.  A card without [image_uris] and without [card_faces] falls back
    on its [id]: an id that is a text of letters, digits and [_ . - ~ /]
    (the ids of Scryfall are such) is put into the address of the image
    endpoint as it is; an id that is truthy but no string makes
    [pick_image] raise [TypeError]; without an id the answer is
    [None]. *)
Theorem card_without_images_falls_back_on_its_id
    (d : list (string * json)) (version : string) :
  dict_get d "image_uris"%string = None ->
  dict_get d "card_faces"%string = None ->
  (forall s,
     dict_get d "id"%string = Some (JStr s) -> s <> ""%string ->
     forallb is_unreserved (list_ascii_of_string s) = true ->
     pick_image (JDict d) version
     = Returns (JStr ("https://api.scryfall.com/cards/" ++ s
                      ++ "?format=image&version=" ++ version)%string))
  /\ (forall v,
        dict_get d "id"%string = Some v -> truthy v = true ->
        (forall s, v <> JStr s) ->
        pick_image (JDict d) version = Raises TypeError)
  /\ (dict_get d "id"%string = None ->
      pick_image (JDict d) version = Returns JNull).
Proof.
  intros Hu Hf. unfold pick_image, py_get. rewrite Hu, Hf. cbn [truthy].
  split; [ | split ].
  - intros s Hid Hne Hs. rewrite Hid. cbn [truthy].
    destruct (String.eqb_spec s "") as [E | _]; [ now contradiction Hne | ].
    cbn [negb]. now rewrite (quote_unreserved s Hs).
  - intros v Hid Hv Hns. rewrite Hid, Hv.
    destruct v; try reflexivity. now contradiction (Hns s).
  - intros Hid. now rewrite Hid.
Qed.

Lemma card_without_images_falls_back_on_its_id_witness :
  (forall s,
     dict_get [("id"%string, JStr "0a1b-2c3d")] "id"%string
     = Some (JStr s) -> s <> ""%string ->
     forallb is_unreserved (list_ascii_of_string s) = true ->
     pick_image (JDict [("id"%string, JStr "0a1b-2c3d")]) "png"
     = Returns (JStr ("https://api.scryfall.com/cards/" ++ s
                      ++ "?format=image&version=" ++ "png")%string))
  /\ (forall v,
        dict_get [("id"%string, JStr "0a1b-2c3d")] "id"%string = Some v ->
        truthy v = true ->
        (forall s, v <> JStr s) ->
        pick_image (JDict [("id"%string, JStr "0a1b-2c3d")]) "png"
        = Raises TypeError)
  /\ (dict_get [("id"%string, JStr "0a1b-2c3d")] "id"%string = None ->
      pick_image (JDict [("id"%string, JStr "0a1b-2c3d")]) "png"
      = Returns JNull).
Proof.
  apply (card_without_images_falls_back_on_its_id
           [("id"%string, JStr "0a1b-2c3d")] "png"); reflexivity.
Defined.
